(** * FaceScanQR: a model of the face-scan component and its capture loop

    The repository holds one React component, [FaceScanQR], in two
    variants that live in the same source file:

    - the _enhanced_ variant (source lines 1-230) runs a face detector on
      every animation frame and captures a frame once a face has been seen
      for a while;
    - the _basic_ variant (source lines 231-376) captures a frame every
      three seconds.

    The component is embedded as a transition system.  React state
    ([useState]) is a record; the variables local to an effect ([let] inside
    [useEffect]) live in a record that exists only while that effect
    instance is alive; DOM nodes reached through [useRef] are optional
    values; asynchronous continuations (the [toBlob] callback, the settled
    [axios.post] promise, the model loader, [getUserMedia]) are events.

    Three facts about React are used and nothing else:
    - a state update is followed by a render and a commit before the next
      event is delivered;
    - at a commit, an effect whose dependency array changed is cleaned up and
      run again, so its local variables are created anew;
    - a [ref] attached to an element is [null] while that element is not
      rendered, and a newly rendered element is a new DOM node.

    Both effects list in their dependency array every state variable that
    their closures read, so the values captured by a live closure are the
    committed ones.  One call of [detectFaces] is one step: other events
    are not interleaved with its wait for the detector.  What the browser
    and the service decide (the clock, the detector's boxes, whether a
    video that has a stream is playing, the encoded blob, the response) is
    input; a video element that was never given a stream does not play.
    Drawing on the overlay canvas and console output do not influence any
    state and are left out. *)

From Stdlib Require Import ZArith String List Bool Lia.
From stdpp Require Import base list.
Import ListNotations.

Local Open Scope string_scope.

(** ** JavaScript values used by the component *)

(** [!!v] for a value that is a string, [null] or [undefined]: the empty
    string, [null] and [undefined] are falsy. *)
Definition truthy (v : option string) : bool :=
  match v with
  | Some s => negb (String.eqb s "")
  | None => false
  end.

(** [v || d] for such a value and a string default. *)
Definition or_else (v : option string) (d : string) : string :=
  match v with
  | Some s => if String.eqb s "" then d else s
  | None => d
  end.

(** ** Status texts (string literals of the source) *)

Definition STATUS_INITIALIZING : string := "Initializing...".
Definition STATUS_IDLE : string := "Idle".
Definition STATUS_MODEL_ERROR : string := "❌ Model Error".
Definition STATUS_SCANNING : string := "Scanning face...".
Definition STATUS_QR_GENERATED : string := "✅ QR Generated".
Definition STATUS_NOT_RECOGNIZED : string := "❌ Face not recognized".

(** ** Data exchanged with the remote service *)

Record User : Type := mkUser {
  name : string;
  mobile : string;
  role : string
}.

(** [res.data.data] *)
Record Payload : Type := mkPayload {
  qr_image : option string;
  payload_user : option User
}.

(** [res.data]; [data] and [message] may be absent. *)
Record ResData : Type := mkResData {
  success : bool;
  data : option Payload;
  message : option string
}.

(** The error caught around [axios.post]: only
    [err.response?.data?.message] is read by the state logic. *)
Record ErrData : Type := mkErrData { err_message : option string }.
Record ErrResponse : Type := mkErrResponse { err_data : option ErrData }.
Record AxiosError : Type := mkAxiosError { response : option ErrResponse }.

(** [err.response?.data?.message] *)
Definition error_message (err : AxiosError) : option string :=
  match response err with
  | Some r => match err_data r with
              | Some d => err_message d
              | None => None
              end
  | None => None
  end.

(** How the promise returned by [axios.post] settles. *)
Inductive PostResult : Type :=
| Resolved (res : ResData)
| Rejected (err : AxiosError).

(** The encoded frame handed to the [toBlob] callback. *)
Inductive Blob : Type := JpegBlob.

(** ** React state shared by both variants *)

Record State : Type := mkState {
  status : string;
  loading : bool;
  qrImage : option string;
  user : option User
}.

Definition setStatus (x : string) (s : State) : State :=
  mkState x (loading s) (qrImage s) (user s).
Definition setLoading (x : bool) (s : State) : State :=
  mkState (status s) x (qrImage s) (user s).
Definition setQrImage (x : option string) (s : State) : State :=
  mkState (status s) (loading s) x (user s).
Definition setUser (x : option User) (s : State) : State :=
  mkState (status s) (loading s) (qrImage s) x.

(** [resetScan] (lines 136-140 and 280-284). *)
Definition resetScan (s : State) : State :=
  setStatus STATUS_IDLE (setUser None (setQrImage None s)).

(** The [try]/[catch] around the request (lines 164-179 and 310-325).  With
    [success] true and [res.data.data] absent, reading [.qr_image] throws
    before any setter runs, and the [catch] block sees an error without a
    [response]. *)
Definition settle (r : PostResult) (s : State) : State :=
  match r with
  | Resolved res =>
      if success res then
        match data res with
        | Some p =>
            setStatus STATUS_QR_GENERATED
              (setUser (payload_user p) (setQrImage (qr_image p) s))
        | None => setStatus (or_else None STATUS_NOT_RECOGNIZED) s
        end
      else setStatus (or_else (message res) STATUS_NOT_RECOGNIZED) s
  | Rejected err =>
      setStatus (or_else (error_message err) STATUS_NOT_RECOGNIZED) s
  end.

(** The same with its [finally] block (lines 180-182 and 326-328). *)
Definition settle_finally (r : PostResult) (s : State) : State :=
  setLoading false (settle r s).

(** ** DOM nodes and media streams *)

Inductive TrackState : Type := Live | Ended.

(** A media stream is the list of its tracks; streams live in a heap and
    are referred to by their index, since the video element and the camera
    share the same stream object. *)
Definition Stream : Type := list TrackState.

Record Video : Type := mkVideo { srcObject : option nat }.

Inductive Canvas : Type := CanvasNode.

(** [stream.getTracks().forEach(t => t.stop())] *)
Definition stopTracks (s : Stream) : Stream := map (fun _ => Ended) s.

(** [stopCamera] (lines 49-52 and 263-266): the stream is reached through
    the video element the ref points to at that moment. *)
Definition stopCamera (videoRef : option Video) (heap : list Stream)
  : list Stream :=
  match videoRef with
  | Some v =>
      match srcObject v with
      | Some h => alter stopTracks h heap
      | None => heap
      end
  | None => heap
  end.

(** Whether the element a ref points to has a stream to play.  An element
    without [srcObject] has nothing to play: its [readyState] is 0. *)
Definition hasStream (r : option Video) : bool :=
  match r with
  | Some v => match srcObject v with Some _ => true | None => false end
  | None => false
  end.

Definition is_live (t : TrackState) : bool :=
  match t with Live => true | Ended => false end.

(** Number of tracks, over all streams handed out, that are still live. *)
Definition live_tracks (heap : list Stream) : nat :=
  length (List.filter is_live (concat heap)).

(** ** What both variants keep besides React state

    [encoding] counts [toBlob] callbacks that have been registered and not
    yet called, [posting] counts requests whose promise has not settled,
    [requests] counts the POST requests issued so far. *)

Record Core : Type := mkCore {
  st : State;
  videoRef : option Video;
  canvasRef : option Canvas;
  heap : list Stream;
  cameraPending : bool;
  encoding : nat;
  posting : nat;
  requests : nat;
  mounted : bool
}.

Definition with_st (f : State -> State) (k : Core) : Core :=
  mkCore (f (st k)) (videoRef k) (canvasRef k) (heap k) (cameraPending k)
    (encoding k) (posting k) (requests k) (mounted k).
Definition with_refs (v : option Video) (cv : option Canvas) (k : Core)
  : Core :=
  mkCore (st k) v cv (heap k) (cameraPending k)
    (encoding k) (posting k) (requests k) (mounted k).
Definition with_heap (h : list Stream) (k : Core) : Core :=
  mkCore (st k) (videoRef k) (canvasRef k) h (cameraPending k)
    (encoding k) (posting k) (requests k) (mounted k).
Definition with_cameraPending (b : bool) (k : Core) : Core :=
  mkCore (st k) (videoRef k) (canvasRef k) (heap k) b
    (encoding k) (posting k) (requests k) (mounted k).
Definition with_encoding (n : nat) (k : Core) : Core :=
  mkCore (st k) (videoRef k) (canvasRef k) (heap k) (cameraPending k)
    n (posting k) (requests k) (mounted k).
Definition with_posting (n : nat) (k : Core) : Core :=
  mkCore (st k) (videoRef k) (canvasRef k) (heap k) (cameraPending k)
    (encoding k) n (requests k) (mounted k).
Definition with_requests (n : nat) (k : Core) : Core :=
  mkCore (st k) (videoRef k) (canvasRef k) (heap k) (cameraPending k)
    (encoding k) (posting k) n (mounted k).
Definition with_mounted (b : bool) (k : Core) : Core :=
  mkCore (st k) (videoRef k) (canvasRef k) (heap k) (cameraPending k)
    (encoding k) (posting k) (requests k) b.

(** The JSX of both variants renders the video and the canvas when
    [!qrImage] and the result card otherwise (lines 198-224 and 344-370).
    [shown] is the state of the previous commit. *)
Definition reconcile (shown : State) (k : Core) : Core :=
  match truthy (qrImage shown), truthy (qrImage (st k)) with
  | false, true => with_refs None None k
  | true, false => with_refs (Some (mkVideo None)) (Some CanvasNode) k
  | _, _ => k
  end.

(** [startCamera] called (the request to [getUserMedia] is pending). *)
Definition startCamera (k : Core) : Core := with_cameraPending true k.

(** [getUserMedia] resolves with a stream (lines 38-43 and 254-257).  The
    enhanced variant assigns [srcObject] only when the ref is set; in the
    basic variant the assignment on a [null] ref throws and the [catch]
    block raises an alert.  In both the stream stays unbound then. *)
Definition cameraGranted (tracks : Stream) (k : Core) : Core :=
  let h := length (heap k) in
  let k1 := with_cameraPending false (with_heap (heap k ++ [tracks]) k) in
  match videoRef k with
  | Some _ => with_refs (Some (mkVideo (Some h))) (canvasRef k) k1
  | None => k1
  end.

(** [getUserMedia] rejects: an alert, no state change. *)
Definition cameraDenied (k : Core) : Core := with_cameraPending false k.

(** The callback given to [toBlob], up to the request (lines 156-167 and
    302-313). *)
Definition blobCallback (blob : option Blob) (k : Core) : Core :=
  let k1 := with_encoding (pred (encoding k)) k in
  match blob with
  | None => with_st (setLoading false) k1
  | Some _ => with_requests (S (requests k1)) (with_posting (S (posting k1)) k1)
  end.

(** The rest of the callback, once the request has settled. *)
Definition postSettled (r : PostResult) (k : Core) : Core :=
  with_st (settle_finally r) (with_posting (pred (posting k)) k).

(** The cleanup of the mount effect (lines 33 and 249). *)
Definition releaseCamera (k : Core) : Core :=
  with_heap (stopCamera (videoRef k) (heap k)) k.

(** [!!ref.current] *)
Definition attached {A : Type} (r : option A) : bool :=
  match r with Some _ => true | None => false end.

Definition option_string_eqb (a b : option string) : bool :=
  match a, b with
  | Some x, Some y => String.eqb x y
  | None, None => true
  | _, _ => false
  end.

(** ** The enhanced variant (lines 1-230) *)

Module Enhanced.

Definition SCAN_COOLDOWN : Z := 3000.
Definition DETECTION_STABILITY_DELAY : Z := 1000.

(** The [let] variables of one run of the detection effect. *)
Record Loop : Type := mkLoop {
  lastScanTime : Z;
  firstDetectionTime : Z
}.

(** [modelLoaded] is React state.  [modelsPending] tells that [loadModels]
    has not finished.  [loop] holds the variables of the live detection
    effect, or [None] when no loop is running.  [triggers] records, most
    recent first, the value of [now] each time [detectFaces] called
    [scanFace]; no code reads it. *)
Record Component : Type := mkComponent {
  core : Core;
  modelLoaded : bool;
  modelsPending : bool;
  loop : option Loop;
  triggers : list Z
}.

Definition with_core (f : Core -> Core) (c : Component) : Component :=
  mkComponent (f (core c)) (modelLoaded c) (modelsPending c) (loop c)
    (triggers c).
Definition with_loop (l : option Loop) (c : Component) : Component :=
  mkComponent (core c) (modelLoaded c) (modelsPending c) l (triggers c).

(** What one iteration of the loop reads from outside the program:
    [Date.now()], the number of boxes the detector returned, and whether a
    video that has a stream passes
    [!(video.paused || video.ended || !video.readyState)]. *)
Record Frame : Type := mkFrame {
  now : Z;
  faces : nat;
  playing : bool
}.

(** [scanFace] up to the call of [toBlob] (lines 142-156).  With a
    [null] video ref, [video.videoWidth] throws after the two setters. *)
Definition scanFace (k : Core) : Core :=
  if loading (st k) || truthy (qrImage (st k)) then k
  else
    let k1 := with_st (fun s => setStatus STATUS_SCANNING (setLoading true s)) k in
    match videoRef k with
    | Some _ => with_encoding (S (encoding k1)) k1
    | None => k1
    end.

(** One call of [detectFaces] (lines 62-127) in the effect instance whose
    variables are [l].  The first test returns without asking for another
    frame, which ends the loop.  The second test (line 68) is passed when
    the element has a stream and the browser reports it as playing; an
    element without [srcObject] fails it on [!video.readyState]. *)
Definition detectFaces (f : Frame) (l : Loop) (c : Component) : Component :=
  let k := core c in
  if negb (attached (videoRef k))
     || negb (attached (canvasRef k))
     || negb (modelLoaded c)
     || truthy (qrImage (st k))
  then with_loop None c
  else if negb (playing f && hasStream (videoRef k)) then c
  else if (0 <? faces f)%nat then
    let first :=
      if (firstDetectionTime l =? 0)%Z then now f else firstDetectionTime l in
    if (now f - first >? DETECTION_STABILITY_DELAY)%Z
       && negb (loading (st k))
       && negb (String.eqb (status (st k)) STATUS_QR_GENERATED)
       && (now f - lastScanTime l >? SCAN_COOLDOWN)%Z
    then
      mkComponent (scanFace k) (modelLoaded c) (modelsPending c)
        (Some (mkLoop (now f) 0)) (now f :: triggers c)
    else with_loop (Some (mkLoop (lastScanTime l) first)) c
  else with_loop (Some (mkLoop (lastScanTime l) 0)) c.

(** The dependency array [[modelLoaded, qrImage, loading, status]]. *)
Definition deps_eqb (a b : Component) : bool :=
  Bool.eqb (modelLoaded a) (modelLoaded b)
  && option_string_eqb (qrImage (st (core a))) (qrImage (st (core b)))
  && Bool.eqb (loading (st (core a))) (loading (st (core b)))
  && String.eqb (status (st (core a))) (status (st (core b))).

(** The body of the detection effect (lines 56-61 and 129-131): fresh
    variables, and a loop only when [modelLoaded && !qrImage]. *)
Definition runEffect (c : Component) : option Loop :=
  if modelLoaded c && negb (truthy (qrImage (st (core c))))
  then Some (mkLoop 0 0) else None.

(** Render and commit after a handler has run: [before] is the component
    as last committed, [after] the component the handler left. *)
Definition commit (before after : Component) : Component :=
  let c1 := with_core (reconcile (st (core before))) after in
  if deps_eqb before after then c1 else with_loop (runEffect c1) c1.

Inductive Event : Type :=
| ModelsLoaded
| ModelsFailed
| CameraGranted (tracks : Stream)
| CameraDenied
| AnimationFrame (f : Frame)
| BlobReady (blob : option Blob)
| PostSettled (r : PostResult)
| ScanAgain
| Unmount.

(** [loadModels] after the model files have loaded (lines 23-25). *)
Definition modelsLoaded (c : Component) : Component :=
  mkComponent
    (startCamera (with_st (setStatus STATUS_IDLE) (core c)))
    true false (loop c) (triggers c).

(** [loadModels] when loading failed (lines 26-29). *)
Definition modelsFailed (c : Component) : Component :=
  mkComponent (with_st (setStatus STATUS_MODEL_ERROR) (core c))
    (modelLoaded c) false (loop c) (triggers c).

(** The handler an event runs; an event that cannot occur in the current
    component (no promise pending, no loop, no button) changes nothing. *)
Definition handle (e : Event) (c : Component) : Component :=
  match e with
  | ModelsLoaded => if modelsPending c then modelsLoaded c else c
  | ModelsFailed => if modelsPending c then modelsFailed c else c
  | CameraGranted tracks =>
      if cameraPending (core c) then with_core (cameraGranted tracks) c
      else c
  | CameraDenied =>
      if cameraPending (core c) then with_core cameraDenied c else c
  | AnimationFrame f =>
      match loop c with
      | Some l => detectFaces f l c
      | None => c
      end
  | BlobReady blob =>
      if (0 <? encoding (core c))%nat then with_core (blobCallback blob) c
      else c
  | PostSettled r =>
      if (0 <? posting (core c))%nat then with_core (postSettled r) c
      else c
  | ScanAgain =>
      if truthy (qrImage (st (core c))) then with_core (with_st resetScan) c
      else c
  | Unmount => c
  end.

(** Teardown: the cleanups of both effects ([stopCamera] and
    [cancelAnimationFrame]).  The cleanup is given the ref as it was at
    the last commit, which is the reading most favourable to the code (a
    React that detaches refs before it runs the cleanups hands it [null]). *)
Definition unmount (c : Component) : Component :=
  with_loop None (with_core (fun k => with_mounted false (releaseCamera k)) c).

Definition step (c : Component) (e : Event) : Component :=
  if mounted (core c) then
    match e with
    | Unmount => unmount c
    | _ => commit c (handle e c)
    end
  else c.

Definition run (c : Component) (es : list Event) : Component :=
  fold_left step es c.

(** The component after its first render: [useState] initial values
    (lines 12-16), both refs attached, [loadModels] started (line 31);
    the detection effect ran with [modelLoaded] false. *)
Definition init : Component :=
  mkComponent
    (mkCore (mkState STATUS_INITIALIZING false None None)
       (Some (mkVideo None)) (Some CanvasNode) [] false 0 0 0 true)
    false true None [].

End Enhanced.

(** ** The basic variant (lines 231-376) *)

Module Basic.

(** [interval] tells whether the timer set by the auto-scan effect is
    running; [ticks] counts the calls of [scanFace] made by the timer. *)
Record Component : Type := mkComponent {
  core : Core;
  interval : bool;
  ticks : nat
}.

Definition with_core (f : Core -> Core) (c : Component) : Component :=
  mkComponent (f (core c)) (interval c) (ticks c).
Definition with_interval (b : bool) (c : Component) : Component :=
  mkComponent (core c) b (ticks c).

(** [scanFace] up to the call of [toBlob] (lines 286-302). *)
Definition scanFace (k : Core) : Core :=
  if loading (st k) || truthy (qrImage (st k)) then k
  else
    let k1 := with_st (fun s => setStatus STATUS_SCANNING (setLoading true s)) k in
    if negb (attached (videoRef k)) || negb (attached (canvasRef k)) then k1
    else with_encoding (S (encoding k1)) k1.

(** The dependency array [[qrImage, loading, status]]. *)
Definition deps_eqb (a b : Component) : bool :=
  option_string_eqb (qrImage (st (core a))) (qrImage (st (core b)))
  && Bool.eqb (loading (st (core a))) (loading (st (core b)))
  && String.eqb (status (st (core a))) (status (st (core b))).

(** The body of the auto-scan effect (lines 271-276). *)
Definition runEffect (c : Component) : bool :=
  negb (truthy (qrImage (st (core c))))
  && negb (loading (st (core c)))
  && negb (String.eqb (status (st (core c))) STATUS_QR_GENERATED).

(** Render and commit: the timer is cleared and the effect run again when
    a dependency changed. *)
Definition commit (before after : Component) : Component :=
  let c1 := with_core (reconcile (st (core before))) after in
  if deps_eqb before after then c1 else with_interval (runEffect c1) c1.

Inductive Event : Type :=
| CameraGranted (tracks : Stream)
| CameraDenied
| Tick
| BlobReady (blob : option Blob)
| PostSettled (r : PostResult)
| ScanAgain
| Unmount.

(** The handler an event runs; [Tick] is the timer callback (line 274). *)
Definition handle (e : Event) (c : Component) : Component :=
  match e with
  | CameraGranted tracks =>
      if cameraPending (core c) then with_core (cameraGranted tracks) c
      else c
  | CameraDenied =>
      if cameraPending (core c) then with_core cameraDenied c else c
  | Tick =>
      if interval c
      then mkComponent (scanFace (core c)) (interval c) (S (ticks c))
      else c
  | BlobReady blob =>
      if (0 <? encoding (core c))%nat then with_core (blobCallback blob) c
      else c
  | PostSettled r =>
      if (0 <? posting (core c))%nat then with_core (postSettled r) c
      else c
  | ScanAgain =>
      if truthy (qrImage (st (core c))) then with_core (with_st resetScan) c
      else c
  | Unmount => c
  end.

(** Teardown: [stopCamera] and [clearInterval], with the ref as it was at
    the last commit. *)
Definition unmount (c : Component) : Component :=
  with_interval false
    (with_core (fun k => with_mounted false (releaseCamera k)) c).

Definition step (c : Component) (e : Event) : Component :=
  if mounted (core c) then
    match e with
    | Unmount => unmount c
    | _ => commit c (handle e c)
    end
  else c.

Definition run (c : Component) (es : list Event) : Component :=
  fold_left step es c.

(** The component after its first render: initial values (lines 241-244),
    [startCamera] called (line 248), the timer set (line 273). *)
Definition init : Component :=
  mkComponent
    (mkCore (mkState STATUS_IDLE false None None)
       (Some (mkVideo None)) (Some CanvasNode) [] true 0 0 0 true)
    true 0.

End Basic.

(** ** Vocabulary of the statements *)

(** Requests that have been started and whose callbacks have not all run. *)
Definition pending (k : Core) : nat := (encoding k + posting k)%nat.

(** The timestamps of the current run of frames in which the detector saw a
    face, read from a history given most recent event first.  A frame in
    which the detector saw no face ends the run; frames in which the video
    is not reported as playing, and other events, do not belong to it. *)
Fixpoint streak (hist : list Enhanced.Event) : list Z :=
  match hist with
  | [] => []
  | Enhanced.AnimationFrame f :: h =>
      if Enhanced.playing f then
        if (0 <? Enhanced.faces f)%nat then Enhanced.now f :: streak h
        else []
      else streak h
  | _ :: h => streak h
  end.

(** A frame of a playing video at time [t] in which [n] faces are seen. *)
Definition seen (n : nat) (t : Z) : Enhanced.Event :=
  Enhanced.AnimationFrame (Enhanced.mkFrame t n true).

(** What a failed submission reports as its message. *)
Definition failure_message (r : PostResult) : option string :=
  match r with
  | Resolved res => message res
  | Rejected err => error_message err
  end.

(** A response with [success] false, or a rejected request. *)
Definition failed (r : PostResult) : bool :=
  match r with
  | Resolved res => negb (success res)
  | Rejected _ => true
  end.

(** The invariant on React state and on the requests in flight; it holds
    in both variants. *)
Record SInv (k : Core) : Prop := mkSInv {
  sinv_pending :
    pending k = 0%nat \/ (pending k = 1%nat /\ loading (st k) = true);
  sinv_result :
    truthy (qrImage (st k)) = true ->
    loading (st k) = false /\ pending k = 0%nat
}.

(** While mounted and showing no result, both refs are attached. *)
Definition RefsInv (k : Core) : Prop :=
  mounted k = true ->
  truthy (qrImage (st k)) = false ->
  attached (videoRef k) = true /\ attached (canvasRef k) = true.

(** Invariants of the enhanced component. *)
Record EInv (c : Enhanced.Component) : Prop := mkEInv {
  einv_state : SInv (Enhanced.core c);
  einv_refs : RefsInv (Enhanced.core c);
  einv_models :
    Enhanced.modelsPending c = true -> Enhanced.modelLoaded c = false;
  einv_unloaded :
    Enhanced.modelLoaded c = false ->
    pending (Enhanced.core c) = 0%nat
    /\ truthy (qrImage (st (Enhanced.core c))) = false
    /\ Enhanced.loop c = None
}.

(** Invariants of the basic component. *)
Record BInv (c : Basic.Component) : Prop := mkBInv {
  binv_state : SInv (Basic.core c);
  binv_refs : RefsInv (Basic.core c);
  binv_interval :
    Basic.interval c = (mounted (Basic.core c) && Basic.runEffect c)%bool
}.

(** The stability timer of a live loop is either unset or the timestamp of
    a frame of the current run of [hist]. *)
Definition Tracked (lp : option Enhanced.Loop) (hist : list Enhanced.Event)
  : Prop :=
  forall l, lp = Some l ->
    Enhanced.firstDetectionTime l = 0%Z
    \/ In (Enhanced.firstDetectionTime l) (streak hist).

(** The same for the loop of a mounted component; a timer is set only
    while the video has a stream. *)
Definition Tracking (c : Enhanced.Component) (hist : list Enhanced.Event)
  : Prop :=
  mounted (Enhanced.core c) = true ->
  Tracked (Enhanced.loop c) hist
  /\ (hasStream (videoRef (Enhanced.core c)) = false ->
      forall l, Enhanced.loop c = Some l ->
                Enhanced.firstDetectionTime l = 0%Z).

(** The component is in a state in which an animation frame of a playing
    video reaches the detector: the two tests at the head of [detectFaces]
    (lines 63 and 68) are passed. *)
Definition detecting (c : Enhanced.Component) : Prop :=
  mounted (Enhanced.core c) = true
  /\ attached (videoRef (Enhanced.core c)) = true
  /\ attached (canvasRef (Enhanced.core c)) = true
  /\ Enhanced.modelLoaded c = true
  /\ truthy (qrImage (st (Enhanced.core c))) = false
  /\ hasStream (videoRef (Enhanced.core c)) = true.

(** While a submission of the enhanced component is in flight, the video
    element has its stream. *)
Definition BoundInv (c : Enhanced.Component) : Prop :=
  (0 < pending (Enhanced.core c))%nat ->
  hasStream (videoRef (Enhanced.core c)) = true.

(** [loadModels] has finished and [getUserMedia] has answered: no promise
    is left whose handler calls [startCamera] or assigns [srcObject]. *)
Definition Granted (c : Enhanced.Component) : Prop :=
  cameraPending (Enhanced.core c) = false
  /\ Enhanced.modelsPending c = false.

(** Until then the video element has no stream, nothing is in flight and
    no result is stored; the camera is asked for after the models. *)
Definition CameraInv (c : Enhanced.Component) : Prop :=
  Granted c
  \/ (pending (Enhanced.core c) = 0%nat
      /\ hasStream (videoRef (Enhanced.core c)) = false
      /\ truthy (qrImage (st (Enhanced.core c))) = false
      /\ (Enhanced.modelsPending c = true ->
          cameraPending (Enhanced.core c) = false)).

(** An enhanced component that shows the video, whose video element has no
    stream and can get none. *)
Definition Blind (c : Enhanced.Component) : Prop :=
  Granted c
  /\ pending (Enhanced.core c) = 0%nat
  /\ hasStream (videoRef (Enhanced.core c)) = false
  /\ truthy (qrImage (st (Enhanced.core c))) = false.

(** [loading] is set only while one [toBlob] callback or one request is
    outstanding. *)
Definition Awaited (k : Core) : Prop :=
  loading (st k) = true -> pending k = 1%nat.

(** A component that shows the success marker and has nothing in flight. *)
Definition Halted (c : Enhanced.Component) : Prop :=
  status (st (Enhanced.core c)) = STATUS_QR_GENERATED
  /\ pending (Enhanced.core c) = 0%nat
  /\ Enhanced.modelsPending c = false.

Definition BasicHalted (c : Basic.Component) : Prop :=
  status (st (Basic.core c)) = STATUS_QR_GENERATED
  /\ pending (Basic.core c) = 0%nat
  /\ Basic.interval c = false.

(** ** Concrete runs *)

Definition a_user : User := mkUser "Asha" "5550100" "student".

Definition accepted : PostResult :=
  Resolved (mkResData true
              (Some (mkPayload (Some "data:image/png;base64,iVBOR")
                       (Some a_user)))
              None).

Definition unknown_face : PostResult :=
  Resolved (mkResData false None (Some "Unknown face")).

(** The enhanced component up to its first capture: the models load, the
    camera is granted with one track, and a face stays in view from
    [10000] on. *)
Definition first_capture : list Enhanced.Event :=
  [Enhanced.ModelsLoaded; Enhanced.CameraGranted [Live];
   seen 1 10000; seen 1 11001].

(** The request of the first capture is rejected by the service 199 ms
    after the capture, and the face stays in view. *)
Definition two_captures : list Enhanced.Event :=
  first_capture
  ++ [Enhanced.BlobReady (Some JpegBlob); Enhanced.PostSettled unknown_face;
      seen 1 11200; seen 1 12201].

(** The first capture is accepted, the result is shown, and the component
    is then unmounted. *)
Definition capture_then_leave : list Enhanced.Event :=
  first_capture
  ++ [Enhanced.BlobReady (Some JpegBlob); Enhanced.PostSettled accepted;
      Enhanced.Unmount].

(** The result is shown, "Scan Again" is clicked, and the component is
    unmounted. *)
Definition capture_again_then_leave : list Enhanced.Event :=
  first_capture
  ++ [Enhanced.BlobReady (Some JpegBlob); Enhanced.PostSettled accepted;
      Enhanced.ScanAgain; Enhanced.Unmount].

(** The camera is granted and the component is unmounted before any
    result is shown. *)
Definition look_then_leave : list Enhanced.Event :=
  [Enhanced.ModelsLoaded; Enhanced.CameraGranted [Live; Live];
   seen 1 10000; Enhanced.Unmount].

(** A response with [success] false whose message is the text the
    component uses as its success marker. *)
Definition marker_message : PostResult :=
  Resolved (mkResData false None (Some STATUS_QR_GENERATED)).

(** The request of the first capture comes back with that response. *)
Definition capture_refused_with_marker : list Enhanced.Event :=
  first_capture
  ++ [Enhanced.BlobReady (Some JpegBlob); Enhanced.PostSettled marker_message].

Definition basic_capture_refused_with_marker : list Basic.Event :=
  [Basic.CameraGranted [Live]; Basic.Tick; Basic.BlobReady (Some JpegBlob);
   Basic.PostSettled marker_message].

(** ** The rest of the component: what is drawn *)

(** [s.includes(pat)].  Strings are the bytes of their UTF-8 encoding; on
    well-formed text a byte-wise match is a match of characters. *)
Fixpoint includes (pat s : string) : bool :=
  if String.prefix pat s then true
  else match s with
       | EmptyString => false
       | String _ s' => includes pat s'
       end.

(** [getStatusClass] (lines 186-191 and 332-337). *)
Definition getStatusClass (text : string) : string :=
  if String.eqb text STATUS_QR_GENERATED then "success"
  else if includes "❌" text then "error"
  else if String.eqb text STATUS_SCANNING then "scanning"
  else "".

(** What the JSX returns (lines 193-227 and 339-373), without styling:
    either the video with the scanning overlay and the status badge, or the
    result card with the badge, the QR image, the three user fields and
    the "Scan Again" button. *)
Inductive View : Type :=
| ScannerView (overlay : bool) (badge_class badge_text : string)
| ResultView (badge_class badge_text src : string)
    (shown_name shown_mobile shown_role : string).

(** One render.  In the result card [user.name] is read; with [user] null
    that throws, which is [None] here. *)
Definition render (s : State) : option View :=
  if negb (truthy (qrImage s)) then
    Some (ScannerView (loading s) (getStatusClass (status s)) (status s))
  else
    match qrImage s, user s with
    | Some q, Some u =>
        Some (ResultView (getStatusClass (status s)) (status s) q
                (name u) (mobile u) (role u))
    | _, _ => None
    end.

(** The text drawn above each detected box (lines 104-111): a percentage
    while [progress < 1], "Capturing..." from then on.  [progress] is
    [min(timeDetected / 1000, 1)], so [progress < 1] exactly when
    [timeDetected < 1000]; the percentage itself is not modelled. *)
Inductive Label : Type := ScanningPercent | Capturing.

(** The label drawn in a frame that reaches the detector, [None] when no
    box is drawn. *)
Definition overlayLabel (f : Enhanced.Frame) (l : Enhanced.Loop)
  : option Label :=
  if (0 <? Enhanced.faces f)%nat then
    let first :=
      if (Enhanced.firstDetectionTime l =? 0)%Z then Enhanced.now f
      else Enhanced.firstDetectionTime l in
    if (Enhanced.now f - first <? Enhanced.DETECTION_STABILITY_DELAY)%Z
    then Some ScanningPercent else Some Capturing
  else None.

(** A frame at time [t] whose video does not pass the playing test. *)
Definition unseen (n : nat) (t : Z) : Enhanced.Event :=
  Enhanced.AnimationFrame (Enhanced.mkFrame t n false).

(** ** Further invariants *)

(** What the status says about the submission. *)
Record Shown (k : Core) : Prop := mkShown {
  shown_scanning : (0 < pending k)%nat -> status (st k) = STATUS_SCANNING;
  shown_result :
    truthy (qrImage (st k)) = true -> status (st k) = STATUS_QR_GENERATED
}.

(** The streams received from [getUserMedia] so far, plus one for a call
    that is still pending.  A call that was refused leaves no trace in the
    core, so this is not the number of calls made. *)
Definition camera_requests (k : Core) : nat :=
  (length (heap k) + (if cameraPending k then 1 else 0))%nat.







Record XInv (c : Enhanced.Component) : Prop := mkXInv {
  xinv_shown : Shown (Enhanced.core c);
  xinv_counted :
    (encoding (Enhanced.core c) + requests (Enhanced.core c)
     <= length (Enhanced.triggers c))%nat;
  xinv_camera : (camera_requests (Enhanced.core c) <= 1)%nat;
  xinv_no_camera :
    Enhanced.modelLoaded c = false ->
    camera_requests (Enhanced.core c) = 0%nat;
  xinv_loop :
    forall l, Enhanced.loop c = Some l ->
      mounted (Enhanced.core c) = true
      /\ truthy (qrImage (st (Enhanced.core c))) = false
}.

Record YInv (c : Basic.Component) : Prop := mkYInv {
  yinv_shown : Shown (Basic.core c);
  yinv_counted :
    (encoding (Basic.core c) + requests (Basic.core c) <= Basic.ticks c)%nat;
  yinv_camera : (camera_requests (Basic.core c) <= 1)%nat
}.

(** The enhanced component after [loadModels] has failed. *)
Definition ModelError (c : Enhanced.Component) : Prop :=
  Enhanced.core c
  = mkCore (mkState STATUS_MODEL_ERROR false None None)
      (videoRef (Enhanced.core c)) (canvasRef (Enhanced.core c)) [] false
      0 0 0 (mounted (Enhanced.core c))
  /\ Enhanced.modelLoaded c = false
  /\ Enhanced.modelsPending c = false
  /\ Enhanced.loop c = None
  /\ Enhanced.triggers c = [].

(** * Facts *)

(** ** Strings and JavaScript values *)

Lemma or_else_some (m d : string) :
  m <> "" -> or_else (Some m) d = m.
Proof.
  intros Hm. unfold or_else.
  destruct (String.eqb_spec m ""); congruence.
Qed.

Lemma or_else_empty (d : string) : or_else (Some "") d = d.
Proof. reflexivity. Qed.

Lemma option_string_eqb_eq (a b : option string) :
  option_string_eqb a b = true <-> a = b.
Proof.
  destruct a as [x|], b as [y|]; simpl; split; intros H;
    try congruence; try discriminate.
  - apply String.eqb_eq in H. congruence.
  - apply String.eqb_eq. congruence.
Qed.

Lemma option_string_eqb_truthy (a b : option string) :
  option_string_eqb a b = true -> truthy a = truthy b.
Proof. intros H. apply option_string_eqb_eq in H. now subst. Qed.

(** ** The request handlers on React state *)

Lemma settle_finally_loading (r : PostResult) (s : State) :
  loading (settle_finally r s) = false.
Proof. reflexivity. Qed.

Lemma settle_failed (r : PostResult) (s : State) :
  failed r = true ->
  settle r s = setStatus (or_else (failure_message r) STATUS_NOT_RECOGNIZED) s.
Proof.
  destruct r as [res|err]; simpl; [|reflexivity].
  destruct (success res); simpl; [discriminate|reflexivity].
Qed.

Lemma reconcile_st (shown : State) (k : Core) :
  st (reconcile shown k) = st k.
Proof. unfold reconcile. now repeat case_match. Qed.

Lemma reconcile_same (k : Core) : reconcile (st k) k = k.
Proof. unfold reconcile. now destruct (truthy (qrImage (st k))). Qed.

(** ** Invariants of the shared handlers *)

Ltac core_cases k :=
  destruct k as [[? ? ? ?] ? ? ? ? ? ? ? ?]; simpl in *.

Ltac sinv_intro H :=
  destruct H as [?Hp ?Hr]; unfold pending in *; simpl in *.

Ltac sinv_close :=
  split; unfold pending; simpl; intros;
  repeat match goal with
         | H : ?a = true -> _, H' : ?a = true |- _ => specialize (H H')
         end;
  intuition (try discriminate; try congruence; try lia).

Lemma SInv_setStatus (x : string) (k : Core) :
  SInv k -> SInv (with_st (setStatus x) k).
Proof. intros H. core_cases k. sinv_intro H. sinv_close. Qed.

Lemma SInv_reconcile (shown : State) (k : Core) :
  SInv k -> SInv (reconcile shown k).
Proof.
  intros H. unfold reconcile.
  repeat case_match; core_cases k; sinv_intro H; sinv_close.
Qed.

Lemma SInv_startCamera (k : Core) : SInv k -> SInv (startCamera k).
Proof. intros H. core_cases k. sinv_intro H. sinv_close. Qed.

Lemma SInv_cameraGranted (tracks : Stream) (k : Core) :
  SInv k -> SInv (cameraGranted tracks k).
Proof.
  intros H. unfold cameraGranted.
  case_match; core_cases k; sinv_intro H; sinv_close.
Qed.

Lemma SInv_cameraDenied (k : Core) : SInv k -> SInv (cameraDenied k).
Proof. intros H. core_cases k. sinv_intro H. sinv_close. Qed.

Lemma SInv_blobCallback (blob : option Blob) (k : Core) :
  (0 < encoding k)%nat -> SInv k -> SInv (blobCallback blob k).
Proof.
  intros Hen H. unfold blobCallback.
  destruct blob; core_cases k; sinv_intro H; sinv_close.
Qed.

Lemma SInv_postSettled (r : PostResult) (k : Core) :
  (0 < posting k)%nat -> SInv k -> SInv (postSettled r k).
Proof.
  intros Hpo H. core_cases k. sinv_intro H. sinv_close.
Qed.

Lemma SInv_resetScan (k : Core) : SInv k -> SInv (with_st resetScan k).
Proof. intros H. core_cases k. sinv_intro H. sinv_close. Qed.

Lemma SInv_releaseCamera (k : Core) :
  SInv k -> SInv (with_mounted false (releaseCamera k)).
Proof. intros H. core_cases k. sinv_intro H. sinv_close. Qed.

Lemma SInv_enhanced_scanFace (k : Core) :
  SInv k -> SInv (Enhanced.scanFace k).
Proof.
  intros H. unfold Enhanced.scanFace.
  destruct (loading (st k)) eqn:El; simpl; [exact H|].
  destruct (truthy (qrImage (st k))) eqn:Eq; simpl; [exact H|].
  case_match; core_cases k; sinv_intro H; subst; sinv_close.
Qed.

Lemma SInv_basic_scanFace (k : Core) :
  SInv k -> SInv (Basic.scanFace k).
Proof.
  intros H. unfold Basic.scanFace.
  destruct (loading (st k)) eqn:El; simpl; [exact H|].
  destruct (truthy (qrImage (st k))) eqn:Eq; simpl; [exact H|].
  case_match; core_cases k; sinv_intro H; subst; sinv_close.
Qed.

(** The refs after a commit, when the handler left attachment and mounting
    as they were. *)
Lemma RefsInv_reconcile (before after : Core) :
  RefsInv before ->
  attached (videoRef after) = attached (videoRef before) ->
  attached (canvasRef after) = attached (canvasRef before) ->
  mounted after = mounted before ->
  RefsInv (reconcile (st before) after).
Proof.
  unfold RefsInv, reconcile. intros H Hv Hc Hm.
  destruct (truthy (qrImage (st before))) eqn:Eb,
           (truthy (qrImage (st after))) eqn:Ea; simpl;
    intros Hm' Hq; try (split; reflexivity); try congruence.
  rewrite Hv, Hc. apply H; congruence.
Qed.

Lemma RefsInv_unmounted (k : Core) : mounted k = false -> RefsInv k.
Proof. unfold RefsInv. congruence. Qed.

Lemma reconcile_pending (shown : State) (k : Core) :
  pending (reconcile shown k) = pending k.
Proof. unfold reconcile. now repeat case_match. Qed.

Lemma reconcile_mounted (shown : State) (k : Core) :
  mounted (reconcile shown k) = mounted k.
Proof. unfold reconcile. now repeat case_match. Qed.

Lemma reconcile_counts (shown : State) (k : Core) :
  heap (reconcile shown k) = heap k
  /\ cameraPending (reconcile shown k) = cameraPending k
  /\ encoding (reconcile shown k) = encoding k
  /\ requests (reconcile shown k) = requests k.
Proof. unfold reconcile. now repeat case_match. Qed.

Lemma cameraGranted_frame (tracks : Stream) (k : Core) :
  st (cameraGranted tracks k) = st k
  /\ attached (videoRef (cameraGranted tracks k)) = attached (videoRef k)
  /\ canvasRef (cameraGranted tracks k) = canvasRef k
  /\ mounted (cameraGranted tracks k) = mounted k
  /\ pending (cameraGranted tracks k) = pending k.
Proof.
  unfold cameraGranted.
  destruct (videoRef k) eqn:E; simpl; rewrite ?E; repeat split; reflexivity.
Qed.

Lemma blobCallback_frame (blob : option Blob) (k : Core) :
  videoRef (blobCallback blob k) = videoRef k
  /\ canvasRef (blobCallback blob k) = canvasRef k
  /\ heap (blobCallback blob k) = heap k
  /\ mounted (blobCallback blob k) = mounted k
  /\ qrImage (st (blobCallback blob k)) = qrImage (st k)
  /\ user (st (blobCallback blob k)) = user (st k)
  /\ status (st (blobCallback blob k)) = status (st k).
Proof. unfold blobCallback. destruct blob; repeat split; reflexivity. Qed.

(** ** Invariants of the enhanced component *)

Section EnhancedInvariants.

Import Enhanced.

Lemma commit_core (before after : Component) :
  core (commit before after) = reconcile (st (core before)) (core after).
Proof. unfold commit. now case_match. Qed.

Lemma commit_modelLoaded (before after : Component) :
  modelLoaded (commit before after) = modelLoaded after.
Proof. unfold commit. now case_match. Qed.

Lemma commit_modelsPending (before after : Component) :
  modelsPending (commit before after) = modelsPending after.
Proof. unfold commit. now case_match. Qed.

Lemma commit_triggers (before after : Component) :
  triggers (commit before after) = triggers after.
Proof. unfold commit. now case_match. Qed.

Lemma commit_loop (before after : Component) :
  loop (commit before after)
  = if deps_eqb before after then loop after
    else if modelLoaded after && negb (truthy (qrImage (st (core after))))
         then Some (mkLoop 0 0) else None.
Proof.
  unfold commit, runEffect. case_match; simpl; [reflexivity|].
  now rewrite reconcile_st.
Qed.

Lemma EInv_commit (before after : Component) :
  EInv before ->
  SInv (core after) ->
  (modelsPending after = true -> modelLoaded after = false) ->
  (modelLoaded after = false ->
   pending (core after) = 0%nat
   /\ truthy (qrImage (st (core after))) = false
   /\ loop after = None) ->
  attached (videoRef (core after)) = attached (videoRef (core before)) ->
  attached (canvasRef (core after)) = attached (canvasRef (core before)) ->
  mounted (core after) = mounted (core before) ->
  EInv (commit before after).
Proof.
  intros Hb Hs Hm Hu Hv Hc Hmo. split.
  - rewrite commit_core. now apply SInv_reconcile.
  - rewrite commit_core. apply RefsInv_reconcile; auto. apply Hb.
  - now rewrite commit_modelsPending, commit_modelLoaded.
  - rewrite commit_modelLoaded, commit_core, commit_loop.
    rewrite reconcile_pending, reconcile_st. intros Hml.
    destruct (Hu Hml) as (? & ? & ?). repeat split; auto.
    rewrite Hml. simpl. now case_match.
Qed.

Lemma EInv_init : EInv init.
Proof.
  split; [split| | |]; cbv; intros; try discriminate; auto.
Qed.

(** [scanFace] touches [loading], [status] and the callback count only. *)
Lemma scanFace_frame (k : Core) :
  videoRef (scanFace k) = videoRef k
  /\ canvasRef (scanFace k) = canvasRef k
  /\ heap (scanFace k) = heap k
  /\ mounted (scanFace k) = mounted k
  /\ cameraPending (scanFace k) = cameraPending k
  /\ posting (scanFace k) = posting k
  /\ requests (scanFace k) = requests k
  /\ qrImage (st (scanFace k)) = qrImage (st k)
  /\ user (st (scanFace k)) = user (st k).
Proof.
  unfold scanFace.
  destruct (loading (st k) || truthy (qrImage (st k)));
    [repeat split; reflexivity|].
  destruct (videoRef k) eqn:E; simpl; rewrite ?E; repeat split; reflexivity.
Qed.

Lemma detectFaces_core (f : Frame) (l : Loop) (c : Component) :
  core (detectFaces f l c) = core c
  \/ core (detectFaces f l c) = scanFace (core c).
Proof.
  unfold detectFaces. repeat case_match; simpl; auto.
Qed.

Lemma detectFaces_models (f : Frame) (l : Loop) (c : Component) :
  modelLoaded (detectFaces f l c) = modelLoaded c
  /\ modelsPending (detectFaces f l c) = modelsPending c.
Proof.
  unfold detectFaces. repeat case_match; simpl; auto.
Qed.

Lemma EInv_loaded (c : Component) :
  EInv c -> modelLoaded c = true -> modelsPending c = false.
Proof.
  intros H Hml. destruct (modelsPending c) eqn:E; [|reflexivity].
  apply H in E. congruence.
Qed.

Lemma EInv_loop_loaded (c : Component) (l : Loop) :
  EInv c -> loop c = Some l -> modelLoaded c = true.
Proof.
  intros H Hl. destruct (modelLoaded c) eqn:E; [reflexivity|].
  apply H in E. destruct E as (_ & _ & E). congruence.
Qed.

Lemma EInv_pending_loaded (c : Component) :
  EInv c -> (0 < pending (core c))%nat -> modelLoaded c = true.
Proof.
  intros H Hp. destruct (modelLoaded c) eqn:E; [reflexivity|].
  apply H in E. lia.
Qed.

Lemma EInv_result_loaded (c : Component) :
  EInv c -> truthy (qrImage (st (core c))) = true -> modelLoaded c = true.
Proof.
  intros H Hq. destruct (modelLoaded c) eqn:E; [reflexivity|].
  apply H in E. destruct E as (_ & E & _). congruence.
Qed.

Lemma EInv_step (c : Component) (e : Event) :
  EInv c -> EInv (step c e).
Proof.
  intros H. unfold step.
  destruct (mounted (core c)) eqn:Hmo; [|exact H].
  destruct e; simpl.
  - (* ModelsLoaded *)
    destruct (modelsPending c) eqn:Hmp.
    + pose proof (einv_models _ H Hmp) as Hml.
      destruct (einv_unloaded _ H Hml) as (Hp & Hq & Hl).
      apply EInv_commit; simpl; auto; try discriminate.
      apply SInv_startCamera, SInv_setStatus, H.
    + apply EInv_commit; auto; apply H.
  - (* ModelsFailed *)
    destruct (modelsPending c) eqn:Hmp.
    + pose proof (einv_models _ H Hmp) as Hml.
      apply EInv_commit; simpl; auto; try discriminate.
      * apply SInv_setStatus, H.
      * intros _. now apply H.
    + apply EInv_commit; auto; apply H.
  - (* CameraGranted *)
    destruct (cameraPending (core c)) eqn:Hcp.
    + apply EInv_commit; simpl; auto; try apply H.
      * apply SInv_cameraGranted, H.
      * intros Hml. destruct (cameraGranted_frame tracks (core c))
          as (-> & _ & _ & _ & ->). now apply H.
      * apply cameraGranted_frame.
      * f_equal. apply cameraGranted_frame.
      * apply cameraGranted_frame.
    + apply EInv_commit; auto; apply H.
  - (* CameraDenied *)
    destruct (cameraPending (core c)) eqn:Hcp.
    + apply EInv_commit; simpl; auto; try apply H.
      apply SInv_cameraDenied, H.
    + apply EInv_commit; auto; apply H.
  - (* AnimationFrame *)
    destruct (loop c) as [l|] eqn:Hl.
    + pose proof (EInv_loop_loaded _ _ H Hl) as Hml.
      pose proof (EInv_loaded _ H Hml) as Hmp.
      destruct (detectFaces_models f l c) as [E1 E2].
      pose proof (scanFace_frame (core c)) as
        (Fv & Fc & _ & Fm & _).
      apply EInv_commit; auto; try congruence.
      * destruct (detectFaces_core f l c) as [-> | ->];
          [apply H | apply SInv_enhanced_scanFace, H].
      * destruct (detectFaces_core f l c) as [-> | ->]; congruence.
      * destruct (detectFaces_core f l c) as [-> | ->]; congruence.
      * destruct (detectFaces_core f l c) as [-> | ->]; congruence.
    + apply EInv_commit; auto; apply H.
  - (* BlobReady *)
    destruct (0 <? encoding (core c))%nat eqn:Hen.
    + apply Nat.ltb_lt in Hen.
      assert (modelLoaded c = true) as Hml
        by (apply EInv_pending_loaded; [exact H | unfold pending; lia]).
      apply EInv_commit; simpl; auto; try congruence; try apply H.
      * apply SInv_blobCallback, H. exact Hen.
      * f_equal. apply blobCallback_frame.
      * f_equal. apply blobCallback_frame.
      * apply blobCallback_frame.
    + apply EInv_commit; auto; apply H.
  - (* PostSettled *)
    destruct (0 <? posting (core c))%nat eqn:Hpo.
    + apply Nat.ltb_lt in Hpo.
      assert (modelLoaded c = true) as Hml
        by (apply EInv_pending_loaded; [exact H | unfold pending; lia]).
      apply EInv_commit; simpl; auto; try congruence; try apply H.
      apply SInv_postSettled, H. exact Hpo.
    + apply EInv_commit; auto; apply H.
  - (* ScanAgain *)
    destruct (truthy (qrImage (st (core c)))) eqn:Hq.
    + pose proof (EInv_result_loaded _ H Hq) as Hml.
      apply EInv_commit; simpl; auto; try congruence; try apply H.
      apply SInv_resetScan, H.
    + apply EInv_commit; auto; apply H.
  - (* Unmount *)
    unfold unmount. split; simpl.
    + apply SInv_releaseCamera, H.
    + now apply RefsInv_unmounted.
    + apply H.
    + intros Hml. destruct (einv_unloaded _ H Hml) as (? & ? & ?).
      auto.
Qed.

Lemma EInv_run (es : list Event) (c : Component) :
  EInv c -> EInv (run c es).
Proof.
  revert c. induction es as [|e es IH]; intros c H; simpl; [exact H|].
  apply IH, EInv_step, H.
Qed.

Lemma EInv_reachable (es : list Event) : EInv (run init es).
Proof. apply EInv_run, EInv_init. Qed.

End EnhancedInvariants.

(** ** Invariants of the basic component *)

Section BasicInvariants.

Import Basic.

Lemma basic_commit_core (before after : Component) :
  core (commit before after) = reconcile (st (core before)) (core after).
Proof. unfold commit. now case_match. Qed.

Lemma basic_commit_ticks (before after : Component) :
  ticks (commit before after) = ticks after.
Proof. unfold commit. now case_match. Qed.

Lemma basic_commit_interval (before after : Component) :
  interval (commit before after)
  = if deps_eqb before after then interval after else runEffect after.
Proof.
  unfold commit, runEffect. case_match; simpl; [reflexivity|].
  now rewrite reconcile_st.
Qed.

Lemma deps_eqb_runEffect (a b : Component) :
  deps_eqb a b = true -> runEffect a = runEffect b.
Proof.
  unfold deps_eqb, runEffect. intros H.
  apply andb_prop in H as [H Hs]. apply andb_prop in H as [Hq Hl].
  apply option_string_eqb_eq in Hq. apply Bool.eqb_prop in Hl.
  apply String.eqb_eq in Hs. now rewrite Hq, Hl, Hs.
Qed.

Lemma basic_scanFace_frame (k : Core) :
  videoRef (scanFace k) = videoRef k
  /\ canvasRef (scanFace k) = canvasRef k
  /\ heap (scanFace k) = heap k
  /\ mounted (scanFace k) = mounted k
  /\ cameraPending (scanFace k) = cameraPending k
  /\ posting (scanFace k) = posting k
  /\ requests (scanFace k) = requests k
  /\ qrImage (st (scanFace k)) = qrImage (st k)
  /\ user (st (scanFace k)) = user (st k).
Proof.
  unfold scanFace.
  destruct (loading (st k) || truthy (qrImage (st k)));
    [repeat split; reflexivity|].
  destruct (negb (attached (videoRef k)) || negb (attached (canvasRef k)));
    simpl; repeat split; reflexivity.
Qed.

Lemma BInv_commit (before after : Component) :
  BInv before ->
  SInv (core after) ->
  attached (videoRef (core after)) = attached (videoRef (core before)) ->
  attached (canvasRef (core after)) = attached (canvasRef (core before)) ->
  mounted (core before) = true ->
  mounted (core after) = true ->
  interval after = interval before ->
  BInv (commit before after).
Proof.
  intros Hb Hs Hv Hc Hmb Hma Hi. split.
  - rewrite basic_commit_core. now apply SInv_reconcile.
  - rewrite basic_commit_core. apply RefsInv_reconcile; auto.
    + apply Hb.
    + congruence.
  - rewrite basic_commit_interval, basic_commit_core, reconcile_mounted, Hma.
    simpl. unfold runEffect at 2. rewrite basic_commit_core, reconcile_st.
    fold (runEffect after).
    destruct (deps_eqb before after) eqn:E; [|reflexivity].
    rewrite Hi, (binv_interval _ Hb), Hmb. simpl.
    now apply deps_eqb_runEffect.
Qed.

Lemma BInv_init : BInv init.
Proof.
  split; [split| |]; cbv; intros; try discriminate; auto.
Qed.

Lemma BInv_step (c : Component) (e : Event) : BInv c -> BInv (step c e).
Proof.
  intros H. unfold step.
  destruct (mounted (core c)) eqn:Hmo; [|exact H].
  destruct e; simpl.
  - (* CameraGranted *)
    destruct (cameraPending (core c)) eqn:Hcp.
    + destruct (cameraGranted_frame tracks (core c))
        as (_ & Fv & Fc & Fm & _).
      apply BInv_commit; simpl; auto; try congruence.
      apply SInv_cameraGranted, H.
    + apply BInv_commit; auto; apply H.
  - (* CameraDenied *)
    destruct (cameraPending (core c)) eqn:Hcp.
    + apply BInv_commit; simpl; auto. apply SInv_cameraDenied, H.
    + apply BInv_commit; auto; apply H.
  - (* Tick *)
    destruct (interval c) eqn:Hi.
    + pose proof (basic_scanFace_frame (core c)) as (Fv & Fc & _ & Fm & _).
      apply BInv_commit; simpl; auto; try congruence.
      apply SInv_basic_scanFace, H.
    + apply BInv_commit; auto; apply H.
  - (* BlobReady *)
    destruct (0 <? encoding (core c))%nat eqn:Hen.
    + apply Nat.ltb_lt in Hen.
      pose proof (blobCallback_frame blob (core c)) as (Fv & Fc & _ & Fm & _).
      apply BInv_commit; simpl; auto; try congruence.
      apply SInv_blobCallback, H. exact Hen.
    + apply BInv_commit; auto; apply H.
  - (* PostSettled *)
    destruct (0 <? posting (core c))%nat eqn:Hpo.
    + apply Nat.ltb_lt in Hpo.
      apply BInv_commit; simpl; auto. apply SInv_postSettled, H. exact Hpo.
    + apply BInv_commit; auto; apply H.
  - (* ScanAgain *)
    destruct (truthy (qrImage (st (core c)))) eqn:Hq.
    + apply BInv_commit; simpl; auto. apply SInv_resetScan, H.
    + apply BInv_commit; auto; apply H.
  - (* Unmount *)
    unfold unmount. split; simpl.
    + apply SInv_releaseCamera, H.
    + now apply RefsInv_unmounted.
    + reflexivity.
Qed.

Lemma BInv_run (es : list Event) (c : Component) :
  BInv c -> BInv (run c es).
Proof.
  revert c. induction es as [|e es IH]; intros c H; simpl; [exact H|].
  apply IH, BInv_step, H.
Qed.

Lemma BInv_reachable (es : list Event) : BInv (run init es).
Proof. apply BInv_run, BInv_init. Qed.

End BasicInvariants.

(** ** The stability window of the enhanced loop *)

Section Stability.

Import Enhanced.

Lemma handle_loop (e : Event) (c : Component) :
  (forall f, e <> AnimationFrame f) -> loop (handle e c) = loop c.
Proof.
  intros He. destruct e; simpl; try (now case_match).
  - now destruct (He f).
  - reflexivity.
Qed.

Lemma handle_triggers (e : Event) (c : Component) :
  (forall f, e <> AnimationFrame f) -> triggers (handle e c) = triggers c.
Proof.
  intros He. destruct e; simpl; try (now case_match).
  - now destruct (He f).
  - reflexivity.
Qed.

Lemma streak_other (e : Event) (hist : list Event) :
  (forall f, e <> AnimationFrame f) -> streak (e :: hist) = streak hist.
Proof.
  intros He. destruct e; try reflexivity. now destruct (He f).
Qed.

Lemma detectFaces_videoRef (f : Frame) (l : Loop) (c : Component) :
  videoRef (core (detectFaces f l c)) = videoRef (core c).
Proof.
  destruct (detectFaces_core f l c) as [-> | ->]; [reflexivity|].
  apply scanFace_frame.
Qed.

(** No handler takes the stream away from the video element. *)
Lemma handle_keeps_stream (e : Event) (c : Component) :
  hasStream (videoRef (core c)) = true ->
  hasStream (videoRef (core (handle e c))) = true.
Proof.
  intros H. destruct e; simpl handle; try (case_match; exact H).
  - case_match; [|exact H]. simpl. unfold cameraGranted.
    destruct (videoRef (core c)); [reflexivity | discriminate H].
  - destruct (loop c); [|exact H]. now rewrite detectFaces_videoRef.
  - case_match; [|exact H]. simpl.
    destruct (blobCallback_frame blob (core c)) as (-> & _). exact H.
  - exact H.
Qed.

Lemma deps_eqb_core (before after : Component) :
  deps_eqb before after = true ->
  core (commit before after) = core after.
Proof.
  intros E. rewrite commit_core. unfold deps_eqb in E.
  apply andb_prop in E as [E _]. apply andb_prop in E as [E _].
  apply andb_prop in E as [_ E]. apply option_string_eqb_eq in E.
  unfold reconcile. rewrite E.
  now destruct (truthy (qrImage (st (core after)))).
Qed.

Lemma detectFaces_tracking (f : Frame) (l : Loop) (c : Component)
    (hist : list Event) :
  loop c = Some l ->
  Tracked (Some l) hist ->
  (hasStream (videoRef (core c)) = false -> firstDetectionTime l = 0%Z) ->
  Tracked (loop (detectFaces f l c)) (AnimationFrame f :: hist)
  /\ (hasStream (videoRef (core c)) = false ->
      forall l', loop (detectFaces f l c) = Some l' ->
                 firstDetectionTime l' = 0%Z).
Proof.
  intros Hl Hfd Hun. specialize (Hfd l eq_refl).
  unfold detectFaces, Tracked. simpl streak.
  destruct (negb (attached (videoRef (core c)))
            || negb (attached (canvasRef (core c)))
            || negb (modelLoaded c)
            || truthy (qrImage (st (core c))));
    [split; [|intros _]; intros l'; discriminate|].
  destruct (hasStream (videoRef (core c))) eqn:Hs.
  2:{ rewrite andb_false_r. simpl. rewrite Hl.
      split; [|intros _]; intros l' [= <-]; [|now apply Hun].
      left. now apply Hun. }
  rewrite andb_true_r. split; [|discriminate].
  intros l'. destruct (playing f); simpl.
  2:{ rewrite Hl. intros [= <-]. exact Hfd. }
  destruct (0 <? faces f)%nat; simpl.
  2:{ intros [= <-]. now left. }
  match goal with
  | |- context [if ?b then mkComponent _ _ _ _ _ else _] => destruct b
  end; simpl; intros [= <-]; simpl.
  - now left.
  - destruct (firstDetectionTime l =? 0)%Z eqn:E.
    + right. now left.
    + destruct Hfd as [Hfd|Hfd]; [apply Z.eqb_neq in E; contradiction|].
      right. now right.
Qed.

Lemma tracked_commit (before after : Component) (hist : list Event) :
  Tracked (loop after) hist -> Tracked (loop (commit before after)) hist.
Proof.
  intros H l. rewrite commit_loop.
  destruct (deps_eqb before after); [apply H|].
  case_match; intros [= <-]. now left.
Qed.

Lemma unset_commit (before after : Component) :
  (hasStream (videoRef (core after)) = false ->
   forall l, loop after = Some l -> firstDetectionTime l = 0%Z) ->
  hasStream (videoRef (core (commit before after))) = false ->
  forall l, loop (commit before after) = Some l ->
            firstDetectionTime l = 0%Z.
Proof.
  intros H Hs l. rewrite commit_loop.
  destruct (deps_eqb before after) eqn:E.
  - rewrite (deps_eqb_core _ _ E) in Hs. now apply H.
  - case_match; intros [= <-]. reflexivity.
Qed.

Lemma tracked_other (c : Component) (e : Event) (hist : list Event) :
  (forall f, e <> AnimationFrame f) ->
  Tracked (loop c) hist ->
  Tracked (loop (commit c (handle e c))) (e :: hist).
Proof.
  intros He H. apply tracked_commit. unfold Tracked.
  rewrite handle_loop, streak_other by exact He. exact H.
Qed.

Lemma unset_other (c : Component) (e : Event) :
  (forall f, e <> AnimationFrame f) ->
  (hasStream (videoRef (core c)) = false ->
   forall l, loop c = Some l -> firstDetectionTime l = 0%Z) ->
  hasStream (videoRef (core (commit c (handle e c)))) = false ->
  forall l, loop (commit c (handle e c)) = Some l ->
            firstDetectionTime l = 0%Z.
Proof.
  intros He H. apply unset_commit. rewrite handle_loop by exact He.
  intros Hs. apply H.
  destruct (hasStream (videoRef (core c))) eqn:E; [|reflexivity].
  rewrite (handle_keeps_stream e c E) in Hs. discriminate Hs.
Qed.

Lemma tracking_step (c : Component) (e : Event) (hist : list Event) :
  Tracking c hist -> Tracking (step c e) (e :: hist).
Proof.
  intros H. unfold Tracking, step.
  destruct (mounted (core c)) eqn:Hmo; [|congruence].
  destruct (H Hmo) as [H1 H2]. intros _.
  destruct e; cbv beta iota;
    try (split; [apply tracked_other | apply unset_other];
         solve [intros; discriminate | assumption]).
  - simpl handle. destruct (loop c) as [l|] eqn:Hl.
    + destruct (detectFaces_tracking f l c hist Hl) as [T1 T2].
      * exact H1.
      * intros Hs. now apply H2.
      * split; [now apply tracked_commit|].
        apply unset_commit. rewrite detectFaces_videoRef. exact T2.
    + split.
      * apply tracked_commit. rewrite Hl. intros l. discriminate.
      * apply unset_commit. rewrite Hl. intros _ l. discriminate.
  - split; [|intros _]; intros l; discriminate.
Qed.

Lemma tracking_run (es : list Event) (c : Component) (hist : list Event) :
  Tracking c hist -> Tracking (run c es) (rev es ++ hist).
Proof.
  revert c hist. induction es as [|e es IH]; intros c hist H; simpl.
  - exact H.
  - rewrite <- app_assoc. simpl. apply IH, tracking_step, H.
Qed.

(** When a frame makes [detectFaces] call [scanFace], the stability timer
    was set more than [DETECTION_STABILITY_DELAY] before. *)
Lemma trigger_needs_window (c : Component) (f : Frame) :
  triggers (step c (AnimationFrame f)) <> triggers c ->
  mounted (core c) = true
  /\ exists l, loop c = Some l
     /\ firstDetectionTime l <> 0%Z
     /\ (now f - firstDetectionTime l > DETECTION_STABILITY_DELAY)%Z
     /\ triggers (step c (AnimationFrame f)) = now f :: triggers c.
Proof.
  unfold step. destruct (mounted (core c)); [|congruence].
  rewrite commit_triggers. simpl handle.
  destruct (loop c) as [l|]; [|congruence].
  unfold detectFaces.
  destruct (negb (attached (videoRef (core c)))
            || negb (attached (canvasRef (core c)))
            || negb (modelLoaded c)
            || truthy (qrImage (st (core c)))); simpl; [congruence|].
  destruct (playing f && hasStream (videoRef (core c))); simpl;
    [|congruence].
  destruct (0 <? faces f)%nat; simpl; [|congruence].
  match goal with
  | |- context [if ?b then mkComponent _ _ _ _ _ else _] =>
      destruct b eqn:Hc
  end; simpl; [|congruence].
  intros _. split; [reflexivity|]. exists l.
  apply andb_prop in Hc as [Hc _]. apply andb_prop in Hc as [Hc _].
  apply andb_prop in Hc as [Hc _]. apply Z.gtb_lt in Hc.
  unfold DETECTION_STABILITY_DELAY in *.
  destruct (firstDetectionTime l =? 0)%Z eqn:E.
  - lia.
  - apply Z.eqb_neq in E. repeat split; auto. lia.
Qed.

(** Every capture is preceded by a run of frames with a face that spans
    more than the stability window. *)
Lemma trigger_after_stable_window (c : Component) (es : list Event)
    (f : Frame) :
  Tracking c [] ->
  triggers (step (run c es) (AnimationFrame f)) <> triggers (run c es) ->
  exists t0, In t0 (streak (rev es))
    /\ (now f - t0 > DETECTION_STABILITY_DELAY)%Z.
Proof.
  intros H Ht.
  apply trigger_needs_window in Ht as (Hmo & l & Hl & Hne & Hgt & _).
  pose proof (tracking_run es c [] H) as Hk.
  rewrite app_nil_r in Hk.
  destruct (Hk Hmo) as [Hk1 _].
  destruct (Hk1 l Hl) as [H0|H0]; [contradiction|].
  exists (firstDetectionTime l). auto.
Qed.

End Stability.

(** ** Single steps of the enhanced component *)

Section EnhancedSteps.

Import Enhanced.

Lemma reconcile_unchanged (shown : State) (k : Core) :
  truthy (qrImage shown) = truthy (qrImage (st k)) -> reconcile shown k = k.
Proof.
  unfold reconcile. intros ->. now destruct (truthy (qrImage (st k))).
Qed.

Lemma deps_eqb_same (a b : Component) :
  modelLoaded a = modelLoaded b -> st (core a) = st (core b) ->
  deps_eqb a b = true.
Proof.
  intros Hm Hs. unfold deps_eqb. rewrite Hm, Hs.
  rewrite !Bool.eqb_reflx, String.eqb_refl.
  replace (option_string_eqb _ _) with true; [reflexivity|].
  symmetry. now apply option_string_eqb_eq.
Qed.

Lemma commit_self (c : Enhanced.Component) : Enhanced.commit c c = c.
Proof.
  unfold Enhanced.commit. rewrite deps_eqb_same by reflexivity.
  destruct c as [k ml mp lp tg]. unfold Enhanced.with_core. simpl.
  now rewrite reconcile_same.
Qed.

Lemma deps_eqb_loading (a b : Component) :
  loading (st (core a)) <> loading (st (core b)) -> deps_eqb a b = false.
Proof.
  intros H. unfold deps_eqb.
  destruct (Bool.eqb (loading (st (core a))) (loading (st (core b)))) eqn:E.
  - apply Bool.eqb_prop in E. contradiction.
  - now rewrite andb_false_r.
Qed.

Lemma deps_eqb_qrImage (a b : Component) :
  qrImage (st (core a)) <> qrImage (st (core b)) -> deps_eqb a b = false.
Proof.
  intros H. unfold deps_eqb.
  destruct (option_string_eqb (qrImage (st (core a)))
              (qrImage (st (core b)))) eqn:E.
  - apply option_string_eqb_eq in E. contradiction.
  - now rewrite andb_false_r.
Qed.

Lemma deps_eqb_status (a b : Component) :
  status (st (core a)) <> status (st (core b)) -> deps_eqb a b = false.
Proof.
  intros H. unfold deps_eqb.
  destruct (String.eqb_spec (status (st (core a))) (status (st (core b)))).
  - contradiction.
  - now rewrite andb_false_r.
Qed.

Lemma detecting_guard (c : Component) :
  detecting c ->
  negb (attached (videoRef (core c)))
  || negb (attached (canvasRef (core c)))
  || negb (modelLoaded c)
  || truthy (qrImage (st (core c))) = false.
Proof. intros (_ & -> & -> & -> & -> & _). reflexivity. Qed.

Lemma detecting_stream (c : Component) :
  detecting c -> hasStream (videoRef (core c)) = true.
Proof. now intros (_ & _ & _ & _ & _ & H). Qed.

(** A frame without a face: the stability timer is cleared. *)
Lemma step_frame_noface (c : Component) (l : Loop) (t : Z) :
  detecting c -> loop c = Some l ->
  let c' := step c (seen 0 t) in
  core c' = core c
  /\ modelLoaded c' = modelLoaded c
  /\ loop c' = Some (mkLoop (lastScanTime l) 0)
  /\ triggers c' = triggers c.
Proof.
  intros Hd Hl. pose proof (detecting_guard c Hd) as Hg.
  pose proof (detecting_stream c Hd) as Hst.
  destruct Hd as (Hmo & _). unfold step, seen. rewrite Hmo.
  simpl handle. rewrite Hl. unfold detectFaces. rewrite Hg, Hst. simpl.
  rewrite commit_core, commit_modelLoaded, commit_loop, commit_triggers.
  simpl. rewrite deps_eqb_same by reflexivity.
  rewrite reconcile_same. auto.
Qed.

(** A frame with a face that does not capture: the timer is started if
    it was not running. *)
Lemma step_frame_track (c : Component) (l : Loop) (n : nat) (t : Z) :
  detecting c -> loop c = Some l ->
  (0 < n)%nat ->
  firstDetectionTime l = 0%Z
  \/ (t - firstDetectionTime l <= DETECTION_STABILITY_DELAY)%Z ->
  let c' := step c (seen n t) in
  core c' = core c
  /\ modelLoaded c' = modelLoaded c
  /\ loop c'
     = Some (mkLoop (lastScanTime l)
               (if (firstDetectionTime l =? 0)%Z then t
                else firstDetectionTime l))
  /\ triggers c' = triggers c.
Proof.
  intros Hd Hl Hn Hw. pose proof (detecting_guard c Hd) as Hg.
  pose proof (detecting_stream c Hd) as Hst.
  destruct Hd as (Hmo & _). unfold step, seen. rewrite Hmo.
  simpl handle. rewrite Hl. unfold detectFaces. rewrite Hg, Hst. simpl.
  apply Nat.ltb_lt in Hn. rewrite Hn.
  assert ((t - (if (firstDetectionTime l =? 0)%Z then t
                else firstDetectionTime l)
           >? DETECTION_STABILITY_DELAY)%Z = false) as ->.
  { rewrite Z.gtb_ltb. apply Z.ltb_ge.
    unfold DETECTION_STABILITY_DELAY in *.
    destruct (Z.eqb_spec (firstDetectionTime l) 0); lia. }
  simpl.
  rewrite commit_core, commit_modelLoaded, commit_loop, commit_triggers.
  simpl. rewrite deps_eqb_same by reflexivity.
  rewrite reconcile_same. auto.
Qed.

(** A frame with a face that captures: [scanFace] runs, and since it
    passes its guard the detection effect is run again. *)
Lemma step_frame_trigger (c : Component) (l : Loop) (n : nat) (t : Z) :
  detecting c -> loop c = Some l ->
  (0 < n)%nat ->
  firstDetectionTime l <> 0%Z ->
  (t - firstDetectionTime l > DETECTION_STABILITY_DELAY)%Z ->
  loading (st (core c)) = false ->
  status (st (core c)) <> STATUS_QR_GENERATED ->
  (t - lastScanTime l > SCAN_COOLDOWN)%Z ->
  let c' := step c (seen n t) in
  core c' = scanFace (core c)
  /\ modelLoaded c' = modelLoaded c
  /\ loop c' = Some (mkLoop 0 0)
  /\ triggers c' = t :: triggers c.
Proof.
  intros Hd Hl Hn Hf Hw Hld Hs Hc. pose proof (detecting_guard c Hd) as Hg.
  pose proof (detecting_stream c Hd) as Hst.
  destruct Hd as (Hmo & Hv & _ & Hml & Hq & _). unfold step, seen.
  rewrite Hmo.
  simpl handle. rewrite Hl. unfold detectFaces. rewrite Hg, Hst. simpl.
  apply Nat.ltb_lt in Hn. rewrite Hn.
  apply Z.eqb_neq in Hf. rewrite Hf.
  apply Z.gt_lt, Z.gtb_lt in Hw, Hc. rewrite Hw, Hc, Hld.
  apply String.eqb_neq in Hs. rewrite Hs. simpl.
  rewrite commit_core, commit_modelLoaded, commit_loop, commit_triggers.
  simpl.
  pose proof (scanFace_frame (core c)) as (_ & _ & _ & _ & _ & _ & _ & Fq & _).
  rewrite Fq, Hml, Hq. simpl.
  rewrite reconcile_unchanged by now rewrite Fq.
  rewrite deps_eqb_loading; [auto|].
  simpl. unfold scanFace. rewrite Hld, Hq. simpl.
  destruct (videoRef (core c)); simpl; congruence.
Qed.

(** What a call of [scanFace] that passes the guard leaves behind. *)
Lemma scanFace_passes (k : Core) :
  loading (st k) = false -> truthy (qrImage (st k)) = false ->
  attached (videoRef k) = true ->
  st (scanFace k)
  = setStatus STATUS_SCANNING (setLoading true (st k))
  /\ encoding (scanFace k) = S (encoding k).
Proof.
  intros Hl Hq Hv. unfold scanFace. rewrite Hl, Hq. simpl.
  destruct (videoRef k); [auto|discriminate].
Qed.

(** A freshly started loop captures on the second of two frames with a
    face that are more than the stability window apart. *)
Lemma armed_loop_fires (c : Component) (n1 n2 : nat) (t1 t2 : Z) :
  detecting c ->
  loop c = Some (mkLoop 0 0) ->
  loading (st (core c)) = false ->
  status (st (core c)) <> STATUS_QR_GENERATED ->
  (0 < n1)%nat -> (0 < n2)%nat ->
  t1 <> 0%Z ->
  (t2 - t1 > DETECTION_STABILITY_DELAY)%Z ->
  (t2 > SCAN_COOLDOWN)%Z ->
  let c2 := run c [seen n1 t1; seen n2 t2] in
  triggers c2 = t2 :: triggers c
  /\ loading (st (core c2)) = true
  /\ status (st (core c2)) = STATUS_SCANNING
  /\ encoding (core c2) = S (encoding (core c))
  /\ requests (core c2) = requests (core c).
Proof.
  intros Hd Hl Hld Hs Hn1 Hn2 Ht1 Hw Hc. simpl.
  destruct (step_frame_track c _ n1 t1 Hd Hl Hn1 (or_introl eq_refl))
    as (Ek & Em & El & Et).
  simpl in El.
  assert (detecting (step c (seen n1 t1))) as Hd1.
  { unfold detecting in *. rewrite Ek, Em. exact Hd. }
  destruct (step_frame_trigger _ _ n2 t2 Hd1 El Hn2) as (Ek2 & _ & _ & Et2);
    simpl; rewrite ?Ek; auto; try lia.
  destruct Hd as (_ & Hv & _ & _ & Hq & _).
  destruct (scanFace_passes (core c) Hld Hq Hv) as (Es & Ee).
  pose proof (scanFace_frame (core c)) as (_ & _ & _ & _ & _ & _ & Fr & _).
  rewrite Ek2, Et2, Et, Ek, Es, Ee, Fr. auto.
Qed.

End EnhancedSteps.

(** ** Single steps of the basic component *)

Section BasicSteps.

Import Basic.

Lemma basic_deps_eqb_same (a b : Component) :
  st (core a) = st (core b) -> deps_eqb a b = true.
Proof.
  intros Hs. unfold deps_eqb. rewrite Hs.
  rewrite Bool.eqb_reflx, String.eqb_refl.
  replace (option_string_eqb _ _) with true; [reflexivity|].
  symmetry. now apply option_string_eqb_eq.
Qed.

Lemma basic_deps_eqb_loading (a b : Component) :
  loading (st (core a)) <> loading (st (core b)) -> deps_eqb a b = false.
Proof.
  intros H. unfold deps_eqb.
  destruct (Bool.eqb (loading (st (core a))) (loading (st (core b)))) eqn:E.
  - apply Bool.eqb_prop in E. contradiction.
  - now rewrite andb_false_r.
Qed.

Lemma basic_deps_eqb_qrImage (a b : Component) :
  qrImage (st (core a)) <> qrImage (st (core b)) -> deps_eqb a b = false.
Proof.
  intros H. unfold deps_eqb.
  destruct (option_string_eqb (qrImage (st (core a)))
              (qrImage (st (core b)))) eqn:E.
  - apply option_string_eqb_eq in E. contradiction.
  - reflexivity.
Qed.

(** A commit after a handler that left React state alone. *)
Lemma basic_commit_quiet (c c' : Component) :
  st (core c') = st (core c) ->
  core (commit c c') = core c'
  /\ interval (commit c c') = interval c'
  /\ ticks (commit c c') = ticks c'.
Proof.
  intros Hs.
  rewrite basic_commit_core, basic_commit_interval, basic_commit_ticks.
  rewrite basic_deps_eqb_same by congruence.
  rewrite reconcile_unchanged by congruence. auto.
Qed.

End BasicSteps.

(** ** The cooldown between two captures *)

(** From the first render on, every capture is preceded by a run of frames
    with a face that spans more than the stability window. *)
Lemma capture_needs_stable_window (es : list Enhanced.Event)
    (f : Enhanced.Frame) :
  Enhanced.triggers
    (Enhanced.step (Enhanced.run Enhanced.init es) (Enhanced.AnimationFrame f))
  <> Enhanced.triggers (Enhanced.run Enhanced.init es) ->
  exists t0,
    In t0 (streak (rev es))
    /\ (Enhanced.now f - t0 > Enhanced.DETECTION_STABILITY_DELAY)%Z.
Proof.
  apply trigger_after_stable_window.
  intros _. split; [|intros _]; intros l Hl; discriminate Hl.
Qed.

(** A frame leaves [lastScanTime] at 0 in the loop that survives the
    commit: the one assignment to it is followed by [scanFace], whose
    [setLoading(true)] makes the commit start a new effect. *)
Lemma frame_keeps_cooldown_unset (c : Enhanced.Component)
    (f : Enhanced.Frame) (l : Enhanced.Loop) :
  Enhanced.loop c = Some l ->
  Enhanced.lastScanTime l = 0%Z ->
  forall l',
    Enhanced.loop (Enhanced.commit c (Enhanced.detectFaces f l c)) = Some l' ->
    Enhanced.lastScanTime l' = 0%Z.
Proof.
  intros Hl H0 l'. rewrite commit_loop.
  destruct (Enhanced.deps_eqb c (Enhanced.detectFaces f l c)) eqn:E.
  2:{ case_match; [|discriminate]. now intros [= <-]. }
  revert E. unfold Enhanced.detectFaces.
  destruct (negb (attached (videoRef (Enhanced.core c)))
            || negb (attached (canvasRef (Enhanced.core c)))
            || negb (Enhanced.modelLoaded c)
            || truthy (qrImage (st (Enhanced.core c)))) eqn:Hg;
    [discriminate|].
  destruct (Enhanced.playing f && hasStream (videoRef (Enhanced.core c)));
    simpl.
  2:{ intros _. rewrite Hl. now intros [= <-]. }
  destruct (0 <? Enhanced.faces f)%nat; simpl.
  2:{ intros _ [= <-]. exact H0. }
  match goal with
  | |- context [if ?b then Enhanced.mkComponent _ _ _ _ _ else _] =>
      destruct b eqn:Hc
  end; simpl.
  2:{ intros _ [= <-]. exact H0. }
  intros E. exfalso.
  apply orb_false_elim in Hg as [_ Hq].
  apply andb_prop in Hc as [Hc _]. apply andb_prop in Hc as [Hc _].
  apply andb_prop in Hc as [_ Hld]. apply negb_true_iff in Hld.
  rewrite deps_eqb_loading in E; [discriminate|].
  simpl. unfold Enhanced.scanFace. rewrite Hld, Hq. simpl.
  destruct (videoRef (Enhanced.core c)); simpl; congruence.
Qed.

(** In every reachable component the cooldown variable of the live loop is
    0: the test [now - lastScanTime > SCAN_COOLDOWN] never sees the time of
    a capture. *)
Lemma lastScanTime_always_zero (es : list Enhanced.Event) (l : Enhanced.Loop) :
  Enhanced.loop (Enhanced.run Enhanced.init es) = Some l ->
  Enhanced.lastScanTime l = 0%Z.
Proof.
  assert (forall c,
             (forall l, Enhanced.loop c = Some l ->
                        Enhanced.lastScanTime l = 0%Z) ->
             forall es l, Enhanced.loop (Enhanced.run c es) = Some l ->
                          Enhanced.lastScanTime l = 0%Z) as Hrun.
  { intros c Hc es0. revert c Hc.
    induction es0 as [|e es0 IH]; intros c Hc; simpl; [exact Hc|].
    apply IH. intros l0. unfold Enhanced.step.
    destruct (mounted (Enhanced.core c)); [|apply Hc].
    destruct e; cbv beta iota;
      try (rewrite commit_loop, handle_loop by (intros; discriminate);
           case_match; [apply Hc|];
           case_match; [|discriminate]; now intros [= <-]).
    - simpl Enhanced.handle.
      destruct (Enhanced.loop c) as [l1|] eqn:Hl1.
      + apply (frame_keeps_cooldown_unset c f l1 Hl1 (Hc l1 eq_refl)).
      + rewrite commit_loop, Hl1.
        case_match; [discriminate|].
        case_match; [|discriminate]. now intros [= <-].
    - discriminate. }
  apply Hrun. discriminate.
Qed.

(** C1.  The claim: in the enhanced variant a capture happens only after
    more than 1000 ms of uninterrupted detection, and two consecutive
    captures are never less than 3000 ms apart.  The first half holds
    ([capture_needs_stable_window]).  The second half fails on the code:
    in the run [two_captures] the component captures at 11001 and again at
    12201, 1200 ms later, and sends two requests.  The variable that
    should hold the time of the last capture never does
    ([lastScanTime_always_zero]). *)
Theorem cooldown_lost_between_captures :
  let c := Enhanced.run Enhanced.init two_captures in
  Enhanced.triggers c = [12201; 11001]%Z
  /\ (12201 - 11001 < Enhanced.SCAN_COOLDOWN)%Z
  /\ requests
       (Enhanced.core (Enhanced.run c [Enhanced.BlobReady (Some JpegBlob)]))
     = 2%nat.
Proof. vm_compute. repeat split; reflexivity. Qed.

(** ** The re-entrancy guard *)

Lemma enhanced_scanFace_blocked (k : Core) :
  loading (st k) || truthy (qrImage (st k)) = true -> Enhanced.scanFace k = k.
Proof. intros E. unfold Enhanced.scanFace. now rewrite E. Qed.

Lemma basic_scanFace_blocked (k : Core) :
  loading (st k) || truthy (qrImage (st k)) = true -> Basic.scanFace k = k.
Proof. intros E. unfold Basic.scanFace. now rewrite E. Qed.

Lemma enhanced_scanFace_once (k : Core) :
  Enhanced.scanFace (Enhanced.scanFace k) = Enhanced.scanFace k.
Proof.
  apply enhanced_scanFace_blocked. unfold Enhanced.scanFace.
  destruct (loading (st k) || truthy (qrImage (st k))) eqn:E; [exact E|].
  destruct (videoRef k); reflexivity.
Qed.

Lemma basic_scanFace_once (k : Core) :
  Basic.scanFace (Basic.scanFace k) = Basic.scanFace k.
Proof.
  apply basic_scanFace_blocked. unfold Basic.scanFace.
  destruct (loading (st k) || truthy (qrImage (st k))) eqn:E; [exact E|].
  destruct (negb (attached (videoRef k)) || negb (attached (canvasRef k)));
    reflexivity.
Qed.

(** ** A frame that cannot be encoded *)

(** C10.  When [toBlob] hands [null] to the callback of a call that passed
    the guard, [loading] is false again, no request has been sent, the
    status is still "Scanning face...", and the stored result and user are
    untouched; in both variants. *)
Theorem null_blob_leaves_scanning (k : Core) :
  loading (st k) = false ->
  truthy (qrImage (st k)) = false ->
  attached (videoRef k) = true ->
  let e := blobCallback None (Enhanced.scanFace k) in
  (loading (st e) = false
   /\ status (st e) = STATUS_SCANNING
   /\ requests e = requests k /\ posting e = posting k
   /\ encoding e = encoding k
   /\ qrImage (st e) = qrImage (st k) /\ user (st e) = user (st k))
  /\ (attached (canvasRef k) = true ->
      let b := blobCallback None (Basic.scanFace k) in
      loading (st b) = false
      /\ status (st b) = STATUS_SCANNING
      /\ requests b = requests k /\ posting b = posting k
      /\ encoding b = encoding k
      /\ qrImage (st b) = qrImage (st k) /\ user (st b) = user (st k)).
Proof.
  intros Hl Hq Hv. split.
  - unfold Enhanced.scanFace. rewrite Hl, Hq. simpl.
    destruct (videoRef k); [|discriminate]. simpl. repeat split; reflexivity.
  - intros Hc. unfold Basic.scanFace. rewrite Hl, Hq, Hv, Hc. simpl.
    repeat split; reflexivity.
Qed.

Lemma null_blob_leaves_scanning_witness :
  let k := Enhanced.core
             (Enhanced.run Enhanced.init
                [Enhanced.ModelsLoaded; Enhanced.CameraGranted [Live]]) in
  let e := blobCallback None (Enhanced.scanFace k) in
  let b := blobCallback None (Basic.scanFace k) in
  status (st k) = STATUS_IDLE
  /\ loading (st e) = false /\ status (st e) = STATUS_SCANNING
  /\ requests e = 0%nat
  /\ loading (st b) = false /\ status (st b) = STATUS_SCANNING
  /\ requests b = 0%nat.
Proof.
  pose proof (null_blob_leaves_scanning
                (Enhanced.core
                   (Enhanced.run Enhanced.init
                      [Enhanced.ModelsLoaded; Enhanced.CameraGranted [Live]]))
                eq_refl eq_refl eq_refl) as ((E1 & E2 & E3 & _) & HB).
  destruct (HB eq_refl) as (B1 & B2 & B3 & _).
  split; [reflexivity|].
  split; [exact E1|]. split; [exact E2|]. split; [exact E3|].
  split; [exact B1|]. split; [exact B2 | exact B3].
Defined.

(** ** After a successful submission *)

Section Halting.

Lemma commit_quiet (c c' : Enhanced.Component) :
  st (Enhanced.core c') = st (Enhanced.core c) ->
  Enhanced.modelLoaded c' = Enhanced.modelLoaded c ->
  Enhanced.core (Enhanced.commit c c') = Enhanced.core c'
  /\ Enhanced.loop (Enhanced.commit c c') = Enhanced.loop c'.
Proof.
  intros Hs Hm. rewrite commit_core, commit_loop.
  rewrite deps_eqb_same by congruence.
  rewrite reconcile_unchanged by congruence. auto.
Qed.

(** With the success marker as status, [detectFaces] never captures. *)
Lemma detectFaces_halted (f : Enhanced.Frame) (l : Enhanced.Loop)
    (c : Enhanced.Component) :
  status (st (Enhanced.core c)) = STATUS_QR_GENERATED ->
  Enhanced.core (Enhanced.detectFaces f l c) = Enhanced.core c
  /\ Enhanced.triggers (Enhanced.detectFaces f l c) = Enhanced.triggers c
  /\ Enhanced.modelLoaded (Enhanced.detectFaces f l c)
     = Enhanced.modelLoaded c
  /\ Enhanced.modelsPending (Enhanced.detectFaces f l c)
     = Enhanced.modelsPending c.
Proof.
  intros Hs. unfold Enhanced.detectFaces. rewrite Hs, String.eqb_refl.
  simpl. rewrite !andb_false_r. simpl.
  repeat case_match; simpl; auto.
Qed.

Lemma halted_step (c : Enhanced.Component) (e : Enhanced.Event) :
  Halted c -> e <> Enhanced.ScanAgain ->
  Halted (Enhanced.step c e)
  /\ st (Enhanced.core (Enhanced.step c e)) = st (Enhanced.core c)
  /\ requests (Enhanced.core (Enhanced.step c e))
     = requests (Enhanced.core c)
  /\ Enhanced.triggers (Enhanced.step c e) = Enhanced.triggers c.
Proof.
  intros (Hs & Hp & Hm) He. unfold Enhanced.step.
  destruct (mounted (Enhanced.core c)); [|now repeat split].
  unfold pending in Hp.
  assert (encoding (Enhanced.core c) = 0%nat
          /\ posting (Enhanced.core c) = 0%nat) as [Hen Hpo] by lia.
  assert (forall c',
             st (Enhanced.core c') = st (Enhanced.core c) ->
             pending (Enhanced.core c') = pending (Enhanced.core c) ->
             requests (Enhanced.core c') = requests (Enhanced.core c) ->
             Enhanced.modelLoaded c' = Enhanced.modelLoaded c ->
             Enhanced.modelsPending c' = Enhanced.modelsPending c ->
             Enhanced.triggers c' = Enhanced.triggers c ->
             Halted (Enhanced.commit c c')
             /\ st (Enhanced.core (Enhanced.commit c c'))
                = st (Enhanced.core c)
             /\ requests (Enhanced.core (Enhanced.commit c c'))
                = requests (Enhanced.core c)
             /\ Enhanced.triggers (Enhanced.commit c c')
                = Enhanced.triggers c) as Hquiet.
  { intros c' Es Ep Er Eml Emp Et.
    destruct (commit_quiet c c') as [Ec _]; [congruence..|].
    unfold Halted.
    rewrite Ec, commit_modelsPending, commit_triggers, Es, Ep, Er, Emp, Et.
    unfold pending. rewrite Hs, Hen, Hpo, Hm. auto. }
  destruct e; simpl Enhanced.handle;
    rewrite ?Hm, ?Hen, ?Hpo; simpl; try (now apply Hquiet).
  - (* CameraGranted *)
    destruct (cameraPending (Enhanced.core c)); [|now apply Hquiet].
    destruct (cameraGranted_frame tracks (Enhanced.core c))
      as (Es & _ & _ & _ & Ep).
    apply Hquiet; simpl; auto.
    unfold cameraGranted. now destruct (videoRef (Enhanced.core c)).
  - (* CameraDenied *)
    destruct (cameraPending (Enhanced.core c)); now apply Hquiet.
  - (* AnimationFrame *)
    destruct (Enhanced.loop c) as [l|]; [|now apply Hquiet].
    destruct (detectFaces_halted f l c Hs) as (Ek & Et & Eml & Emp).
    apply Hquiet; congruence.
  - (* Unmount *)
    unfold Halted, Enhanced.unmount, pending. simpl.
    rewrite Hs, Hen, Hpo, Hm. auto.
Qed.

Lemma halted_run (es : list Enhanced.Event) (c : Enhanced.Component) :
  Halted c -> ~ In Enhanced.ScanAgain es ->
  st (Enhanced.core (Enhanced.run c es)) = st (Enhanced.core c)
  /\ requests (Enhanced.core (Enhanced.run c es))
     = requests (Enhanced.core c)
  /\ Enhanced.triggers (Enhanced.run c es) = Enhanced.triggers c.
Proof.
  revert c. induction es as [|e es IH]; intros c H Hn; simpl; [auto|].
  assert (e <> Enhanced.ScanAgain) as He
    by (intros ->; apply Hn; now left).
  destruct (halted_step c e H He) as (H1 & Es & Er & Et).
  destruct (IH _ H1) as (Es' & Er' & Et');
    [intros Hin; apply Hn; now right|].
  repeat split; congruence.
Qed.

Lemma basic_halted_step (c : Basic.Component) (e : Basic.Event) :
  BasicHalted c -> e <> Basic.ScanAgain ->
  BasicHalted (Basic.step c e)
  /\ st (Basic.core (Basic.step c e)) = st (Basic.core c)
  /\ requests (Basic.core (Basic.step c e)) = requests (Basic.core c)
  /\ Basic.ticks (Basic.step c e) = Basic.ticks c.
Proof.
  intros (Hs & Hp & Hi) He. unfold Basic.step.
  destruct (mounted (Basic.core c)); [|now repeat split].
  unfold pending in Hp.
  assert (encoding (Basic.core c) = 0%nat
          /\ posting (Basic.core c) = 0%nat) as [Hen Hpo] by lia.
  assert (forall c',
             st (Basic.core c') = st (Basic.core c) ->
             pending (Basic.core c') = pending (Basic.core c) ->
             requests (Basic.core c') = requests (Basic.core c) ->
             Basic.interval c' = Basic.interval c ->
             Basic.ticks c' = Basic.ticks c ->
             BasicHalted (Basic.commit c c')
             /\ st (Basic.core (Basic.commit c c')) = st (Basic.core c)
             /\ requests (Basic.core (Basic.commit c c'))
                = requests (Basic.core c)
             /\ Basic.ticks (Basic.commit c c') = Basic.ticks c)
    as Hquiet.
  { intros c' Es Ep Er Ei Et.
    destruct (basic_commit_quiet c c' Es) as (Ec & Ei' & Et').
    unfold BasicHalted.
    rewrite Ec, Ei', Et', Es, Ep, Er, Ei, Et, Hs, Hi.
    unfold pending. rewrite Hen, Hpo. auto. }
  destruct e; simpl Basic.handle;
    rewrite ?Hi, ?Hen, ?Hpo; simpl; try (now apply Hquiet).
  - destruct (cameraPending (Basic.core c)); [|now apply Hquiet].
    destruct (cameraGranted_frame tracks (Basic.core c))
      as (Es & _ & _ & _ & Ep).
    apply Hquiet; simpl; auto.
    unfold cameraGranted. now destruct (videoRef (Basic.core c)).
  - destruct (cameraPending (Basic.core c)); now apply Hquiet.
  - unfold BasicHalted, Basic.unmount, pending. simpl.
    rewrite Hs, Hen, Hpo. auto.
Qed.

Lemma basic_halted_run (es : list Basic.Event) (c : Basic.Component) :
  BasicHalted c -> ~ In Basic.ScanAgain es ->
  st (Basic.core (Basic.run c es)) = st (Basic.core c)
  /\ requests (Basic.core (Basic.run c es)) = requests (Basic.core c)
  /\ Basic.ticks (Basic.run c es) = Basic.ticks c.
Proof.
  revert c. induction es as [|e es IH]; intros c H Hn; simpl; [auto|].
  assert (e <> Basic.ScanAgain) as He by (intros ->; apply Hn; now left).
  destruct (basic_halted_step c e H He) as (H1 & Es & Er & Et).
  destruct (IH _ H1) as (Es' & Er' & Et');
    [intros Hin; apply Hn; now right|].
  repeat split; congruence.
Qed.

End Halting.

Lemma reconcile_requests (shown : State) (k : Core) :
  requests (reconcile shown k) = requests k.
Proof. unfold reconcile. now repeat case_match. Qed.

(** The step that delivers the settled request, in a reachable component
    with a request in flight. *)
Lemma enhanced_settled_step (es : list Enhanced.Event) (r : PostResult) :
  let c := Enhanced.run Enhanced.init es in
  mounted (Enhanced.core c) = true ->
  (0 < posting (Enhanced.core c))%nat ->
  let c' := Enhanced.step c (Enhanced.PostSettled r) in
  st (Enhanced.core c') = settle_finally r (st (Enhanced.core c))
  /\ pending (Enhanced.core c') = 0%nat
  /\ requests (Enhanced.core c') = requests (Enhanced.core c)
  /\ Enhanced.triggers c' = Enhanced.triggers c
  /\ Enhanced.modelLoaded c' = true
  /\ Enhanced.modelsPending c' = false
  /\ mounted (Enhanced.core c') = true
  /\ loading (st (Enhanced.core c)) = true
  /\ truthy (qrImage (st (Enhanced.core c))) = false
  /\ EInv c'.
Proof.
  intros c Hmo Hpo c'.
  pose proof (EInv_reachable es) as Hinv. fold c in Hinv.
  pose proof (EInv_step c (Enhanced.PostSettled r) Hinv) as Hinv'.
  fold c' in Hinv'.
  assert (pending (Enhanced.core c) = 1%nat
          /\ loading (st (Enhanced.core c)) = true) as [Hp Hld].
  { destruct (sinv_pending _ (einv_state _ Hinv)) as [H0|H1];
      [unfold pending in H0; lia | exact H1]. }
  assert (Enhanced.modelLoaded c = true) as Hml
    by (apply EInv_pending_loaded; [exact Hinv | lia]).
  pose proof (EInv_loaded c Hinv Hml) as Hmp.
  assert (truthy (qrImage (st (Enhanced.core c))) = false) as Hq.
  { destruct (truthy (qrImage (st (Enhanced.core c)))) eqn:E; [|reflexivity].
    apply (sinv_result _ (einv_state _ Hinv)) in E. destruct E; congruence. }
  subst c'. unfold Enhanced.step. rewrite Hmo. simpl Enhanced.handle.
  apply Nat.ltb_lt in Hpo as Hpo'. rewrite Hpo'.
  rewrite commit_core, commit_triggers, commit_modelLoaded,
    commit_modelsPending.
  rewrite reconcile_st, reconcile_pending, reconcile_requests,
    reconcile_mounted.
  unfold Enhanced.step in Hinv'. rewrite Hmo in Hinv'.
  simpl Enhanced.handle in Hinv'. rewrite Hpo' in Hinv'.
  unfold pending in *. simpl.
  repeat match goal with |- _ /\ _ => split end; auto; lia.
Qed.

Lemma basic_settled_step (es : list Basic.Event) (r : PostResult) :
  let c := Basic.run Basic.init es in
  mounted (Basic.core c) = true ->
  (0 < posting (Basic.core c))%nat ->
  let c' := Basic.step c (Basic.PostSettled r) in
  st (Basic.core c') = settle_finally r (st (Basic.core c))
  /\ pending (Basic.core c') = 0%nat
  /\ requests (Basic.core c') = requests (Basic.core c)
  /\ Basic.ticks c' = Basic.ticks c
  /\ mounted (Basic.core c') = true
  /\ loading (st (Basic.core c)) = true
  /\ truthy (qrImage (st (Basic.core c))) = false
  /\ BInv c'.
Proof.
  intros c Hmo Hpo c'.
  pose proof (BInv_reachable es) as Hinv. fold c in Hinv.
  pose proof (BInv_step c (Basic.PostSettled r) Hinv) as Hinv'.
  fold c' in Hinv'.
  assert (pending (Basic.core c) = 1%nat
          /\ loading (st (Basic.core c)) = true) as [Hp Hld].
  { destruct (sinv_pending _ (binv_state _ Hinv)) as [H0|H1];
      [unfold pending in H0; lia | exact H1]. }
  assert (truthy (qrImage (st (Basic.core c))) = false) as Hq.
  { destruct (truthy (qrImage (st (Basic.core c)))) eqn:E; [|reflexivity].
    apply (sinv_result _ (binv_state _ Hinv)) in E. destruct E; congruence. }
  subst c'. unfold Basic.step. rewrite Hmo. simpl Basic.handle.
  apply Nat.ltb_lt in Hpo as Hpo'. rewrite Hpo'.
  rewrite basic_commit_core, basic_commit_ticks.
  rewrite reconcile_st, reconcile_pending, reconcile_requests,
    reconcile_mounted.
  unfold Basic.step in Hinv'. rewrite Hmo in Hinv'.
  simpl Basic.handle in Hinv'. rewrite Hpo' in Hinv'.
  unfold pending in *. simpl.
  repeat match goal with |- _ /\ _ => split end; auto; lia.
Qed.

(** C3, as stated, fails: the service answers the first capture with
    [success] true and no [data].  Reading [res.data.data.qr_image] throws
    inside the [try] block, the [catch] block shows the fallback status,
    nothing is stored, and without any "Scan Again" the face that stays in
    view is captured a second time and a second request is sent; the basic
    component keeps its timer, whose next tick calls [scanFace] again. *)
Lemma success_without_data_rearms :
  let r := Resolved (mkResData true None None) in
  let c := Enhanced.run Enhanced.init
             (first_capture
              ++ [Enhanced.BlobReady (Some JpegBlob);
                  Enhanced.PostSettled r]) in
  let b := Basic.run Basic.init
             [Basic.CameraGranted [Live]; Basic.Tick;
              Basic.BlobReady (Some JpegBlob); Basic.PostSettled r] in
  success (mkResData true None None) = true
  /\ st (Enhanced.core c) = mkState STATUS_NOT_RECOGNIZED false None None
  /\ Enhanced.triggers c = [11001%Z]
  /\ Enhanced.triggers (Enhanced.run c [seen 1 11200; seen 1 12201])
     = [12201%Z; 11001%Z]
  /\ requests
       (Enhanced.core
          (Enhanced.run c [seen 1 11200; seen 1 12201;
                           Enhanced.BlobReady (Some JpegBlob)]))
     = 2%nat
  /\ st (Basic.core b) = mkState STATUS_NOT_RECOGNIZED false None None
  /\ Basic.interval b = true
  /\ Basic.ticks b = 1%nat
  /\ Basic.ticks (Basic.run b [Basic.Tick]) = 2%nat.
Proof. vm_compute. repeat split; reflexivity. Qed.

(** C3, amended.  When the request of a reachable, mounted component
    settles with [success] true and a [data] payload, the component stores
    the payload's QR image and user, shows the success marker and clears
    [loading]; from
    then on, as long as "Scan Again" is not clicked, whatever happens
    causes no capture and no request and leaves React state as it is.  In
    the enhanced variant captures are the calls of [scanFace] made by
    [detectFaces], in the basic variant those made by the timer. *)
Theorem success_halts_until_reset (p : Payload) (m : option string) :
  let r := Resolved (mkResData true (Some p) m) in
  (forall es,
     let c := Enhanced.run Enhanced.init es in
     mounted (Enhanced.core c) = true ->
     (0 < posting (Enhanced.core c))%nat ->
     let c' := Enhanced.step c (Enhanced.PostSettled r) in
     st (Enhanced.core c')
     = mkState STATUS_QR_GENERATED false (qr_image p) (payload_user p)
     /\ forall es', ~ In Enhanced.ScanAgain es' ->
          Enhanced.triggers (Enhanced.run c' es') = Enhanced.triggers c
          /\ requests (Enhanced.core (Enhanced.run c' es'))
             = requests (Enhanced.core c)
          /\ st (Enhanced.core (Enhanced.run c' es'))
             = st (Enhanced.core c'))
  /\ (forall es,
        let c := Basic.run Basic.init es in
        mounted (Basic.core c) = true ->
        (0 < posting (Basic.core c))%nat ->
        let c' := Basic.step c (Basic.PostSettled r) in
        st (Basic.core c')
        = mkState STATUS_QR_GENERATED false (qr_image p) (payload_user p)
        /\ forall es', ~ In Basic.ScanAgain es' ->
             Basic.ticks (Basic.run c' es') = Basic.ticks c
             /\ requests (Basic.core (Basic.run c' es'))
                = requests (Basic.core c)
             /\ st (Basic.core (Basic.run c' es')) = st (Basic.core c')).
Proof.
  intros r. split; intros es c Hmo Hpo c'.
  - destruct (enhanced_settled_step es r Hmo Hpo)
      as (Es & Ep & Er & Et & _ & Emp & _).
    fold c c' in Es, Ep, Er, Et, Emp.
    split; [rewrite Es; reflexivity|].
    intros es' Hn.
    assert (Halted c') as Hh
      by (unfold Halted; rewrite Es; repeat split; auto).
    destruct (halted_run es' c' Hh Hn) as (Es' & Er' & Et').
    repeat split; congruence.
  - destruct (basic_settled_step es r Hmo Hpo)
      as (Es & Ep & Er & Et & Emo & _ & _ & Hinv).
    fold c c' in Es, Ep, Er, Et, Emo, Hinv.
    split; [rewrite Es; reflexivity|].
    intros es' Hn.
    assert (BasicHalted c') as Hh.
    { unfold BasicHalted. rewrite Es. repeat split; auto.
      rewrite (binv_interval _ Hinv). unfold Basic.runEffect.
      rewrite Es. simpl. now rewrite !andb_false_r. }
    destruct (basic_halted_run es' c' Hh Hn) as (Es' & Er' & Et').
    repeat split; congruence.
Qed.

Lemma success_halts_until_reset_witness :
  let c := Enhanced.run Enhanced.init
             (first_capture ++ [Enhanced.BlobReady (Some JpegBlob)]) in
  let c' := Enhanced.step c (Enhanced.PostSettled accepted) in
  let b := Basic.run Basic.init
             [Basic.CameraGranted [Live]; Basic.Tick;
              Basic.BlobReady (Some JpegBlob)] in
  let b' := Basic.step b (Basic.PostSettled accepted) in
  (mounted (Enhanced.core c) = true /\ (0 < posting (Enhanced.core c))%nat)
  /\ (mounted (Basic.core b) = true /\ (0 < posting (Basic.core b))%nat)
  /\ status (st (Enhanced.core c')) = STATUS_QR_GENERATED
  /\ Enhanced.triggers (Enhanced.run c' [seen 1 20000; seen 1 31000])
     = [11001%Z]
  /\ status (st (Basic.core b')) = STATUS_QR_GENERATED
  /\ Basic.ticks (Basic.run b' [Basic.Tick; Basic.Tick]) = 1%nat.
Proof.
  pose proof (success_halts_until_reset
                (mkPayload (Some "data:image/png;base64,iVBOR") (Some a_user))
                None) as [HE HB].
  specialize (HE (first_capture ++ [Enhanced.BlobReady (Some JpegBlob)])%list).
  specialize (HB [Basic.CameraGranted [Live]; Basic.Tick;
                  Basic.BlobReady (Some JpegBlob)]).
  cbv zeta in HE, HB.
  specialize (HE eq_refl (le_n 1)). specialize (HB eq_refl (le_n 1)).
  destruct HE as [HE1 HE2]. destruct HB as [HB1 HB2].
  specialize (HE2 [seen 1 20000; seen 1 31000]).
  specialize (HB2 [Basic.Tick; Basic.Tick]).
  destruct HE2 as (HE2 & _).
  { intros [H|[H|[]]]; discriminate H. }
  destruct HB2 as (HB2 & _).
  { intros [H|[H|[]]]; discriminate H. }
  cbv zeta.
  split; [split; [reflexivity | apply le_n]|].
  split; [split; [reflexivity | apply le_n]|].
  split; [exact (f_equal status HE1)|].
  split; [exact HE2|].
  split; [exact (f_equal status HB1) | exact HB2].
Defined.

(** ** Losing the face *)

(** C5.  In the enhanced variant a frame of a playing video in which the
    detector sees no face sets the stability timer back to zero and
    captures nothing.  Whatever follows, a later capture at time [now] is
    preceded by a run of frames with a face, all of them after that frame,
    whose first timestamp lies more than the stability window before
    [now]: nothing of the time counted before the face was lost carries over. *)
Theorem lost_face_restarts_window
    (c : Enhanced.Component) (l : Enhanced.Loop) (t : Z) :
  detecting c ->
  Enhanced.loop c = Some l ->
  let c0 := Enhanced.step c (seen 0 t) in
  Enhanced.loop c0 = Some (Enhanced.mkLoop (Enhanced.lastScanTime l) 0)
  /\ Enhanced.triggers c0 = Enhanced.triggers c
  /\ forall es f,
       Enhanced.triggers
         (Enhanced.step (Enhanced.run c0 es) (Enhanced.AnimationFrame f))
       <> Enhanced.triggers (Enhanced.run c0 es) ->
       exists t0,
         In t0 (streak (rev es))
         /\ (Enhanced.now f - t0 > Enhanced.DETECTION_STABILITY_DELAY)%Z.
Proof.
  intros Hd Hl c0.
  destruct (step_frame_noface c l t Hd Hl) as (_ & _ & El & Et).
  fold c0 in El, Et. repeat split; auto.
  intros es f Hne. apply (trigger_after_stable_window c0 es f); auto.
  intros _. split; [|intros _]; intros l0 Hl0; rewrite El in Hl0;
    injection Hl0 as <-; [now left | reflexivity].
Qed.

Lemma lost_face_restarts_window_witness :
  let c := Enhanced.run Enhanced.init
             [Enhanced.ModelsLoaded; Enhanced.CameraGranted [Live];
              seen 1 10000] in
  let c0 := Enhanced.step c (seen 0 10900) in
  Enhanced.loop c = Some (Enhanced.mkLoop 0 10000)
  /\ Enhanced.loop c0 = Some (Enhanced.mkLoop 0 0)
  /\ Enhanced.triggers (Enhanced.run c0 [seen 1 11000; seen 1 11500]) = []
  /\ Enhanced.triggers (Enhanced.run c0 [seen 1 11000; seen 1 12001])
     = [12001%Z]
  /\ exists t0, In t0 [11000%Z] /\ (12001 - t0 > 1000)%Z.
Proof.
  cbv zeta.
  pose proof (lost_face_restarts_window
                (Enhanced.run Enhanced.init
                   [Enhanced.ModelsLoaded; Enhanced.CameraGranted [Live];
                    seen 1 10000])
                (Enhanced.mkLoop 0 10000) 10900) as H.
  cbv zeta in H.
  destruct H as (H1 & _ & H3).
  - repeat split; reflexivity.
  - reflexivity.
  - split; [reflexivity|].
    split; [exact H1|].
    split; [reflexivity|].
    split; [reflexivity|].
    apply (H3 [seen 1 11000] (Enhanced.mkFrame 12001 1 true)).
    vm_compute. discriminate.
Defined.

(** ** The stream of the video while a submission is in flight *)

(** A handler starts a submission only from a frame that passed the
    playing test. *)
Lemma handle_pending_stream (e : Enhanced.Event) (c : Enhanced.Component) :
  (0 < pending (Enhanced.core (Enhanced.handle e c)))%nat ->
  (0 < pending (Enhanced.core c))%nat
  \/ (hasStream (videoRef (Enhanced.core c)) = true
      /\ qrImage (st (Enhanced.core (Enhanced.handle e c)))
         = qrImage (st (Enhanced.core c))).
Proof.
  destruct e; simpl Enhanced.handle; try (case_match; simpl; now left).
  - case_match; [|now left].
    destruct (cameraGranted_frame tracks (Enhanced.core c))
      as (_ & _ & _ & _ & Ep).
    simpl. rewrite Ep. now left.
  - destruct (Enhanced.loop c) as [l|]; [|now left].
    unfold Enhanced.detectFaces.
    destruct (negb (attached (videoRef (Enhanced.core c)))
              || negb (attached (canvasRef (Enhanced.core c)))
              || negb (Enhanced.modelLoaded c)
              || truthy (qrImage (st (Enhanced.core c)))); [now left|].
    destruct (hasStream (videoRef (Enhanced.core c))) eqn:Hs.
    2:{ rewrite andb_false_r. now left. }
    intros _. right. split; [reflexivity|].
    pose proof (scanFace_frame (Enhanced.core c))
      as (_ & _ & _ & _ & _ & _ & _ & Fq & _).
    repeat case_match; simpl; try reflexivity; exact Fq.
  - case_match; [|now left]. apply Nat.ltb_lt in H.
    unfold blobCallback, pending. destruct blob; simpl; intros; left; lia.
  - case_match; [|now left]. apply Nat.ltb_lt in H.
    unfold postSettled, pending. simpl. intros. left. lia.
  - now left.
Qed.

Lemma BoundInv_commit (c : Enhanced.Component) (e : Enhanced.Event) :
  EInv c -> BoundInv c ->
  EInv (Enhanced.commit c (Enhanced.handle e c)) ->
  BoundInv (Enhanced.commit c (Enhanced.handle e c)).
Proof.
  intros He Hb He'. unfold BoundInv.
  rewrite commit_core, reconcile_pending. intros Hp.
  assert (truthy (qrImage (st (Enhanced.core (Enhanced.handle e c))))
          = false) as Hq'.
  { destruct (truthy (qrImage (st (Enhanced.core (Enhanced.handle e c)))))
      eqn:E; [|reflexivity].
    pose proof (sinv_result _ (einv_state _ He')) as Hr.
    rewrite commit_core, reconcile_st, reconcile_pending in Hr.
    destruct (Hr E). lia. }
  assert (truthy (qrImage (st (Enhanced.core c))) = false
          /\ hasStream (videoRef (Enhanced.core c)) = true) as [Hq Hs].
  { destruct (handle_pending_stream e c Hp) as [Hc|[Hs Eq]].
    - split; [|exact (Hb Hc)].
      destruct (truthy (qrImage (st (Enhanced.core c)))) eqn:E;
        [|reflexivity].
      destruct (sinv_result _ (einv_state _ He) E). lia.
    - split; [|exact Hs]. now rewrite <- Eq. }
  rewrite reconcile_unchanged by congruence.
  now apply handle_keeps_stream.
Qed.

Lemma BoundInv_step (c : Enhanced.Component) (e : Enhanced.Event) :
  EInv c -> BoundInv c -> BoundInv (Enhanced.step c e).
Proof.
  intros He Hb. pose proof (EInv_step c e He) as He'.
  unfold Enhanced.step in *.
  destruct (mounted (Enhanced.core c)) eqn:Hmo; [|exact Hb].
  destruct e; try (now apply BoundInv_commit).
  unfold BoundInv, Enhanced.unmount, releaseCamera. simpl. exact Hb.
Qed.

Lemma BoundInv_reachable (es : list Enhanced.Event) :
  BoundInv (Enhanced.run Enhanced.init es).
Proof.
  assert (forall c, EInv c -> BoundInv c -> BoundInv (Enhanced.run c es))
    as H.
  { induction es as [|e es IH]; intros c He Hb; simpl; [exact Hb|].
    apply IH; [now apply EInv_step | now apply BoundInv_step]. }
  apply H; [apply EInv_init|]. intros Hp. cbv in Hp. lia.
Qed.

(** ** After a failed submission *)

(** A timer tick of an armed basic component calls [scanFace], which
    passes its guard. *)
Lemma basic_tick_fires (c : Basic.Component) :
  mounted (Basic.core c) = true ->
  Basic.interval c = true ->
  loading (st (Basic.core c)) = false ->
  truthy (qrImage (st (Basic.core c))) = false ->
  attached (videoRef (Basic.core c)) = true ->
  attached (canvasRef (Basic.core c)) = true ->
  let c' := Basic.step c Basic.Tick in
  Basic.ticks c' = S (Basic.ticks c)
  /\ loading (st (Basic.core c')) = true
  /\ status (st (Basic.core c')) = STATUS_SCANNING
  /\ encoding (Basic.core c') = S (encoding (Basic.core c))
  /\ requests (Basic.core c') = requests (Basic.core c).
Proof.
  intros Hmo Hi Hl Hq Hv Hc. unfold Basic.step. rewrite Hmo.
  simpl Basic.handle. rewrite Hi.
  rewrite basic_commit_core, basic_commit_ticks. simpl.
  pose proof (basic_scanFace_frame (Basic.core c))
    as (_ & _ & _ & _ & _ & _ & Fr & Fq & _).
  rewrite reconcile_unchanged by now rewrite Fq.
  rewrite Fr. unfold Basic.scanFace. rewrite Hl, Hq, Hv, Hc. simpl. auto.
Qed.

Lemma enhanced_failure_rearms (es : list Enhanced.Event) (r : PostResult) :
  failed r = true ->
  let c := Enhanced.run Enhanced.init es in
  mounted (Enhanced.core c) = true ->
  (0 < posting (Enhanced.core c))%nat ->
  let c' := Enhanced.step c (Enhanced.PostSettled r) in
  status (st (Enhanced.core c'))
  = or_else (failure_message r) STATUS_NOT_RECOGNIZED
  /\ loading (st (Enhanced.core c')) = false
  /\ qrImage (st (Enhanced.core c')) = qrImage (st (Enhanced.core c))
  /\ user (st (Enhanced.core c')) = user (st (Enhanced.core c))
  /\ Enhanced.loop c' = Some (Enhanced.mkLoop 0 0)
  /\ detecting c'
  /\ encoding (Enhanced.core c') = 0%nat
  /\ Enhanced.triggers c' = Enhanced.triggers c.
Proof.
  intros Hf c Hmo Hpo c'.
  destruct (enhanced_settled_step es r Hmo Hpo)
    as (Es & Ep & _ & Et & Eml & _ & Emo & Hld & Hq & Hinv).
  fold c c' in Es, Ep, Et, Eml, Emo, Hld, Hq, Hinv.
  rewrite Es. unfold settle_finally. rewrite settle_failed by exact Hf.
  simpl. repeat match goal with |- _ /\ _ => split end; auto.
  - subst c'. unfold Enhanced.step. rewrite Hmo. simpl Enhanced.handle.
    apply Nat.ltb_lt in Hpo as Hpo'. rewrite Hpo', commit_loop.
    rewrite deps_eqb_loading by (simpl; rewrite Hld; discriminate).
    simpl. unfold settle_finally. rewrite settle_failed by exact Hf.
    simpl. fold c. rewrite Hq.
    replace (Enhanced.modelLoaded c) with true; [reflexivity|].
    symmetry. apply EInv_pending_loaded; [apply EInv_reachable|].
    unfold pending. lia.
  - assert (truthy (qrImage (st (Enhanced.core c'))) = false) as Hq'.
    { rewrite Es. unfold settle_finally.
      rewrite settle_failed by exact Hf. exact Hq. }
    destruct (einv_refs _ Hinv Emo Hq') as [Hv Hc].
    repeat split; auto.
    assert (hasStream (videoRef (Enhanced.core c)) = true) as Hs.
    { apply (BoundInv_reachable es). fold c. unfold pending. lia. }
    pose proof (handle_keeps_stream (Enhanced.PostSettled r) c Hs) as Hs'.
    assert (Enhanced.core c'
            = reconcile (st (Enhanced.core c))
                (Enhanced.core (Enhanced.handle (Enhanced.PostSettled r) c)))
      as Ec.
    { subst c'. unfold Enhanced.step. rewrite Hmo. apply commit_core. }
    rewrite Ec in Hq' |- *. rewrite reconcile_st in Hq'.
    rewrite reconcile_unchanged; [exact Hs'|]. now rewrite Hq, Hq'.
  - unfold pending in Ep. lia.
Qed.

Lemma basic_failure_rearms (es : list Basic.Event) (r : PostResult) :
  failed r = true ->
  let c := Basic.run Basic.init es in
  mounted (Basic.core c) = true ->
  (0 < posting (Basic.core c))%nat ->
  let c' := Basic.step c (Basic.PostSettled r) in
  status (st (Basic.core c'))
  = or_else (failure_message r) STATUS_NOT_RECOGNIZED
  /\ loading (st (Basic.core c')) = false
  /\ qrImage (st (Basic.core c')) = qrImage (st (Basic.core c))
  /\ user (st (Basic.core c')) = user (st (Basic.core c))
  /\ Basic.interval c'
     = negb (String.eqb (or_else (failure_message r) STATUS_NOT_RECOGNIZED)
               STATUS_QR_GENERATED)
  /\ mounted (Basic.core c') = true
  /\ truthy (qrImage (st (Basic.core c'))) = false
  /\ attached (videoRef (Basic.core c')) = true
  /\ attached (canvasRef (Basic.core c')) = true
  /\ encoding (Basic.core c') = 0%nat
  /\ Basic.ticks c' = Basic.ticks c.
Proof.
  intros Hf c Hmo Hpo c'.
  destruct (basic_settled_step es r Hmo Hpo)
    as (Es & Ep & _ & Et & Emo & Hld & Hq & Hinv).
  fold c c' in Es, Ep, Et, Emo, Hld, Hq, Hinv.
  assert (truthy (qrImage (st (Basic.core c'))) = false) as Hq'.
  { rewrite Es. unfold settle_finally.
    rewrite settle_failed by exact Hf. exact Hq. }
  destruct (binv_refs _ Hinv Emo Hq') as [Hv Hc].
  rewrite (binv_interval _ Hinv), Emo. unfold Basic.runEffect.
  rewrite Es. unfold settle_finally. rewrite settle_failed by exact Hf.
  simpl. rewrite Hq. simpl.
  repeat match goal with |- _ /\ _ => split end; auto.
  unfold pending in Ep. lia.
Qed.

(** C6, as stated, fails: the service answers the first capture with
    [success] false and the message "✅ QR Generated".  The message is
    shown, no result is stored, nothing is in flight, and yet a face that
    stays in view for another 29 seconds is never captured again; the basic
    component is left without its timer. *)
Lemma failure_with_marker_disarms :
  let c := Enhanced.run Enhanced.init capture_refused_with_marker in
  let b := Basic.run Basic.init basic_capture_refused_with_marker in
  failed marker_message = true
  /\ st (Enhanced.core c) = mkState STATUS_QR_GENERATED false None None
  /\ Enhanced.triggers c = [11001%Z]
  /\ Enhanced.triggers
       (Enhanced.run c [seen 1 12000; seen 1 20000; seen 1 30000;
                        seen 1 40000])
     = [11001%Z]
  /\ st (Basic.core b) = mkState STATUS_QR_GENERATED false None None
  /\ Basic.interval b = false
  /\ Basic.ticks (Basic.run b [Basic.Tick; Basic.Tick]) = 1%nat.
Proof. vm_compute. repeat split; reflexivity. Qed.

(** C6, amended.  After a response with [success] false, or a rejected
    request, the status is the message the service supplied when that is a
    non-empty string and "❌ Face not recognized" otherwise, [loading] is
    false and no result is stored.  Provided the status shown is not the
    success marker, the loop is armed again: the enhanced component starts
    a fresh detection loop that captures on the second of two frames with a
    face more than the stability window apart, and the basic component has
    its timer running, whose next tick calls [scanFace] past the guard. *)
Theorem failure_shows_message_and_rearms (r : PostResult) :
  failed r = true ->
  let shown := or_else (failure_message r) STATUS_NOT_RECOGNIZED in
  (forall m, failure_message r = Some m -> m <> "" -> shown = m)
  /\ (failure_message r = None \/ failure_message r = Some "" ->
      shown = STATUS_NOT_RECOGNIZED)
  /\ (forall es,
        let c := Enhanced.run Enhanced.init es in
        mounted (Enhanced.core c) = true ->
        (0 < posting (Enhanced.core c))%nat ->
        let c' := Enhanced.step c (Enhanced.PostSettled r) in
        st (Enhanced.core c')
        = mkState shown false (qrImage (st (Enhanced.core c)))
            (user (st (Enhanced.core c)))
        /\ (shown <> STATUS_QR_GENERATED ->
            Enhanced.loop c' = Some (Enhanced.mkLoop 0 0)
            /\ forall n1 n2 t1 t2,
                 (0 < n1)%nat -> (0 < n2)%nat -> t1 <> 0%Z ->
                 (t2 - t1 > Enhanced.DETECTION_STABILITY_DELAY)%Z ->
                 (t2 > Enhanced.SCAN_COOLDOWN)%Z ->
                 let c2 := Enhanced.run c' [seen n1 t1; seen n2 t2] in
                 Enhanced.triggers c2 = t2 :: Enhanced.triggers c
                 /\ loading (st (Enhanced.core c2)) = true
                 /\ encoding (Enhanced.core c2) = 1%nat))
  /\ (forall es,
        let c := Basic.run Basic.init es in
        mounted (Basic.core c) = true ->
        (0 < posting (Basic.core c))%nat ->
        let c' := Basic.step c (Basic.PostSettled r) in
        st (Basic.core c')
        = mkState shown false (qrImage (st (Basic.core c)))
            (user (st (Basic.core c)))
        /\ (shown <> STATUS_QR_GENERATED ->
            Basic.interval c' = true
            /\ let c2 := Basic.step c' Basic.Tick in
               Basic.ticks c2 = S (Basic.ticks c)
               /\ loading (st (Basic.core c2)) = true
               /\ encoding (Basic.core c2) = 1%nat)).
Proof.
  intros Hf shown. split; [|split; [|split]].
  - intros m Hm Hne. subst shown. rewrite Hm. now apply or_else_some.
  - intros [Hm|Hm]; subst shown; rewrite Hm; reflexivity.
  - intros es c Hmo Hpo c'.
    destruct (enhanced_failure_rearms es r Hf Hmo Hpo)
      as (Es & El & Eq & Eu & Elp & Hd & Een & Et).
    fold c c' shown in Es, El, Eq, Eu, Elp, Hd, Een, Et.
    split.
    + destruct (st (Enhanced.core c')); simpl in *. congruence.
    + intros Hs. split; [exact Elp|].
      intros n1 n2 t1 t2 Hn1 Hn2 Ht1 Hw Hc c2.
      destruct (armed_loop_fires c' n1 n2 t1 t2 Hd Elp El) as
        (Ft & Fl & _ & Fe & _); auto; try congruence.
      fold c2 in Ft, Fl, Fe. repeat split; congruence.
  - intros es c Hmo Hpo c'.
    destruct (basic_failure_rearms es r Hf Hmo Hpo)
      as (Es & El & Eq & Eu & Ei & Emo & Hq & Hv & Hc & Een & Et).
    fold c c' shown in Es, El, Eq, Eu, Ei, Emo, Hq, Hv, Hc, Een, Et.
    split.
    + destruct (st (Basic.core c')); simpl in *. congruence.
    + intros Hs.
      assert (Basic.interval c' = true) as Hi.
      { rewrite Ei. apply String.eqb_neq in Hs. now rewrite Hs. }
      split; [exact Hi|].
      destruct (basic_tick_fires c' Emo Hi El Hq Hv Hc)
        as (Ft & Fl & _ & Fe & _).
      intros c2. fold c2 in Ft, Fl, Fe. repeat split; congruence.
Qed.

Lemma failure_shows_message_and_rearms_witness :
  let c := Enhanced.run Enhanced.init
             (first_capture ++ [Enhanced.BlobReady (Some JpegBlob)]) in
  let c' := Enhanced.step c (Enhanced.PostSettled unknown_face) in
  let b := Basic.run Basic.init
             [Basic.CameraGranted [Live]; Basic.Tick;
              Basic.BlobReady (Some JpegBlob)] in
  let b' := Basic.step b (Basic.PostSettled unknown_face) in
  failed unknown_face = true
  /\ st (Enhanced.core c') = mkState "Unknown face" false None None
  /\ Enhanced.triggers (Enhanced.run c' [seen 1 11200; seen 1 12201])
     = [12201; 11001]%Z
  /\ st (Basic.core b') = mkState "Unknown face" false None None
  /\ Basic.interval b' = true
  /\ Basic.ticks (Basic.step b' Basic.Tick) = 2%nat.
Proof.
  cbv zeta.
  pose proof (failure_shows_message_and_rearms unknown_face eq_refl)
    as (_ & _ & HE & HB).
  specialize (HE (first_capture ++ [Enhanced.BlobReady (Some JpegBlob)])%list).
  specialize (HB [Basic.CameraGranted [Live]; Basic.Tick;
                  Basic.BlobReady (Some JpegBlob)]).
  cbv zeta in HE, HB.
  destruct (HE eq_refl (le_n 1)) as [HE1 HE2].
  destruct (HB eq_refl (le_n 1)) as [HB1 HB2].
  assert (or_else (failure_message unknown_face) STATUS_NOT_RECOGNIZED
          <> STATUS_QR_GENERATED) as Hne by (vm_compute; discriminate).
  destruct (HE2 Hne) as [_ HE3]. destruct (HB2 Hne) as [HB3 HB4].
  assert (11200 <> 0)%Z as Ht by discriminate.
  destruct (HE3 1%nat 1%nat 11200%Z 12201%Z (le_n 1) (le_n 1) Ht
              eq_refl eq_refl) as (HE4 & _).
  destruct HB4 as (HB4 & _).
  split; [reflexivity|].
  split; [exact HE1|].
  split; [exact HE4|].
  split; [exact HB1|].
  split; [exact HB3 | exact HB4].
Defined.

(** ** One submission for each capture *)

(** What a call of [detectFaces] does to the core and to the captures. *)
Lemma detectFaces_cases (f : Enhanced.Frame) (l : Enhanced.Loop)
    (c : Enhanced.Component) :
  (Enhanced.core (Enhanced.detectFaces f l c) = Enhanced.core c
   /\ Enhanced.triggers (Enhanced.detectFaces f l c) = Enhanced.triggers c)
  \/ (Enhanced.core (Enhanced.detectFaces f l c)
      = Enhanced.scanFace (Enhanced.core c)
      /\ Enhanced.triggers (Enhanced.detectFaces f l c)
         = Enhanced.now f :: Enhanced.triggers c
      /\ attached (videoRef (Enhanced.core c)) = true
      /\ loading (st (Enhanced.core c)) = false
      /\ truthy (qrImage (st (Enhanced.core c))) = false).
Proof.
  unfold Enhanced.detectFaces.
  destruct (attached (videoRef (Enhanced.core c))) eqn:Ev; simpl;
    [|now left].
  destruct (attached (canvasRef (Enhanced.core c))); simpl; [|now left].
  destruct (Enhanced.modelLoaded c); simpl; [|now left].
  destruct (truthy (qrImage (st (Enhanced.core c)))) eqn:Eq; [now left|].
  destruct (negb (Enhanced.playing f
                  && hasStream (videoRef (Enhanced.core c))));
    [now left|].
  destruct (0 <? Enhanced.faces f)%nat; [|now left].
  destruct (loading (st (Enhanced.core c))) eqn:El.
  - rewrite andb_false_r. simpl. now left.
  - case_match; [right | left]; simpl; auto.
Qed.

(** A frame changes the core only by a capture. *)
Lemma frame_step_cases (c : Enhanced.Component) (f : Enhanced.Frame) :
  let c' := Enhanced.step c (Enhanced.AnimationFrame f) in
  (Enhanced.core c' = Enhanced.core c
   /\ Enhanced.triggers c' = Enhanced.triggers c)
  \/ (mounted (Enhanced.core c) = true
      /\ Enhanced.core c' = Enhanced.scanFace (Enhanced.core c)
      /\ Enhanced.triggers c' = Enhanced.now f :: Enhanced.triggers c
      /\ attached (videoRef (Enhanced.core c)) = true
      /\ loading (st (Enhanced.core c)) = false
      /\ truthy (qrImage (st (Enhanced.core c))) = false).
Proof.
  cbv zeta. unfold Enhanced.step.
  destruct (mounted (Enhanced.core c)); [|now left].
  simpl Enhanced.handle. rewrite commit_core, commit_triggers.
  destruct (Enhanced.loop c) as [l|];
    [|left; now rewrite reconcile_same].
  destruct (detectFaces_cases f l c)
    as [[-> ->] | (-> & -> & Hv & Hl & Hq)].
  - left. now rewrite reconcile_same.
  - right. pose proof (scanFace_frame (Enhanced.core c))
      as (_ & _ & _ & _ & _ & _ & _ & Fq & _).
    rewrite reconcile_unchanged by now rewrite Fq.
    repeat split; auto.
Qed.

(** Every capture of a reachable enhanced component starts from a state
    with nothing in flight and registers one [toBlob] callback. *)
Lemma enhanced_capture_registers (es : list Enhanced.Event)
    (f : Enhanced.Frame) :
  let c := Enhanced.run Enhanced.init es in
  let c' := Enhanced.step c (Enhanced.AnimationFrame f) in
  Enhanced.triggers c' <> Enhanced.triggers c ->
  Enhanced.triggers c' = Enhanced.now f :: Enhanced.triggers c
  /\ mounted (Enhanced.core c') = true
  /\ loading (st (Enhanced.core c)) = false
  /\ pending (Enhanced.core c) = 0%nat
  /\ st (Enhanced.core c')
     = setStatus STATUS_SCANNING (setLoading true (st (Enhanced.core c)))
  /\ encoding (Enhanced.core c') = 1%nat
  /\ posting (Enhanced.core c') = 0%nat
  /\ requests (Enhanced.core c') = requests (Enhanced.core c).
Proof.
  intros c c' Ht. subst c'.
  destruct (frame_step_cases c f) as [[_ E] | (Hmo & Ek & Et & Hv & Hl & Hq)];
    [now elim Ht|].
  destruct (scanFace_passes _ Hl Hq Hv) as [Es Een].
  pose proof (scanFace_frame (Enhanced.core c))
    as (_ & _ & _ & Fm & _ & Fp & Fr & _).
  pose proof (EInv_reachable es) as Hinv. fold c in Hinv.
  assert (pending (Enhanced.core c) = 0%nat) as Hp.
  { destruct (sinv_pending _ (einv_state _ Hinv)) as [H0 | [_ H1]];
      [exact H0 | congruence]. }
  unfold pending in Hp. rewrite Ek, Es, Een, Fm, Fp, Fr.
  repeat match goal with |- _ /\ _ => split end; auto; unfold pending; lia.
Qed.

(** Every tick of a running timer of a reachable basic component calls
    [scanFace] with nothing in flight and both refs attached: the call
    passes the guard and the test on line 294, and registers one [toBlob]
    callback. *)
Lemma basic_tick_registers (es : list Basic.Event) :
  let c := Basic.run Basic.init es in
  let c' := Basic.step c Basic.Tick in
  Basic.ticks c' <> Basic.ticks c ->
  Basic.ticks c' = S (Basic.ticks c)
  /\ mounted (Basic.core c') = true
  /\ loading (st (Basic.core c)) = false
  /\ pending (Basic.core c) = 0%nat
  /\ attached (videoRef (Basic.core c)) = true
  /\ attached (canvasRef (Basic.core c)) = true
  /\ loading (st (Basic.core c')) = true
  /\ status (st (Basic.core c')) = STATUS_SCANNING
  /\ encoding (Basic.core c') = 1%nat
  /\ posting (Basic.core c') = 0%nat
  /\ requests (Basic.core c') = requests (Basic.core c).
Proof.
  intros c c' Ht.
  pose proof (BInv_reachable es) as Hinv. fold c in Hinv.
  assert (mounted (Basic.core c) = true /\ Basic.interval c = true)
    as [Hmo Hi].
  { subst c'. unfold Basic.step in Ht.
    destruct (mounted (Basic.core c)); [|contradiction].
    simpl Basic.handle in Ht.
    destruct (Basic.interval c); [auto|].
    rewrite basic_commit_ticks in Ht. contradiction. }
  pose proof (binv_interval _ Hinv) as Hr. rewrite Hi, Hmo in Hr.
  symmetry in Hr. simpl in Hr. unfold Basic.runEffect in Hr.
  apply andb_prop in Hr as [Hr _]. apply andb_prop in Hr as [Hq Hl].
  apply negb_true_iff in Hq, Hl.
  destruct (binv_refs _ Hinv Hmo Hq) as [Hv Hc].
  assert (pending (Basic.core c) = 0%nat) as Hp.
  { destruct (sinv_pending _ (binv_state _ Hinv)) as [H0 | [_ H1]];
      [exact H0 | congruence]. }
  destruct (basic_tick_fires c Hmo Hi Hl Hq Hv Hc)
    as (Ft & Fl & Fs & Fe & Fr).
  fold c' in Ft, Fl, Fs, Fe, Fr.
  assert (mounted (Basic.core c') = true
          /\ posting (Basic.core c') = posting (Basic.core c)) as [Fm Fp].
  { subst c'. unfold Basic.step. rewrite Hmo. simpl Basic.handle.
    rewrite Hi, basic_commit_core. simpl Basic.core.
    pose proof (basic_scanFace_frame (Basic.core c))
      as (_ & _ & _ & Fm & _ & Fp & _ & Fq & _).
    rewrite reconcile_unchanged by now rewrite Fq.
    rewrite Fm, Fp. auto. }
  unfold pending in Hp.
  repeat match goal with |- _ /\ _ => split end; auto; lia.
Qed.

(** *** The flag and the submission *)

Lemma Awaited_reconcile (shown : State) (k : Core) :
  Awaited k -> Awaited (reconcile shown k).
Proof. unfold Awaited. now rewrite reconcile_st, reconcile_pending. Qed.

Lemma Awaited_blobCallback (blob : option Blob) (k : Core) :
  (0 < encoding k)%nat -> Awaited k -> Awaited (blobCallback blob k).
Proof.
  unfold Awaited, blobCallback, pending. intros Hen Ha.
  destruct blob; simpl; [|discriminate].
  intros Hl. specialize (Ha Hl). lia.
Qed.

Lemma Awaited_enhanced_step (c : Enhanced.Component) (e : Enhanced.Event) :
  EInv c -> Awaited (Enhanced.core c) ->
  Awaited (Enhanced.core (Enhanced.step c e)).
Proof.
  intros He Ha.
  assert (forall f, e = Enhanced.AnimationFrame f ->
                    Awaited (Enhanced.core (Enhanced.step c e))) as Hframe.
  { intros f0 ->.
    destruct (frame_step_cases c f0)
      as [[-> _] | (_ & -> & _ & Hv & Hl & Hq)]; [exact Ha|].
    destruct (scanFace_passes _ Hl Hq Hv) as [Es Een].
    pose proof (scanFace_frame (Enhanced.core c))
      as (_ & _ & _ & _ & _ & Fp & _).
    destruct (sinv_pending _ (einv_state _ He)) as [H0 | [_ H1]];
      [|congruence].
    unfold Awaited, pending in *. rewrite Een, Fp. lia. }
  destruct e; try (now eapply Hframe); clear Hframe;
    unfold Enhanced.step; destruct (mounted (Enhanced.core c));
    try exact Ha; try rewrite commit_core; try apply Awaited_reconcile;
    simpl Enhanced.handle.
  - now destruct (Enhanced.modelsPending c).
  - now destruct (Enhanced.modelsPending c).
  - destruct (cameraPending (Enhanced.core c)); [|exact Ha].
    destruct (cameraGranted_frame tracks (Enhanced.core c))
      as (Es & _ & _ & _ & Ep).
    unfold Awaited. simpl. now rewrite Es, Ep.
  - now destruct (cameraPending (Enhanced.core c)).
  - destruct (0 <? encoding (Enhanced.core c))%nat eqn:E; [|exact Ha].
    apply Nat.ltb_lt in E. now apply Awaited_blobCallback.
  - destruct (0 <? posting (Enhanced.core c))%nat; [|exact Ha].
    unfold Awaited. simpl. discriminate.
  - now destruct (truthy (qrImage (st (Enhanced.core c)))).
Qed.

Lemma Awaited_enhanced_reachable (es : list Enhanced.Event) :
  Awaited (Enhanced.core (Enhanced.run Enhanced.init es)).
Proof.
  assert (forall c, EInv c -> Awaited (Enhanced.core c) ->
                    Awaited (Enhanced.core (Enhanced.run c es))) as H.
  { induction es as [|e es IH]; intros c He Ha; simpl; [exact Ha|].
    apply IH; [now apply EInv_step | now apply Awaited_enhanced_step]. }
  apply H; [apply EInv_init | discriminate].
Qed.

Lemma Awaited_basic_step (c : Basic.Component) (e : Basic.Event) :
  BInv c -> Awaited (Basic.core c) ->
  Awaited (Basic.core (Basic.step c e)).
Proof.
  intros Hb Ha. unfold Basic.step.
  destruct (mounted (Basic.core c)) eqn:Hmo; [|exact Ha].
  destruct e; try exact Ha;
    rewrite basic_commit_core; apply Awaited_reconcile;
    simpl Basic.handle.
  - destruct (cameraPending (Basic.core c)); [|exact Ha].
    destruct (cameraGranted_frame tracks (Basic.core c))
      as (Es & _ & _ & _ & Ep).
    unfold Awaited. simpl. now rewrite Es, Ep.
  - now destruct (cameraPending (Basic.core c)).
  - destruct (Basic.interval c) eqn:Hi; [|exact Ha]. simpl.
    pose proof (binv_interval _ Hb) as Hr. rewrite Hi, Hmo in Hr.
    symmetry in Hr. simpl in Hr. unfold Basic.runEffect in Hr.
    apply andb_prop in Hr as [Hr _]. apply andb_prop in Hr as [Hq Hl].
    apply negb_true_iff in Hq, Hl.
    destruct (binv_refs _ Hb Hmo Hq) as [Hv Hc].
    destruct (sinv_pending _ (binv_state _ Hb)) as [H0 | [_ H1]];
      [|congruence].
    unfold Awaited, Basic.scanFace, pending in *.
    rewrite Hl, Hq, Hv, Hc. simpl. lia.
  - destruct (0 <? encoding (Basic.core c))%nat eqn:E; [|exact Ha].
    apply Nat.ltb_lt in E. now apply Awaited_blobCallback.
  - destruct (0 <? posting (Basic.core c))%nat; [|exact Ha].
    unfold Awaited. simpl. discriminate.
  - now destruct (truthy (qrImage (st (Basic.core c)))).
Qed.

Lemma Awaited_basic_reachable (es : list Basic.Event) :
  Awaited (Basic.core (Basic.run Basic.init es)).
Proof.
  assert (forall c, BInv c -> Awaited (Basic.core c) ->
                    Awaited (Basic.core (Basic.run c es))) as H.
  { induction es as [|e es IH]; intros c Hb Ha; simpl; [exact Ha|].
    apply IH; [now apply BInv_step | now apply Awaited_basic_step]. }
  apply H; [apply BInv_init | discriminate].
Qed.

(** The [toBlob] callback of a mounted component, one step. *)
Lemma enhanced_blob_step (c : Enhanced.Component) (blob : option Blob) :
  mounted (Enhanced.core c) = true ->
  (0 < encoding (Enhanced.core c))%nat ->
  truthy (qrImage (st (Enhanced.core c))) = false ->
  Enhanced.core (Enhanced.step c (Enhanced.BlobReady blob))
  = blobCallback blob (Enhanced.core c).
Proof.
  intros Hmo Hen Hq. unfold Enhanced.step. rewrite Hmo.
  simpl Enhanced.handle. apply Nat.ltb_lt in Hen. rewrite Hen.
  rewrite commit_core. apply reconcile_unchanged. simpl.
  destruct (blobCallback_frame blob (Enhanced.core c))
    as (_ & _ & _ & _ & -> & _). reflexivity.
Qed.

Lemma basic_blob_step (c : Basic.Component) (blob : option Blob) :
  mounted (Basic.core c) = true ->
  (0 < encoding (Basic.core c))%nat ->
  truthy (qrImage (st (Basic.core c))) = false ->
  Basic.core (Basic.step c (Basic.BlobReady blob))
  = blobCallback blob (Basic.core c).
Proof.
  intros Hmo Hen Hq. unfold Basic.step. rewrite Hmo.
  simpl Basic.handle. apply Nat.ltb_lt in Hen. rewrite Hen.
  rewrite basic_commit_core. apply reconcile_unchanged. simpl.
  destruct (blobCallback_frame blob (Basic.core c))
    as (_ & _ & _ & _ & -> & _). reflexivity.
Qed.

(** What is outstanding while [loading] is set, and how it ends. *)
Lemma loading_outstanding (k : Core) :
  SInv k -> Awaited k -> loading (st k) = true ->
  truthy (qrImage (st k)) = false
  /\ (encoding k = 1%nat /\ posting k = 0%nat
      \/ encoding k = 0%nat /\ posting k = 1%nat)
  /\ loading (st (blobCallback None k)) = false
  /\ ((0 < encoding k)%nat -> pending (blobCallback None k) = 0%nat)
  /\ forall b,
       (0 < encoding k)%nat ->
       mounted (blobCallback (Some b) k) = mounted k
       /\ loading (st (blobCallback (Some b) k)) = true
       /\ encoding (blobCallback (Some b) k) = 0%nat
       /\ posting (blobCallback (Some b) k) = 1%nat
       /\ requests (blobCallback (Some b) k) = S (requests k).
Proof.
  intros Hs Ha Hl. specialize (Ha Hl). unfold pending in Ha.
  split.
  { destruct (truthy (qrImage (st k))) eqn:E; [|reflexivity].
    destruct (sinv_result _ Hs E). congruence. }
  split; [lia|]. split; [reflexivity|].
  split; [unfold blobCallback, pending; simpl; lia|].
  intros b Hen. unfold blobCallback. simpl.
  repeat match goal with |- _ /\ _ => split end; auto; lia.
Qed.

(** C2.  In every reachable state of a mounted component of either variant
    in which [loading] is set, exactly one [toBlob] callback or one request
    is outstanding, and whichever way it ends clears the flag: the callback
    called with [null] clears it and sends nothing; called with a blob it
    sends the request, and the request, whether it resolves with [success]
    true, resolves with [success] false or is rejected, clears the flag
    when it settles.  Every call of [scanFace], made by [detectFaces] or by
    the timer, gets as far as registering that callback: the [return] on
    line 294 of the basic variant is not taken, since the timer runs only
    while the video and the canvas are rendered. *)
Theorem loading_released_on_every_outcome :
  (forall es,
     let c := Enhanced.run Enhanced.init es in
     mounted (Enhanced.core c) = true ->
     loading (st (Enhanced.core c)) = true ->
     (encoding (Enhanced.core c) = 1%nat /\ posting (Enhanced.core c) = 0%nat
      \/ encoding (Enhanced.core c) = 0%nat
         /\ posting (Enhanced.core c) = 1%nat)
     /\ ((0 < encoding (Enhanced.core c))%nat ->
         (let c1 := Enhanced.step c (Enhanced.BlobReady None) in
          loading (st (Enhanced.core c1)) = false
          /\ pending (Enhanced.core c1) = 0%nat
          /\ requests (Enhanced.core c1) = requests (Enhanced.core c))
         /\ forall b,
              let c1 := Enhanced.step c (Enhanced.BlobReady (Some b)) in
              mounted (Enhanced.core c1) = true
              /\ loading (st (Enhanced.core c1)) = true
              /\ encoding (Enhanced.core c1) = 0%nat
              /\ posting (Enhanced.core c1) = 1%nat)
     /\ ((0 < posting (Enhanced.core c))%nat ->
         forall r,
           let c1 := Enhanced.step c (Enhanced.PostSettled r) in
           loading (st (Enhanced.core c1)) = false
           /\ pending (Enhanced.core c1) = 0%nat))
  /\ (forall es,
        let c := Basic.run Basic.init es in
        mounted (Basic.core c) = true ->
        loading (st (Basic.core c)) = true ->
        (encoding (Basic.core c) = 1%nat /\ posting (Basic.core c) = 0%nat
         \/ encoding (Basic.core c) = 0%nat /\ posting (Basic.core c) = 1%nat)
        /\ ((0 < encoding (Basic.core c))%nat ->
            (let c1 := Basic.step c (Basic.BlobReady None) in
             loading (st (Basic.core c1)) = false
             /\ pending (Basic.core c1) = 0%nat
             /\ requests (Basic.core c1) = requests (Basic.core c))
            /\ forall b,
                 let c1 := Basic.step c (Basic.BlobReady (Some b)) in
                 mounted (Basic.core c1) = true
                 /\ loading (st (Basic.core c1)) = true
                 /\ encoding (Basic.core c1) = 0%nat
                 /\ posting (Basic.core c1) = 1%nat)
        /\ ((0 < posting (Basic.core c))%nat ->
            forall r,
              let c1 := Basic.step c (Basic.PostSettled r) in
              loading (st (Basic.core c1)) = false
              /\ pending (Basic.core c1) = 0%nat))
  /\ (forall es f,
        let c := Enhanced.run Enhanced.init es in
        let c' := Enhanced.step c (Enhanced.AnimationFrame f) in
        Enhanced.triggers c' <> Enhanced.triggers c ->
        mounted (Enhanced.core c') = true
        /\ loading (st (Enhanced.core c')) = true
        /\ encoding (Enhanced.core c') = 1%nat)
  /\ (forall es,
        let c := Basic.run Basic.init es in
        let c' := Basic.step c Basic.Tick in
        Basic.ticks c' <> Basic.ticks c ->
        mounted (Basic.core c') = true
        /\ loading (st (Basic.core c')) = true
        /\ encoding (Basic.core c') = 1%nat).
Proof.
  split; [|split; [|split]].
  - intros es c Hmo Hl.
    pose proof (EInv_reachable es) as Hinv. fold c in Hinv.
    destruct (loading_outstanding _ (einv_state _ Hinv)
                (Awaited_enhanced_reachable es) Hl)
      as (Hq & Hcase & Hn1 & Hn2 & Hb).
    split; [exact Hcase|]. split.
    + intros Hen. split.
      * cbv zeta. rewrite enhanced_blob_step by assumption.
        split; [exact Hn1|]. split; [now apply Hn2 | reflexivity].
      * intros b. cbv zeta. rewrite enhanced_blob_step by assumption.
        destruct (Hb b Hen) as (B1 & B2 & B3 & B4 & _).
        fold c in B1. rewrite B1. auto.
    + intros Hpo r.
      destruct (enhanced_settled_step es r Hmo Hpo) as (Es & Ep & _).
      cbv zeta. unfold c. rewrite Es. auto.
  - intros es c Hmo Hl.
    pose proof (BInv_reachable es) as Hinv. fold c in Hinv.
    destruct (loading_outstanding _ (binv_state _ Hinv)
                (Awaited_basic_reachable es) Hl)
      as (Hq & Hcase & Hn1 & Hn2 & Hb).
    split; [exact Hcase|]. split.
    + intros Hen. split.
      * cbv zeta. rewrite basic_blob_step by assumption.
        split; [exact Hn1|]. split; [now apply Hn2 | reflexivity].
      * intros b. cbv zeta. rewrite basic_blob_step by assumption.
        destruct (Hb b Hen) as (B1 & B2 & B3 & B4 & _).
        fold c in B1. rewrite B1. auto.
    + intros Hpo r.
      destruct (basic_settled_step es r Hmo Hpo) as (Es & Ep & _).
      cbv zeta. unfold c. rewrite Es. auto.
  - intros es f c c' Ht.
    destruct (enhanced_capture_registers es f Ht)
      as (_ & Hmo & _ & _ & Es & Een & _).
    fold c c' in Hmo, Es, Een. rewrite Es. auto.
  - intros es c c' Ht.
    destruct (basic_tick_registers es Ht)
      as (_ & Hmo & _ & _ & _ & _ & Hl & _ & Een & _).
    auto.
Qed.

Lemma loading_released_on_every_outcome_witness :
  let c := Enhanced.run Enhanced.init first_capture in
  let c2 := Enhanced.run Enhanced.init
              (first_capture ++ [Enhanced.BlobReady (Some JpegBlob)]) in
  let b := Basic.run Basic.init [Basic.CameraGranted [Live]; Basic.Tick] in
  let b2 := Basic.run Basic.init
              [Basic.CameraGranted [Live]; Basic.Tick;
               Basic.BlobReady (Some JpegBlob)] in
  loading (st (Enhanced.core c)) = true
  /\ loading (st (Enhanced.core (Enhanced.step c (Enhanced.BlobReady None))))
     = false
  /\ loading (st (Enhanced.core c2)) = true
  /\ loading
       (st (Enhanced.core
              (Enhanced.step c2
                 (Enhanced.PostSettled (Rejected (mkAxiosError None))))))
     = false
  /\ loading (st (Basic.core b)) = true
  /\ loading (st (Basic.core (Basic.step b (Basic.BlobReady None)))) = false
  /\ loading (st (Basic.core b2)) = true
  /\ loading (st (Basic.core (Basic.step b2 (Basic.PostSettled accepted))))
     = false.
Proof.
  cbv zeta.
  destruct loading_released_on_every_outcome as (HE & HB & _ & _).
  pose proof (HE first_capture eq_refl eq_refl) as (_ & HE1 & _).
  pose proof (HE (first_capture ++ [Enhanced.BlobReady (Some JpegBlob)])%list
                eq_refl eq_refl) as (_ & _ & HE2).
  pose proof (HB [Basic.CameraGranted [Live]; Basic.Tick] eq_refl eq_refl)
    as (_ & HB1 & _).
  pose proof (HB [Basic.CameraGranted [Live]; Basic.Tick;
                  Basic.BlobReady (Some JpegBlob)] eq_refl eq_refl)
    as (_ & _ & HB2).
  cbv zeta in HE1, HE2, HB1, HB2.
  destruct (HE1 (le_n 1)) as ((E1 & _) & _).
  destruct (HE2 (le_n 1) (Rejected (mkAxiosError None))) as (E2 & _).
  destruct (HB1 (le_n 1)) as ((B1 & _) & _).
  destruct (HB2 (le_n 1) accepted) as (B2 & _).
  split; [reflexivity|].
  split; [exact E1|].
  split; [reflexivity|].
  split; [exact E2|].
  split; [reflexivity|].
  split; [exact B1|].
  split; [reflexivity | exact B2].
Defined.

(** C4.  While a submission is in flight ([loading]) or a result is shown
    ([qrImage] set), a call of [scanFace] changes nothing in either variant:
    React state, refs, callbacks in flight and the count of requests are
    what they were.  A call that passes the guard sets [loading] and the
    status "Scanning face..." and registers exactly one [toBlob] callback,
    without sending anything itself, and a call that follows it is
    guarded.  In every run, a capture (a call of [scanFace] by
    [detectFaces] or by the timer) finds nothing in flight and leaves
    exactly one callback in flight; the frames and ticks that follow while
    it is in flight capture nothing, and the callback, given a blob, sends
    exactly one request. *)
Theorem scanFace_once_per_trigger (k : Core) :
  loading (st k) = true \/ truthy (qrImage (st k)) = true ->
  Enhanced.scanFace k = k
  /\ Basic.scanFace k = k
  /\ (forall k0,
        loading (st k0) = false -> truthy (qrImage (st k0)) = false ->
        attached (videoRef k0) = true ->
        let k1 := Enhanced.scanFace k0 in
        st k1 = mkState STATUS_SCANNING true (qrImage (st k0)) (user (st k0))
        /\ encoding k1 = S (encoding k0)
        /\ posting k1 = posting k0
        /\ requests k1 = requests k0
        /\ Enhanced.scanFace k1 = k1)
  /\ (forall k0,
        loading (st k0) = false -> truthy (qrImage (st k0)) = false ->
        attached (videoRef k0) = true -> attached (canvasRef k0) = true ->
        let k1 := Basic.scanFace k0 in
        st k1 = mkState STATUS_SCANNING true (qrImage (st k0)) (user (st k0))
        /\ encoding k1 = S (encoding k0)
        /\ posting k1 = posting k0
        /\ requests k1 = requests k0
        /\ Basic.scanFace k1 = k1)
  /\ (forall es f,
        let c := Enhanced.run Enhanced.init es in
        let c' := Enhanced.step c (Enhanced.AnimationFrame f) in
        Enhanced.triggers c' <> Enhanced.triggers c ->
        pending (Enhanced.core c) = 0%nat
        /\ encoding (Enhanced.core c') = 1%nat
        /\ posting (Enhanced.core c') = 0%nat
        /\ requests (Enhanced.core c') = requests (Enhanced.core c)
        /\ (forall f',
              let c2 := Enhanced.step c' (Enhanced.AnimationFrame f') in
              Enhanced.triggers c2 = Enhanced.triggers c'
              /\ Enhanced.core c2 = Enhanced.core c')
        /\ forall b,
             let c2 := Enhanced.step c' (Enhanced.BlobReady (Some b)) in
             requests (Enhanced.core c2) = S (requests (Enhanced.core c))
             /\ pending (Enhanced.core c2) = 1%nat)
  /\ (forall es,
        let c := Basic.run Basic.init es in
        let c' := Basic.step c Basic.Tick in
        Basic.ticks c' <> Basic.ticks c ->
        pending (Basic.core c) = 0%nat
        /\ encoding (Basic.core c') = 1%nat
        /\ posting (Basic.core c') = 0%nat
        /\ requests (Basic.core c') = requests (Basic.core c)
        /\ (let c2 := Basic.step c' Basic.Tick in
            Basic.ticks c2 = Basic.ticks c'
            /\ Basic.core c2 = Basic.core c')
        /\ forall b,
             let c2 := Basic.step c' (Basic.BlobReady (Some b)) in
             requests (Basic.core c2) = S (requests (Basic.core c))
             /\ pending (Basic.core c2) = 1%nat).
Proof.
  intros H.
  assert (loading (st k) || truthy (qrImage (st k)) = true) as E
    by (destruct H as [-> | ->]; [reflexivity | apply orb_true_r]).
  split; [now apply enhanced_scanFace_blocked|].
  split; [now apply basic_scanFace_blocked|].
  split; [|split; [|split]].
  - intros k0 Hl Hq Hv k1. subst k1.
    split; [|split; [|split; [|split]]];
      try apply enhanced_scanFace_once.
    all: unfold Enhanced.scanFace; rewrite Hl, Hq; simpl;
      destruct (videoRef k0); try discriminate; reflexivity.
  - intros k0 Hl Hq Hv Hc k1. subst k1.
    split; [|split; [|split; [|split]]];
      try apply basic_scanFace_once.
    all: unfold Basic.scanFace; rewrite Hl, Hq, Hv, Hc; reflexivity.
  - intros es f c c' Ht.
    destruct (enhanced_capture_registers es f Ht)
      as (_ & Hmo & _ & Hp & Es & Een & Epo & Er).
    fold c c' in Hmo, Hp, Es, Een, Epo, Er.
    assert (loading (st (Enhanced.core c')) = true) as Hl
      by now rewrite Es.
    split; [exact Hp|]. split; [exact Een|]. split; [exact Epo|].
    split; [exact Er|]. split.
    + intros f' c2.
      destruct (frame_step_cases c' f') as [[Ek Et] | (_ & _ & _ & _ & F & _)];
        [fold c2 in Ek, Et; auto | congruence].
    + intros b c2.
      assert (truthy (qrImage (st (Enhanced.core c'))) = false) as Hq.
      { pose proof (EInv_step c (Enhanced.AnimationFrame f)
                      (EInv_reachable es)) as Hinv.
        fold c' in Hinv.
        destruct (truthy (qrImage (st (Enhanced.core c')))) eqn:Eq;
          [|reflexivity].
        destruct (sinv_result _ (einv_state _ Hinv) Eq). congruence. }
      subst c2. rewrite enhanced_blob_step by (try assumption; lia).
      unfold blobCallback, pending. simpl. rewrite Er, Een, Epo. auto.
  - intros es c c' Ht.
    destruct (basic_tick_registers es Ht)
      as (_ & Hmo & _ & Hp & _ & _ & Hl & _ & Een & Epo & Er).
    fold c c' in Hmo, Hp, Hl, Een, Epo, Er.
    pose proof (BInv_step c Basic.Tick (BInv_reachable es)) as Hinv.
    fold c' in Hinv.
    split; [exact Hp|]. split; [exact Een|]. split; [exact Epo|].
    split; [exact Er|]. split.
    + intros c2. subst c2. unfold Basic.step. rewrite Hmo.
      simpl Basic.handle. rewrite (binv_interval _ Hinv), Hmo.
      unfold Basic.runEffect. rewrite Hl, andb_false_r. simpl.
      destruct (basic_commit_quiet c' c' eq_refl) as (Ek & _ & Et). auto.
    + intros b c2.
      assert (truthy (qrImage (st (Basic.core c'))) = false) as Hq.
      { destruct (truthy (qrImage (st (Basic.core c')))) eqn:Eq;
          [|reflexivity].
        destruct (sinv_result _ (binv_state _ Hinv) Eq). congruence. }
      subst c2. rewrite basic_blob_step by (try assumption; lia).
      unfold blobCallback, pending. simpl. rewrite Er, Een, Epo. auto.
Qed.

Lemma scanFace_once_per_trigger_witness :
  let es := [Enhanced.ModelsLoaded; Enhanced.CameraGranted [Live];
             seen 1 10000] in
  let c := Enhanced.run Enhanced.init es in
  let c' := Enhanced.step c
              (Enhanced.AnimationFrame (Enhanced.mkFrame 11001 1 true)) in
  loading (st (Enhanced.core c')) = true
  /\ Enhanced.triggers c = []
  /\ Enhanced.triggers c' = [11001%Z]
  /\ Enhanced.scanFace (Enhanced.core c') = Enhanced.core c'
  /\ Basic.scanFace (Enhanced.core c') = Enhanced.core c'
  /\ encoding (Enhanced.scanFace (Enhanced.core c))
     = S (encoding (Enhanced.core c))
  /\ encoding (Enhanced.core c') = 1%nat
  /\ Enhanced.triggers
       (Enhanced.step c'
          (Enhanced.AnimationFrame (Enhanced.mkFrame 15000 1 true)))
     = Enhanced.triggers c'
  /\ requests
       (Enhanced.core (Enhanced.step c' (Enhanced.BlobReady (Some JpegBlob))))
     = S (requests (Enhanced.core c)).
Proof.
  intros es c c'.
  assert (loading (st (Enhanced.core c')) = true) as Hl
    by (vm_compute; reflexivity).
  assert (Enhanced.triggers c = []) as Ht0 by (vm_compute; reflexivity).
  assert (Enhanced.triggers c' = [11001%Z]) as Ht1
    by (vm_compute; reflexivity).
  assert (Enhanced.triggers c' <> Enhanced.triggers c) as Ht
    by (rewrite Ht0, Ht1; discriminate).
  assert (loading (st (Enhanced.core c)) = false) as Hl0
    by (vm_compute; reflexivity).
  assert (truthy (qrImage (st (Enhanced.core c))) = false) as Hq0
    by (vm_compute; reflexivity).
  assert (attached (videoRef (Enhanced.core c)) = true) as Hv0
    by (vm_compute; reflexivity).
  pose proof (scanFace_once_per_trigger (Enhanced.core c') (or_introl Hl))
    as (H1 & H2 & H3 & _ & H5 & _).
  destruct (H3 (Enhanced.core c) Hl0 Hq0 Hv0) as (_ & K & _).
  destruct (H5 es (Enhanced.mkFrame 11001 1 true) Ht)
    as (_ & T1 & _ & _ & T2 & T3).
  destruct (T2 (Enhanced.mkFrame 15000 1 true)) as [T4 _].
  destruct (T3 JpegBlob) as [T5 _].
  split; [exact Hl|].
  split; [exact Ht0|].
  split; [exact Ht1|].
  split; [exact H1|].
  split; [exact H2|].
  split; [exact K|].
  split; [exact T1|].
  split; [exact T4 | exact T5].
Defined.

(** ** Scan again *)

(** The core after "Scan Again" on a displayed result: React state is
    reset, the video and canvas are rendered anew, all else is kept. *)
Lemma reset_core (shown : Core) :
  truthy (qrImage (st shown)) = true ->
  reconcile (st shown) (with_st resetScan shown)
  = mkCore (mkState STATUS_IDLE (loading (st shown)) None None)
      (Some (mkVideo None)) (Some CanvasNode) (heap shown)
      (cameraPending shown) (encoding shown) (posting shown)
      (requests shown) (mounted shown).
Proof. intros Hq. unfold reconcile. simpl. now rewrite Hq. Qed.

Lemma truthy_not_none (v : option string) : truthy v = true -> v <> None.
Proof. now destruct v. Qed.

Lemma enhanced_reset_step (es : list Enhanced.Event) :
  let c := Enhanced.run Enhanced.init es in
  mounted (Enhanced.core c) = true ->
  truthy (qrImage (st (Enhanced.core c))) = true ->
  let c' := Enhanced.step c Enhanced.ScanAgain in
  Enhanced.core c'
  = mkCore (mkState STATUS_IDLE false None None)
      (Some (mkVideo None)) (Some CanvasNode) (heap (Enhanced.core c))
      (cameraPending (Enhanced.core c)) 0 0
      (requests (Enhanced.core c)) true
  /\ loading (st (Enhanced.core c)) = false
  /\ pending (Enhanced.core c) = 0%nat
  /\ Enhanced.modelLoaded c = true
  /\ Enhanced.modelLoaded c' = true
  /\ Enhanced.loop c' = Some (Enhanced.mkLoop 0 0)
  /\ Enhanced.triggers c' = Enhanced.triggers c.
Proof.
  intros c Hmo Hq c'.
  pose proof (EInv_reachable es) as Hinv. fold c in Hinv.
  destruct (sinv_result _ (einv_state _ Hinv) Hq) as [Hl Hp].
  pose proof (EInv_result_loaded c Hinv Hq) as Hml.
  subst c'. unfold Enhanced.step. rewrite Hmo. simpl Enhanced.handle.
  rewrite Hq.
  rewrite commit_core, commit_modelLoaded, commit_loop, commit_triggers.
  simpl Enhanced.core. rewrite reset_core by exact Hq.
  rewrite deps_eqb_qrImage
    by (simpl; now apply truthy_not_none).
  simpl. rewrite Hml, Hl, Hmo. unfold pending in Hp.
  replace (encoding (Enhanced.core c)) with 0%nat by lia.
  replace (posting (Enhanced.core c)) with 0%nat by lia.
  repeat split; auto.
Qed.

Lemma basic_reset_step (es : list Basic.Event) :
  let c := Basic.run Basic.init es in
  mounted (Basic.core c) = true ->
  truthy (qrImage (st (Basic.core c))) = true ->
  let c' := Basic.step c Basic.ScanAgain in
  Basic.core c'
  = mkCore (mkState STATUS_IDLE false None None)
      (Some (mkVideo None)) (Some CanvasNode) (heap (Basic.core c))
      (cameraPending (Basic.core c)) 0 0
      (requests (Basic.core c)) true
  /\ loading (st (Basic.core c)) = false
  /\ pending (Basic.core c) = 0%nat
  /\ Basic.interval c' = true
  /\ Basic.ticks c' = Basic.ticks c.
Proof.
  intros c Hmo Hq c'.
  pose proof (BInv_reachable es) as Hinv. fold c in Hinv.
  destruct (sinv_result _ (binv_state _ Hinv) Hq) as [Hl Hp].
  subst c'. unfold Basic.step. rewrite Hmo. simpl Basic.handle.
  rewrite Hq.
  rewrite basic_commit_core, basic_commit_interval, basic_commit_ticks.
  simpl Basic.core. rewrite reset_core by exact Hq.
  rewrite basic_deps_eqb_qrImage
    by (simpl; now apply truthy_not_none).
  simpl. rewrite Hl, Hmo. unfold pending in Hp.
  replace (encoding (Basic.core c)) with 0%nat by lia.
  replace (posting (Basic.core c)) with 0%nat by lia.
  repeat split; auto.
  unfold Basic.runEffect. simpl. now rewrite Hl.
Qed.

(** *** The camera after "Scan Again" *)

Lemma granted_handle (e : Enhanced.Event) (c : Enhanced.Component) :
  Granted c -> Granted (Enhanced.handle e c).
Proof.
  intros [Hcp Hmp]. unfold Granted.
  destruct e; simpl Enhanced.handle; rewrite ?Hcp, ?Hmp; auto.
  - destruct (Enhanced.loop c) as [l|]; auto.
    destruct (detectFaces_models f l c) as [_ ->].
    split; [|exact Hmp].
    destruct (detectFaces_core f l c) as [-> | ->]; [exact Hcp|].
    pose proof (scanFace_frame (Enhanced.core c)) as (_ & _ & _ & _ & E & _).
    now rewrite E.
  - case_match; auto. simpl. split; [|exact Hmp].
    unfold blobCallback. now destruct blob.
  - case_match; auto.
  - case_match; auto.
Qed.

Lemma granted_step (c : Enhanced.Component) (e : Enhanced.Event) :
  Granted c -> Granted (Enhanced.step c e).
Proof.
  intros H. unfold Enhanced.step.
  destruct (mounted (Enhanced.core c)); [|exact H].
  assert (Granted (Enhanced.commit c (Enhanced.handle e c))) as Hc.
  { unfold Granted. rewrite commit_core, commit_modelsPending.
    destruct (reconcile_counts (st (Enhanced.core c))
                (Enhanced.core (Enhanced.handle e c))) as (_ & -> & _).
    now apply granted_handle. }
  destruct e; try exact Hc. exact H.
Qed.

(** Without a stream in the video element a frame captures nothing. *)
Lemma detectFaces_dark (f : Enhanced.Frame) (l : Enhanced.Loop)
    (c : Enhanced.Component) :
  hasStream (videoRef (Enhanced.core c)) = false ->
  Enhanced.core (Enhanced.detectFaces f l c) = Enhanced.core c
  /\ Enhanced.triggers (Enhanced.detectFaces f l c) = Enhanced.triggers c.
Proof.
  intros H. unfold Enhanced.detectFaces. rewrite H, andb_false_r.
  simpl. now case_match.
Qed.

Lemma CameraInv_commit (c c1 : Enhanced.Component) :
  truthy (qrImage (st (Enhanced.core c))) = false ->
  truthy (qrImage (st (Enhanced.core c1))) = false ->
  CameraInv c1 -> CameraInv (Enhanced.commit c c1).
Proof.
  intros Hq Hq1 H. unfold CameraInv, Granted in *.
  rewrite commit_core, commit_modelsPending.
  rewrite reconcile_unchanged by congruence. exact H.
Qed.

Lemma CameraInv_step (c : Enhanced.Component) (e : Enhanced.Event) :
  CameraInv c -> CameraInv (Enhanced.step c e).
Proof.
  intros [H | (Hp & Hs & Hq & Hfl)]; [left; now apply granted_step|].
  unfold Enhanced.step.
  destruct (mounted (Enhanced.core c)); [|right; auto].
  unfold pending in Hp.
  assert (encoding (Enhanced.core c) = 0%nat
          /\ posting (Enhanced.core c) = 0%nat) as [Hen Hpo] by lia.
  assert (CameraInv c) as Hc by (right; unfold pending; auto).
  destruct e; try apply CameraInv_commit; try exact Hq;
    simpl Enhanced.handle; rewrite ?Hen, ?Hpo, ?Hq; simpl;
    try exact Hq; try exact Hc; try reflexivity.
  - (* ModelsLoaded *)
    now destruct (Enhanced.modelsPending c).
  - destruct (Enhanced.modelsPending c) eqn:Emp; [|exact Hc].
    right. unfold pending. simpl. repeat split; auto.
  - (* ModelsFailed *)
    now destruct (Enhanced.modelsPending c).
  - destruct (Enhanced.modelsPending c) eqn:Emp; [|exact Hc].
    left. split; simpl; auto.
  - (* CameraGranted *)
    destruct (cameraPending (Enhanced.core c)); [|exact Hq].
    simpl. now destruct (cameraGranted_frame tracks (Enhanced.core c))
      as (-> & _).
  - destruct (cameraPending (Enhanced.core c)) eqn:Ecp; [|exact Hc].
    left. split; simpl.
    + unfold cameraGranted. now destruct (videoRef (Enhanced.core c)).
    + destruct (Enhanced.modelsPending c); [|reflexivity].
      specialize (Hfl eq_refl). congruence.
  - (* CameraDenied *)
    now destruct (cameraPending (Enhanced.core c)).
  - destruct (cameraPending (Enhanced.core c)) eqn:Ecp; [|exact Hc].
    left. split; simpl; [reflexivity|].
    destruct (Enhanced.modelsPending c); [|reflexivity].
    specialize (Hfl eq_refl). congruence.
  - (* AnimationFrame *)
    destruct (Enhanced.loop c) as [l|]; [|exact Hq].
    destruct (detectFaces_dark f l c Hs) as [-> _]. exact Hq.
  - destruct (Enhanced.loop c) as [l|]; [|exact Hc].
    destruct (detectFaces_dark f l c Hs) as [Ek _].
    destruct (detectFaces_models f l c) as [_ Emp].
    right. unfold pending. rewrite Ek, Emp. auto.
Qed.

Lemma CameraInv_reachable (es : list Enhanced.Event) :
  CameraInv (Enhanced.run Enhanced.init es).
Proof.
  assert (forall c, CameraInv c -> CameraInv (Enhanced.run c es)) as H.
  { induction es as [|e es IH]; intros c Hc; simpl; [exact Hc|].
    apply IH. now apply CameraInv_step. }
  apply H. right. repeat split; reflexivity.
Qed.

(** A blind component ignores every event but the teardown. *)
Lemma blind_handle (e : Enhanced.Event) (c : Enhanced.Component) :
  Blind c ->
  Enhanced.core (Enhanced.handle e c) = Enhanced.core c
  /\ Enhanced.triggers (Enhanced.handle e c) = Enhanced.triggers c
  /\ Enhanced.modelLoaded (Enhanced.handle e c) = Enhanced.modelLoaded c
  /\ Enhanced.modelsPending (Enhanced.handle e c) = Enhanced.modelsPending c.
Proof.
  intros ((Hcp & Hmp) & Hp & Hs & Hq). unfold pending in Hp.
  assert (encoding (Enhanced.core c) = 0%nat
          /\ posting (Enhanced.core c) = 0%nat) as [Hen Hpo] by lia.
  destruct e; simpl Enhanced.handle;
    rewrite ?Hcp, ?Hmp, ?Hen, ?Hpo, ?Hq; simpl; auto.
  destruct (Enhanced.loop c) as [l|]; auto.
  destruct (detectFaces_dark f l c Hs) as [-> ->].
  destruct (detectFaces_models f l c) as [-> ->]. auto.
Qed.

Lemma blind_step (c : Enhanced.Component) (e : Enhanced.Event) :
  Blind c ->
  Blind (Enhanced.step c e)
  /\ st (Enhanced.core (Enhanced.step c e)) = st (Enhanced.core c)
  /\ requests (Enhanced.core (Enhanced.step c e))
     = requests (Enhanced.core c)
  /\ Enhanced.triggers (Enhanced.step c e) = Enhanced.triggers c.
Proof.
  intros H. unfold Enhanced.step.
  destruct (mounted (Enhanced.core c)); [|auto].
  destruct (blind_handle e c H) as (Ek & Et & Eml & Emp).
  destruct (commit_quiet c (Enhanced.handle e c)) as [Ec _];
    [congruence..|].
  assert (Blind (Enhanced.commit c (Enhanced.handle e c))
          /\ st (Enhanced.core (Enhanced.commit c (Enhanced.handle e c)))
             = st (Enhanced.core c)
          /\ requests (Enhanced.core
                         (Enhanced.commit c (Enhanced.handle e c)))
             = requests (Enhanced.core c)
          /\ Enhanced.triggers (Enhanced.commit c (Enhanced.handle e c))
             = Enhanced.triggers c) as Hc.
  { unfold Blind, Granted.
    rewrite Ec, Ek, commit_modelsPending, commit_triggers, Emp, Et.
    split; [exact H|auto]. }
  destruct e; try exact Hc.
  destruct H as ((Hcp & Hmp) & Hp & Hs & Hq).
  unfold Blind, Granted, Enhanced.unmount, pending. simpl. auto.
Qed.

Lemma blind_run (es : list Enhanced.Event) (c : Enhanced.Component) :
  Blind c ->
  Blind (Enhanced.run c es)
  /\ st (Enhanced.core (Enhanced.run c es)) = st (Enhanced.core c)
  /\ requests (Enhanced.core (Enhanced.run c es))
     = requests (Enhanced.core c)
  /\ Enhanced.triggers (Enhanced.run c es) = Enhanced.triggers c.
Proof.
  revert c. induction es as [|e es IH]; intros c H; simpl; [auto|].
  destruct (blind_step c e H) as (H1 & Es & Er & Et).
  destruct (IH _ H1) as (H2 & Es' & Er' & Et').
  repeat match goal with |- _ /\ _ => split end; congruence.
Qed.

(** C7.  "Scan Again" on a reachable, mounted component that shows a result
    empties [qrImage] and [user] and sets the status to "Idle"; [loading]
    (false at that point), the media streams, the model flag and the
    request counters are what they were, and the effect is run again: the
    enhanced component has a fresh detection loop, the basic component its
    timer.  But the video element rendered in place of the result card is
    a new one, and nothing assigns the stream to it.  In the enhanced
    component no frame passes the playing test from then on: whatever
    happens next, no capture is made, no request is sent, and the state
    stays idle.  In the basic component the next tick of the timer calls
    [scanFace] past the guard, which draws from that video element. *)
Theorem scan_again_never_captures :
  (forall es,
     let c := Enhanced.run Enhanced.init es in
     mounted (Enhanced.core c) = true ->
     truthy (qrImage (st (Enhanced.core c))) = true ->
     let c' := Enhanced.step c Enhanced.ScanAgain in
     st (Enhanced.core c')
     = mkState STATUS_IDLE (loading (st (Enhanced.core c))) None None
     /\ loading (st (Enhanced.core c)) = false
     /\ heap (Enhanced.core c') = heap (Enhanced.core c)
     /\ Enhanced.modelLoaded c' = Enhanced.modelLoaded c
     /\ pending (Enhanced.core c') = pending (Enhanced.core c)
     /\ requests (Enhanced.core c') = requests (Enhanced.core c)
     /\ Enhanced.loop c' = Some (Enhanced.mkLoop 0 0)
     /\ videoRef (Enhanced.core c') = Some (mkVideo None)
     /\ forall es',
          let c2 := Enhanced.run c' es' in
          Enhanced.triggers c2 = Enhanced.triggers c
          /\ requests (Enhanced.core c2) = requests (Enhanced.core c)
          /\ st (Enhanced.core c2) = mkState STATUS_IDLE false None None
          /\ hasStream (videoRef (Enhanced.core c2)) = false)
  /\ (forall es,
        let c := Basic.run Basic.init es in
        mounted (Basic.core c) = true ->
        truthy (qrImage (st (Basic.core c))) = true ->
        let c' := Basic.step c Basic.ScanAgain in
        st (Basic.core c')
        = mkState STATUS_IDLE (loading (st (Basic.core c))) None None
        /\ heap (Basic.core c') = heap (Basic.core c)
        /\ pending (Basic.core c') = pending (Basic.core c)
        /\ requests (Basic.core c') = requests (Basic.core c)
        /\ Basic.interval c' = true
        /\ videoRef (Basic.core c') = Some (mkVideo None)
        /\ let c2 := Basic.step c' Basic.Tick in
           Basic.ticks c2 = S (Basic.ticks c)
           /\ loading (st (Basic.core c2)) = true
           /\ encoding (Basic.core c2) = 1%nat
           /\ videoRef (Basic.core c2) = Some (mkVideo None)).
Proof.
  split; intros es c Hmo Hq c'.
  - destruct (enhanced_reset_step es Hmo Hq)
      as (Ek & Hl & Hp & Hml & Hml' & Elp & Et).
    fold c c' in Ek, Hl, Hp, Hml, Hml', Elp, Et.
    split; [rewrite Ek, Hl; reflexivity|].
    split; [exact Hl|].
    split; [rewrite Ek; reflexivity|].
    split; [congruence|].
    split; [rewrite Ek, Hp; reflexivity|].
    split; [rewrite Ek; reflexivity|].
    split; [exact Elp|].
    split; [rewrite Ek; reflexivity|].
    intros es' c2.
    assert (Granted c) as [Hcp Hmp].
    { destruct (CameraInv_reachable es) as [H | (_ & _ & H & _)];
        [exact H|]. fold c in H. congruence. }
    assert (Blind c') as Hb.
    { unfold Blind, Granted. rewrite Ek. simpl.
      repeat match goal with |- _ /\ _ => split end; auto.
      subst c'. unfold Enhanced.step. rewrite Hmo.
      now rewrite commit_modelsPending; simpl; rewrite Hq. }
    destruct (blind_run es' c' Hb) as ((_ & _ & Hs & _) & Es & Er & Et').
    fold c2 in Hs, Es, Er, Et'.
    split; [congruence|].
    split; [rewrite Er, Ek; reflexivity|].
    split; [rewrite Es, Ek; reflexivity | exact Hs].
  - destruct (basic_reset_step es Hmo Hq) as (Ek & Hl & Hp & Ei & Et).
    fold c c' in Ek, Hl, Hp, Ei, Et.
    split; [rewrite Ek, Hl; reflexivity|].
    split; [rewrite Ek; reflexivity|].
    split; [rewrite Ek, Hp; reflexivity|].
    split; [rewrite Ek; reflexivity|].
    split; [exact Ei|].
    split; [rewrite Ek; reflexivity|].
    intros c2.
    destruct (basic_tick_fires c') as (Ft & Fl & _ & Fe & _);
      try (rewrite Ek; reflexivity); try exact Ei.
    fold c2 in Ft, Fl, Fe. rewrite Ek in Fe. simpl in Fe.
    split; [congruence|]. split; [exact Fl|]. split; [exact Fe|].
    subst c2. unfold Basic.step. rewrite Ek at 1. simpl mounted. cbv iota.
    simpl Basic.handle. rewrite Ei, basic_commit_core. simpl Basic.core.
    pose proof (basic_scanFace_frame (Basic.core c'))
      as (Fv & _ & _ & _ & _ & _ & _ & Fq & _).
    rewrite reconcile_unchanged by now rewrite Fq.
    rewrite Fv, Ek. reflexivity.
Qed.

Lemma scan_again_never_captures_witness :
  let c := Enhanced.run Enhanced.init
             (first_capture
              ++ [Enhanced.BlobReady (Some JpegBlob);
                  Enhanced.PostSettled accepted]) in
  let c' := Enhanced.step c Enhanced.ScanAgain in
  let b := Basic.run Basic.init
             [Basic.CameraGranted [Live]; Basic.Tick;
              Basic.BlobReady (Some JpegBlob); Basic.PostSettled accepted] in
  let b' := Basic.step b Basic.ScanAgain in
  truthy (qrImage (st (Enhanced.core c))) = true
  /\ truthy (qrImage (st (Basic.core b))) = true
  /\ st (Enhanced.core c') = mkState STATUS_IDLE false None None
  /\ Enhanced.loop c' = Some (Enhanced.mkLoop 0 0)
  /\ videoRef (Enhanced.core c') = Some (mkVideo None)
  /\ heap (Enhanced.core c') = [[Live]]
  /\ Enhanced.triggers
       (Enhanced.run c' [seen 1 20000; seen 1 21001; seen 1 30000;
                         seen 1 40000])
     = [11001%Z]
  /\ st (Basic.core b') = mkState STATUS_IDLE false None None
  /\ videoRef (Basic.core b') = Some (mkVideo None)
  /\ Basic.ticks (Basic.step b' Basic.Tick) = 2%nat.
Proof.
  cbv zeta.
  destruct scan_again_never_captures as [HE HB].
  specialize (HE (first_capture
                  ++ [Enhanced.BlobReady (Some JpegBlob);
                      Enhanced.PostSettled accepted])%list).
  specialize (HB [Basic.CameraGranted [Live]; Basic.Tick;
                  Basic.BlobReady (Some JpegBlob);
                  Basic.PostSettled accepted]).
  cbv zeta in HE, HB.
  destruct (HE eq_refl eq_refl) as (HE1 & _ & HE2 & _ & _ & _ & HE3 & HE4 & HE5).
  destruct (HB eq_refl eq_refl) as (HB1 & _ & _ & _ & _ & HB2 & HB3 & _).
  destruct (HE5 [seen 1 20000; seen 1 21001; seen 1 30000; seen 1 40000])
    as (HE6 & _).
  split; [reflexivity|].
  split; [reflexivity|].
  split; [exact HE1|].
  split; [exact HE3|].
  split; [exact HE4|].
  split; [exact HE2|].
  split; [exact HE6|].
  split; [exact HB1|].
  split; [exact HB2 | exact HB3].
Defined.

(** ** Releasing the camera *)

Lemma stopTracks_none_live (s : Stream) :
  List.filter is_live (stopTracks s) = [].
Proof. induction s as [|t s IH]; simpl; auto. Qed.

(** [stopCamera] ends every track of the stream bound to the video element
    the ref points to, and touches no other stream. *)
Lemma stopCamera_bound (v : Video) (h : nat) (hp : list Stream) (s : Stream) :
  srcObject v = Some h ->
  hp !! h = Some s ->
  stopCamera (Some v) hp !! h = Some (stopTracks s)
  /\ forall j, j <> h -> stopCamera (Some v) hp !! j = hp !! j.
Proof.
  intros Hv Hs. unfold stopCamera. rewrite Hv. split.
  - now rewrite list_lookup_alter_eq, Hs.
  - intros j Hj. apply list_lookup_alter_ne. congruence.
Qed.

(** Without a video element, or with one that has no stream, [stopCamera]
    stops nothing. *)
Lemma stopCamera_unbound (r : option Video) (hp : list Stream) :
  r = None \/ r = Some (mkVideo None) -> stopCamera r hp = hp.
Proof. intros [-> | ->]; reflexivity. Qed.

(** Unmounting while the video element holds the stream ends every track
    of that stream. *)
Lemma unmount_stops_bound_stream (c : Enhanced.Component) (v : Video)
    (h : nat) (s : Stream) :
  mounted (Enhanced.core c) = true ->
  videoRef (Enhanced.core c) = Some v ->
  srcObject v = Some h ->
  heap (Enhanced.core c) !! h = Some s ->
  heap (Enhanced.core (Enhanced.step c Enhanced.Unmount)) !! h
  = Some (stopTracks s)
  /\ List.filter is_live (stopTracks s) = [].
Proof.
  intros Hmo Hv Hs Hh. unfold Enhanced.step. rewrite Hmo. simpl.
  rewrite Hv. split; [|apply stopTracks_none_live].
  now apply stopCamera_bound.
Qed.

(** C8.  The claim: after unmount no track of the acquired stream is live.
    [stopCamera] reaches the stream only through the video element, and
    that element is not rendered while a result is shown and is a new
    element, without stream, after "Scan Again".  In [capture_then_leave]
    and in [capture_again_then_leave] the component is unmounted and the
    one track of the camera is still live; in [look_then_leave], where no
    result was ever shown, both tracks are ended. *)
Theorem unmount_after_result_leaves_track_live :
  let c := Enhanced.run Enhanced.init capture_then_leave in
  let c' := Enhanced.run Enhanced.init capture_again_then_leave in
  let c0 := Enhanced.run Enhanced.init look_then_leave in
  (mounted (Enhanced.core c) = false
   /\ heap (Enhanced.core c) = [[Live]]
   /\ live_tracks (heap (Enhanced.core c)) = 1%nat)
  /\ (mounted (Enhanced.core c') = false
      /\ heap (Enhanced.core c') = [[Live]]
      /\ live_tracks (heap (Enhanced.core c')) = 1%nat)
  /\ (mounted (Enhanced.core c0) = false
      /\ heap (Enhanced.core c0) = [[Ended; Ended]]
      /\ live_tracks (heap (Enhanced.core c0)) = 0%nat).
Proof. vm_compute. repeat split; reflexivity. Qed.

(** ** The detection effect is run again on every state change *)

Lemma commit_restarts (before after : Enhanced.Component) :
  loading (st (Enhanced.core before)) <> loading (st (Enhanced.core after))
  \/ status (st (Enhanced.core before)) <> status (st (Enhanced.core after))
  \/ qrImage (st (Enhanced.core before)) <> qrImage (st (Enhanced.core after)) ->
  Enhanced.loop (Enhanced.commit before after)
  = if Enhanced.modelLoaded after
       && negb (truthy (qrImage (st (Enhanced.core after))))
    then Some (Enhanced.mkLoop 0 0) else None.
Proof.
  intros H. rewrite commit_loop.
  replace (Enhanced.deps_eqb before after) with false; [reflexivity|].
  symmetry. destruct H as [H|[H|H]].
  - now apply deps_eqb_loading.
  - now apply deps_eqb_status.
  - now apply deps_eqb_qrImage.
Qed.

(** C9.  In the enhanced variant a commit in which [loading], [status] or
    [qrImage] differs from the previous commit discards the variables of
    the detection effect; the effect that replaces it, if [modelLoaded &&
    !qrImage], starts with [lastScanTime] and [firstDetectionTime] at 0.
    So, when the request of a reachable, mounted component settles, a loop
    that exists afterwards has both variables at 0, whenever the previous
    capture was; and unless the submission succeeded or left the success
    marker as status, the next capture comes with the second of two frames
    with a face more than the stability window apart, however soon after
    the previous capture ([t2 > 3000] holds for every clock reading). *)
Theorem state_change_restarts_detection :
  (forall before after,
     loading (st (Enhanced.core before)) <> loading (st (Enhanced.core after))
     \/ status (st (Enhanced.core before)) <> status (st (Enhanced.core after))
     \/ qrImage (st (Enhanced.core before))
        <> qrImage (st (Enhanced.core after)) ->
     forall l, Enhanced.loop (Enhanced.commit before after) = Some l ->
       Enhanced.lastScanTime l = 0%Z /\ Enhanced.firstDetectionTime l = 0%Z)
  /\ (forall es r,
        let c := Enhanced.run Enhanced.init es in
        mounted (Enhanced.core c) = true ->
        (0 < posting (Enhanced.core c))%nat ->
        let c' := Enhanced.step c (Enhanced.PostSettled r) in
        (forall l, Enhanced.loop c' = Some l -> l = Enhanced.mkLoop 0 0)
        /\ (failed r = true ->
            status (st (Enhanced.core c')) <> STATUS_QR_GENERATED ->
            Enhanced.loop c' = Some (Enhanced.mkLoop 0 0)
            /\ forall n1 n2 t1 t2,
                 (0 < n1)%nat -> (0 < n2)%nat -> t1 <> 0%Z ->
                 (t2 - t1 > Enhanced.DETECTION_STABILITY_DELAY)%Z ->
                 (t2 > Enhanced.SCAN_COOLDOWN)%Z ->
                 Enhanced.triggers (Enhanced.run c' [seen n1 t1; seen n2 t2])
                 = t2 :: Enhanced.triggers c)).
Proof.
  split.
  - intros before after H l. rewrite (commit_restarts before after H).
    case_match; [|discriminate]. intros [= <-]. auto.
  - intros es r c Hmo Hpo c'.
    destruct (enhanced_settled_step es r Hmo Hpo)
      as (_ & _ & _ & _ & _ & _ & _ & Hld & _).
    fold c in Hld.
    assert (Enhanced.loop c'
            = if Enhanced.modelLoaded (Enhanced.with_core (postSettled r) c)
                 && negb (truthy (qrImage (st (Enhanced.core
                            (Enhanced.with_core (postSettled r) c)))))
              then Some (Enhanced.mkLoop 0 0) else None) as El.
    { subst c'. unfold Enhanced.step. rewrite Hmo. simpl Enhanced.handle.
      apply Nat.ltb_lt in Hpo as ->. apply commit_restarts.
      left. simpl. rewrite Hld. discriminate. }
    split.
    + intros l. rewrite El. case_match; [|discriminate]. now intros [= <-].
    + intros Hf Hs.
      destruct (enhanced_failure_rearms es r Hf Hmo Hpo)
        as (_ & Hl' & _ & _ & Elp & Hd & _ & Et).
      fold c c' in Hl', Elp, Hd, Et.
      split; [exact Elp|].
      intros n1 n2 t1 t2 Hn1 Hn2 Ht1 Hw Hc.
      destruct (armed_loop_fires c' n1 n2 t1 t2 Hd Elp Hl' Hs Hn1 Hn2 Ht1 Hw Hc)
        as (Ft & _).
      congruence.
Qed.

Lemma state_change_restarts_detection_witness :
  let c := Enhanced.run Enhanced.init
             (first_capture ++ [Enhanced.BlobReady (Some JpegBlob)]) in
  let c' := Enhanced.step c (Enhanced.PostSettled unknown_face) in
  Enhanced.triggers c = [11001%Z]
  /\ Enhanced.loop c' = Some (Enhanced.mkLoop 0 0)
  /\ Enhanced.triggers (Enhanced.run c' [seen 1 11200; seen 1 12201])
     = [12201; 11001]%Z
  /\ (12201 - 11001 < Enhanced.SCAN_COOLDOWN)%Z.
Proof.
  cbv zeta.
  destruct state_change_restarts_detection as [_ H].
  specialize (H (first_capture ++ [Enhanced.BlobReady (Some JpegBlob)])%list
                unknown_face).
  cbv zeta in H.
  destruct (H eq_refl (le_n 1)) as [_ H2].
  assert (status
            (st (Enhanced.core
                   (Enhanced.step
                      (Enhanced.run Enhanced.init
                         (first_capture
                          ++ [Enhanced.BlobReady (Some JpegBlob)]))
                      (Enhanced.PostSettled unknown_face))))
          <> STATUS_QR_GENERATED) as Hs by (vm_compute; discriminate).
  destruct (H2 eq_refl Hs) as [H3 H4].
  assert (11200 <> 0)%Z as Ht by discriminate.
  split; [reflexivity|].
  split; [exact H3|].
  split; [|reflexivity].
  exact (H4 1%nat 1%nat 11200%Z 12201%Z (le_n 1) (le_n 1) Ht eq_refl eq_refl).
Defined.

(** * More of the component *)

(** ** What the status says while a submission is in flight *)

Ltac shown_intro H :=
  destruct H as [?Hsc ?Hrs]; unfold pending in *; simpl in *.

Ltac shown_close :=
  split; unfold pending; simpl; intros;
  repeat match goal with
         | H : ?a = true -> _, H' : ?a = true |- _ => specialize (H H')
         | H : (0 < ?n)%nat -> _ |- _ =>
             let L := fresh in
             assert (0 < n)%nat as L by lia; specialize (H L); clear L
         end;
  intuition (try discriminate; try congruence; try lia).

Lemma Shown_quiet (k k' : Core) :
  st k' = st k -> pending k' = pending k -> Shown k -> Shown k'.
Proof.
  intros Es Ep [H1 H2]. split; rewrite Es, ?Ep; assumption.
Qed.

Lemma Shown_reconcile (shown : State) (k : Core) :
  Shown k -> Shown (reconcile shown k).
Proof.
  apply Shown_quiet; [apply reconcile_st | apply reconcile_pending].
Qed.

Lemma Shown_setStatus (x : string) (k : Core) :
  pending k = 0%nat -> truthy (qrImage (st k)) = false ->
  Shown (with_st (setStatus x) k).
Proof.
  intros Hp Hq. core_cases k. unfold pending in *. simpl in *.
  split; unfold pending; simpl; intros; [lia | congruence].
Qed.

Lemma Shown_blobCallback (blob : option Blob) (k : Core) :
  (0 < encoding k)%nat -> SInv k -> Shown k -> Shown (blobCallback blob k).
Proof.
  intros Hen Hs H. unfold blobCallback.
  destruct blob; core_cases k; sinv_intro Hs; shown_intro H; shown_close.
Qed.

Lemma Shown_postSettled (r : PostResult) (k : Core) :
  (0 < posting k)%nat -> SInv k -> Shown k -> Shown (postSettled r k).
Proof.
  intros Hpo Hs H.
  assert (truthy (qrImage (st k)) = false) as Hq.
  { destruct (truthy (qrImage (st k))) eqn:E; [|reflexivity].
    apply (sinv_result _ Hs) in E. unfold pending in E. lia. }
  assert (pending k = 1%nat) as Hp.
  { destruct (sinv_pending _ Hs) as [H0|[H1 _]]; [unfold pending in H0; lia|].
    exact H1. }
  split.
  - unfold postSettled, pending in *. simpl. lia.
  - unfold postSettled, settle_finally, settle. simpl.
    destruct r as [res|err]; simpl.
    + destruct (success res); simpl; [destruct (data res); simpl|]; auto;
        congruence.
    + congruence.
Qed.

Lemma Shown_resetScan (k : Core) :
  truthy (qrImage (st k)) = true -> SInv k -> Shown (with_st resetScan k).
Proof.
  intros Hq Hs. destruct (sinv_result _ Hs Hq) as [_ Hp].
  core_cases k. unfold pending in *. simpl in *.
  split; unfold pending; simpl; intros; [lia | discriminate].
Qed.

Lemma Shown_enhanced_scanFace (k : Core) :
  SInv k -> Shown k -> Shown (Enhanced.scanFace k).
Proof.
  intros Hs H. unfold Enhanced.scanFace.
  destruct (loading (st k)) eqn:El; simpl; [exact H|].
  destruct (truthy (qrImage (st k))) eqn:Eq; simpl; [exact H|].
  destruct (videoRef k); split; simpl; intros; congruence.
Qed.

Lemma Shown_basic_scanFace (k : Core) :
  SInv k -> Shown k -> Shown (Basic.scanFace k).
Proof.
  intros Hs H. unfold Basic.scanFace.
  destruct (loading (st k)) eqn:El; simpl; [exact H|].
  destruct (truthy (qrImage (st k))) eqn:Eq; simpl; [exact H|].
  destruct (negb (attached (videoRef k)) || negb (attached (canvasRef k)));
    split; simpl; intros; congruence.
Qed.

(** ** Further invariants of the enhanced component *)

Lemma reconcile_camera (shown : State) (k : Core) :
  camera_requests (reconcile shown k) = camera_requests k.
Proof.
  unfold camera_requests.
  destruct (reconcile_counts shown k) as (-> & -> & _). reflexivity.
Qed.

Lemma deps_eqb_qrImage_eq (a b : Enhanced.Component) :
  Enhanced.deps_eqb a b = true ->
  qrImage (st (Enhanced.core a)) = qrImage (st (Enhanced.core b)).
Proof.
  unfold Enhanced.deps_eqb. intros H.
  apply andb_prop in H as [H _]. apply andb_prop in H as [H _].
  apply andb_prop in H as [_ H]. now apply option_string_eqb_eq.
Qed.

Lemma XInv_commit (before after : Enhanced.Component) :
  XInv before ->
  mounted (Enhanced.core after) = true ->
  Shown (Enhanced.core after) ->
  (encoding (Enhanced.core after) + requests (Enhanced.core after)
   <= length (Enhanced.triggers after))%nat ->
  (camera_requests (Enhanced.core after) <= 1)%nat ->
  (Enhanced.modelLoaded after = false ->
   camera_requests (Enhanced.core after) = 0%nat) ->
  (forall l, Enhanced.loop after = Some l ->
             exists l0, Enhanced.loop before = Some l0) ->
  XInv (Enhanced.commit before after).
Proof.
  intros Hb Hmo Hsh Hct Hcam Hnc Hlp. split.
  - rewrite commit_core. now apply Shown_reconcile.
  - rewrite commit_core, commit_triggers.
    destruct (reconcile_counts (st (Enhanced.core before))
                (Enhanced.core after)) as (_ & _ & -> & ->).
    exact Hct.
  - rewrite commit_core, reconcile_camera. exact Hcam.
  - rewrite commit_core, reconcile_camera, commit_modelLoaded. exact Hnc.
  - intros l. rewrite commit_core, commit_loop, reconcile_mounted,
      reconcile_st.
    destruct (Enhanced.deps_eqb before after) eqn:E.
    + intros Hl. destruct (Hlp l Hl) as [l0 Hl0].
      destruct (xinv_loop _ Hb l0 Hl0) as [_ Hq].
      rewrite <- (deps_eqb_qrImage_eq _ _ E). auto.
    + destruct (Enhanced.modelLoaded after); simpl; [|discriminate].
      destruct (truthy (qrImage (st (Enhanced.core after)))); simpl;
        [discriminate|]. auto.
Qed.

Lemma XInv_init : XInv Enhanced.init.
Proof.
  split; [split| | | |]; cbv; intros; try discriminate; auto; lia.
Qed.

(** What [detectFaces] does to the counters. *)
Lemma detectFaces_counts (f : Enhanced.Frame) (l : Enhanced.Loop)
    (c : Enhanced.Component) :
  let c' := Enhanced.detectFaces f l c in
  (Enhanced.core c' = Enhanced.core c
   /\ Enhanced.triggers c' = Enhanced.triggers c)
  \/ (Enhanced.core c' = Enhanced.scanFace (Enhanced.core c)
      /\ Enhanced.triggers c' = Enhanced.now f :: Enhanced.triggers c).
Proof.
  unfold Enhanced.detectFaces. repeat case_match; simpl; auto.
Qed.

Lemma detectFaces_loop_from (f : Enhanced.Frame) (l : Enhanced.Loop)
    (c : Enhanced.Component) :
  Enhanced.loop c = Some l ->
  forall l', Enhanced.loop (Enhanced.detectFaces f l c) = Some l' ->
             exists l0, Enhanced.loop c = Some l0.
Proof. intros Hl l' _. eauto. Qed.

Lemma scanFace_encoding (k : Core) :
  (encoding (Enhanced.scanFace k) <= S (encoding k))%nat.
Proof. unfold Enhanced.scanFace. repeat case_match; simpl; lia. Qed.

Lemma XInv_step (c : Enhanced.Component) (e : Enhanced.Event) :
  EInv c -> XInv c -> XInv (Enhanced.step c e).
Proof.
  intros He Hx. unfold Enhanced.step.
  destruct (mounted (Enhanced.core c)) eqn:Hmo; [|exact Hx].
  pose proof (xinv_shown _ Hx) as Hsh.
  pose proof (xinv_counted _ Hx) as Hct.
  pose proof (xinv_camera _ Hx) as Hcam.
  pose proof (xinv_no_camera _ Hx) as Hnc.
  assert (XInv (Enhanced.commit c c)) as Hsame
    by (apply XInv_commit; eauto).
  destruct e; simpl Enhanced.handle.
  - (* ModelsLoaded *)
    destruct (Enhanced.modelsPending c) eqn:Hmp; [|exact Hsame].
    pose proof (einv_models _ He Hmp) as Hml.
    destruct (einv_unloaded _ He Hml) as (Hp & Hq & Hl).
    specialize (Hnc Hml). unfold camera_requests in Hnc.
    apply XInv_commit; simpl; auto; try discriminate.
    + apply (Shown_quiet (with_st (setStatus STATUS_IDLE) (Enhanced.core c)));
        [reflexivity | reflexivity | now apply Shown_setStatus].
    + unfold camera_requests. simpl. lia.
    + intros l0. rewrite Hl. discriminate.
  - (* ModelsFailed *)
    destruct (Enhanced.modelsPending c) eqn:Hmp; [|exact Hsame].
    pose proof (einv_models _ He Hmp) as Hml.
    destruct (einv_unloaded _ He Hml) as (Hp & Hq & Hl).
    apply XInv_commit; simpl; auto.
    + now apply Shown_setStatus.
    + intros l0. rewrite Hl. discriminate.
  - (* CameraGranted *)
    destruct (cameraPending (Enhanced.core c)) eqn:Hcp; [|exact Hsame].
    destruct (cameraGranted_frame tracks (Enhanced.core c))
      as (Es & _ & _ & Em & Ep).
    assert (camera_requests (cameraGranted tracks (Enhanced.core c))
            = camera_requests (Enhanced.core c)) as Ecam.
    { unfold camera_requests, cameraGranted. rewrite Hcp.
      destruct (videoRef (Enhanced.core c)); simpl;
        rewrite length_app; simpl; lia. }
    assert (encoding (cameraGranted tracks (Enhanced.core c))
            = encoding (Enhanced.core c)
            /\ requests (cameraGranted tracks (Enhanced.core c))
               = requests (Enhanced.core c)) as [Een Erq].
    { unfold cameraGranted. now destruct (videoRef (Enhanced.core c)). }
    apply XInv_commit; simpl; eauto; try congruence.
    + now apply (Shown_quiet (Enhanced.core c)).
    + intros Hml. rewrite Ecam. auto.
  - (* CameraDenied *)
    destruct (cameraPending (Enhanced.core c)) eqn:Hcp; [|exact Hsame].
    apply XInv_commit; simpl; eauto.
    + now apply (Shown_quiet (Enhanced.core c)).
    + unfold camera_requests in *. simpl. rewrite Hcp in Hcam. lia.
    + intros Hml. specialize (Hnc Hml).
      unfold camera_requests in *. simpl. rewrite Hcp in Hnc. lia.
  - (* AnimationFrame *)
    destruct (Enhanced.loop c) as [l|] eqn:Hl; [|exact Hsame].
    destruct (detectFaces_models f l c) as [Eml Emp].
    pose proof (scanFace_frame (Enhanced.core c))
      as (_ & _ & Fh & Fm & Fcp & _ & Fr & _).
    pose proof (scanFace_encoding (Enhanced.core c)) as Fe.
    assert (camera_requests (Enhanced.scanFace (Enhanced.core c))
            = camera_requests (Enhanced.core c)) as Ecam
      by (unfold camera_requests; now rewrite Fh, Fcp).
    destruct (detectFaces_counts f l c) as [[Ek Et]|[Ek Et]];
      apply XInv_commit; rewrite ?Ek, ?Et, ?Eml, ?Ecam; simpl; eauto;
      try congruence; try lia.
    apply Shown_enhanced_scanFace; [apply He | exact Hsh].
  - (* BlobReady *)
    destruct (0 <? encoding (Enhanced.core c))%nat eqn:Hen; [|exact Hsame].
    apply Nat.ltb_lt in Hen.
    pose proof (blobCallback_frame blob (Enhanced.core c))
      as (_ & _ & Fh & Fm & _).
    apply XInv_commit; simpl; eauto; try congruence.
    + apply Shown_blobCallback; auto. apply He.
    + unfold blobCallback. destruct blob; simpl; lia.
    + unfold camera_requests, blobCallback in *. now destruct blob.
    + unfold camera_requests, blobCallback in *. now destruct blob.
  - (* PostSettled *)
    destruct (0 <? posting (Enhanced.core c))%nat eqn:Hpo; [|exact Hsame].
    apply Nat.ltb_lt in Hpo.
    apply XInv_commit; simpl; eauto.
    apply Shown_postSettled; auto. apply He.
  - (* ScanAgain *)
    destruct (truthy (qrImage (st (Enhanced.core c)))) eqn:Hq;
      [|exact Hsame].
    apply XInv_commit; simpl; eauto.
    apply Shown_resetScan; auto. apply He.
  - (* Unmount *)
    unfold Enhanced.unmount. split; simpl.
    + now apply (Shown_quiet (Enhanced.core c)).
    + exact Hct.
    + unfold camera_requests in *. simpl.
      unfold stopCamera. repeat case_match; rewrite ?length_alter; exact Hcam.
    + intros Hml. specialize (Hnc Hml). unfold camera_requests in *. simpl.
      unfold stopCamera. repeat case_match; rewrite ?length_alter; exact Hnc.
    + discriminate.
Qed.

Lemma XInv_reachable (es : list Enhanced.Event) :
  XInv (Enhanced.run Enhanced.init es).
Proof.
  assert (forall c, EInv c -> XInv c ->
                    EInv (Enhanced.run c es) /\ XInv (Enhanced.run c es)) as H.
  { induction es as [|e es IH]; intros c He Hx; simpl; [auto|].
    apply IH; [now apply EInv_step | now apply XInv_step]. }
  apply H; [apply EInv_init | apply XInv_init].
Qed.

(** ** Further invariants of the basic component *)

Lemma YInv_commit (before after : Basic.Component) :
  Shown (Basic.core after) ->
  (encoding (Basic.core after) + requests (Basic.core after)
   <= Basic.ticks after)%nat ->
  (camera_requests (Basic.core after) <= 1)%nat ->
  YInv (Basic.commit before after).
Proof.
  intros Hsh Hct Hcam. split.
  - rewrite basic_commit_core. now apply Shown_reconcile.
  - rewrite basic_commit_core, basic_commit_ticks.
    destruct (reconcile_counts (st (Basic.core before)) (Basic.core after))
      as (_ & _ & -> & ->).
    exact Hct.
  - rewrite basic_commit_core, reconcile_camera. exact Hcam.
Qed.

Lemma YInv_init : YInv Basic.init.
Proof. split; [split| |]; cbv; intros; try discriminate; auto; lia. Qed.

Lemma basic_scanFace_encoding (k : Core) :
  (encoding (Basic.scanFace k) <= S (encoding k))%nat.
Proof. unfold Basic.scanFace. repeat case_match; simpl; lia. Qed.

Lemma YInv_step (c : Basic.Component) (e : Basic.Event) :
  BInv c -> YInv c -> YInv (Basic.step c e).
Proof.
  intros Hb Hy. unfold Basic.step.
  destruct (mounted (Basic.core c)) eqn:Hmo; [|exact Hy].
  pose proof (yinv_shown _ Hy) as Hsh.
  pose proof (yinv_counted _ Hy) as Hct.
  pose proof (yinv_camera _ Hy) as Hcam.
  assert (YInv (Basic.commit c c)) as Hsame by now apply YInv_commit.
  destruct e; simpl Basic.handle.
  - (* CameraGranted *)
    destruct (cameraPending (Basic.core c)) eqn:Hcp; [|exact Hsame].
    destruct (cameraGranted_frame tracks (Basic.core c))
      as (Es & _ & _ & _ & Ep).
    apply YInv_commit; simpl.
    + now apply (Shown_quiet (Basic.core c)).
    + unfold cameraGranted. now destruct (videoRef (Basic.core c)).
    + unfold camera_requests, cameraGranted in *. rewrite Hcp in Hcam.
      destruct (videoRef (Basic.core c)); simpl;
        rewrite length_app; simpl; lia.
  - (* CameraDenied *)
    destruct (cameraPending (Basic.core c)) eqn:Hcp; [|exact Hsame].
    apply YInv_commit; simpl; auto.
    + now apply (Shown_quiet (Basic.core c)).
    + unfold camera_requests in *. simpl. rewrite Hcp in Hcam. lia.
  - (* Tick *)
    destruct (Basic.interval c) eqn:Hi; [|exact Hsame].
    pose proof (basic_scanFace_frame (Basic.core c))
      as (_ & _ & Fh & _ & Fcp & _ & Fr & _).
    pose proof (basic_scanFace_encoding (Basic.core c)) as Fe.
    apply YInv_commit; simpl.
    + apply Shown_basic_scanFace; [apply Hb | exact Hsh].
    + lia.
    + unfold camera_requests in *. now rewrite Fh, Fcp.
  - (* BlobReady *)
    destruct (0 <? encoding (Basic.core c))%nat eqn:Hen; [|exact Hsame].
    apply Nat.ltb_lt in Hen.
    apply YInv_commit; simpl.
    + apply Shown_blobCallback; auto. apply Hb.
    + unfold blobCallback. destruct blob; simpl; lia.
    + unfold camera_requests, blobCallback in *. now destruct blob.
  - (* PostSettled *)
    destruct (0 <? posting (Basic.core c))%nat eqn:Hpo; [|exact Hsame].
    apply Nat.ltb_lt in Hpo.
    apply YInv_commit; simpl; auto.
    apply Shown_postSettled; auto. apply Hb.
  - (* ScanAgain *)
    destruct (truthy (qrImage (st (Basic.core c)))) eqn:Hq; [|exact Hsame].
    apply YInv_commit; simpl; auto.
    apply Shown_resetScan; auto. apply Hb.
  - (* Unmount *)
    unfold Basic.unmount. split; simpl.
    + now apply (Shown_quiet (Basic.core c)).
    + exact Hct.
    + unfold camera_requests in *. simpl.
      unfold stopCamera. repeat case_match; rewrite ?length_alter; exact Hcam.
Qed.

Lemma YInv_reachable (es : list Basic.Event) : YInv (Basic.run Basic.init es).
Proof.
  assert (forall c, BInv c -> YInv c ->
                    BInv (Basic.run c es) /\ YInv (Basic.run c es)) as H.
  { induction es as [|e es IH]; intros c Hb Hy; simpl; [auto|].
    apply IH; [now apply BInv_step | now apply YInv_step]. }
  apply H; [apply BInv_init | apply YInv_init].
Qed.

(** ** Submissions in flight *)

(** X1.  In every reachable state of either variant at most one submission
    is in flight, and while one is, [loading] is true and no result is
    stored. *)
Theorem one_submission_in_flight :
  (forall es,
     let k := Enhanced.core (Enhanced.run Enhanced.init es) in
     (pending k <= 1)%nat
     /\ ((0 < pending k)%nat ->
         loading (st k) = true /\ truthy (qrImage (st k)) = false))
  /\ (forall es,
        let k := Basic.core (Basic.run Basic.init es) in
        (pending k <= 1)%nat
        /\ ((0 < pending k)%nat ->
            loading (st k) = true /\ truthy (qrImage (st k)) = false)).
Proof.
  assert (forall k, SInv k ->
            (pending k <= 1)%nat
            /\ ((0 < pending k)%nat ->
                loading (st k) = true /\ truthy (qrImage (st k)) = false))
    as H.
  { intros k [Hp Hr]. split; [lia|]. intros Hpos.
    destruct Hp as [Hp|[_ Hl]]; [lia|]. split; [exact Hl|].
    destruct (truthy (qrImage (st k))); [|reflexivity].
    destruct (Hr eq_refl). lia. }
  split; intros es k; apply H.
  - apply (einv_state _ (EInv_reachable es)).
  - apply (binv_state _ (BInv_reachable es)).
Qed.

Lemma getStatusClass_scanning : getStatusClass STATUS_SCANNING = "scanning".
Proof. reflexivity. Qed.

Lemma getStatusClass_success : getStatusClass STATUS_QR_GENERATED = "success".
Proof. reflexivity. Qed.

(** X2.  While a submission is in flight, in either variant, the page
    shows the video with the scanning overlay and the badge "Scanning
    face..." in class "scanning". *)
Theorem in_flight_view :
  (forall es,
     let k := Enhanced.core (Enhanced.run Enhanced.init es) in
     (0 < pending k)%nat ->
     render (st k) = Some (ScannerView true "scanning" STATUS_SCANNING))
  /\ (forall es,
        let k := Basic.core (Basic.run Basic.init es) in
        (0 < pending k)%nat ->
        render (st k) = Some (ScannerView true "scanning" STATUS_SCANNING)).
Proof.
  assert (forall k, SInv k -> Shown k -> (0 < pending k)%nat ->
            render (st k) = Some (ScannerView true "scanning" STATUS_SCANNING))
    as H.
  { intros k [Hp Hr] [Hs _] Hpos.
    destruct Hp as [Hp|[_ Hl]]; [lia|].
    assert (truthy (qrImage (st k)) = false) as Hq.
    { destruct (truthy (qrImage (st k))); [|reflexivity].
      destruct (Hr eq_refl). lia. }
    unfold render. rewrite Hq, Hl, (Hs Hpos). reflexivity. }
  split; intros es k; apply H.
  - apply (einv_state _ (EInv_reachable es)).
  - apply (xinv_shown _ (XInv_reachable es)).
  - apply (binv_state _ (BInv_reachable es)).
  - apply (yinv_shown _ (YInv_reachable es)).
Qed.

Lemma in_flight_view_witness :
  let k := Enhanced.core (Enhanced.run Enhanced.init first_capture) in
  let b := Basic.core
             (Basic.run Basic.init
                [Basic.CameraGranted [Live]; Basic.Tick;
                 Basic.BlobReady (Some JpegBlob)]) in
  (0 < pending k)%nat /\ (0 < pending b)%nat
  /\ render (st k) = Some (ScannerView true "scanning" STATUS_SCANNING)
  /\ render (st b) = Some (ScannerView true "scanning" STATUS_SCANNING).
Proof.
  cbv zeta. destruct in_flight_view as [HE HB].
  specialize (HE first_capture).
  specialize (HB [Basic.CameraGranted [Live]; Basic.Tick;
                  Basic.BlobReady (Some JpegBlob)]).
  cbv zeta in HE, HB.
  split; [apply le_n|]. split; [apply le_n|].
  split; [exact (HE (le_n 1)) | exact (HB (le_n 1))].
Defined.

(** X3.  Whenever a result is stored, in either variant, the status is the
    success marker (badge class "success"), [loading] is false, nothing is
    in flight, and the loop is off: the enhanced component has no detection
    loop and the basic one no timer. *)
Theorem result_shown_state :
  (forall es,
     let c := Enhanced.run Enhanced.init es in
     truthy (qrImage (st (Enhanced.core c))) = true ->
     status (st (Enhanced.core c)) = STATUS_QR_GENERATED
     /\ getStatusClass (status (st (Enhanced.core c))) = "success"
     /\ loading (st (Enhanced.core c)) = false
     /\ pending (Enhanced.core c) = 0%nat
     /\ Enhanced.loop c = None)
  /\ (forall es,
        let c := Basic.run Basic.init es in
        truthy (qrImage (st (Basic.core c))) = true ->
        status (st (Basic.core c)) = STATUS_QR_GENERATED
        /\ getStatusClass (status (st (Basic.core c))) = "success"
        /\ loading (st (Basic.core c)) = false
        /\ pending (Basic.core c) = 0%nat
        /\ Basic.interval c = false).
Proof.
  split; intros es c Hq.
  - pose proof (EInv_reachable es) as He. fold c in He.
    pose proof (XInv_reachable es) as Hx. fold c in Hx.
    pose proof (shown_result _ (xinv_shown _ Hx) Hq) as Hs.
    destruct (sinv_result _ (einv_state _ He) Hq) as [Hl Hp].
    rewrite Hs. repeat split; auto.
    destruct (Enhanced.loop c) as [l|] eqn:El; [|reflexivity].
    destruct (xinv_loop _ Hx l El) as [_ Hq']. congruence.
  - pose proof (BInv_reachable es) as Hb. fold c in Hb.
    pose proof (YInv_reachable es) as Hy. fold c in Hy.
    pose proof (shown_result _ (yinv_shown _ Hy) Hq) as Hs.
    destruct (sinv_result _ (binv_state _ Hb) Hq) as [Hl Hp].
    rewrite Hs. repeat split; auto.
    rewrite (binv_interval _ Hb). unfold Basic.runEffect. rewrite Hq.
    simpl. apply andb_false_r.
Qed.

Lemma result_shown_state_witness :
  let c := Enhanced.run Enhanced.init
             (first_capture
              ++ [Enhanced.BlobReady (Some JpegBlob);
                  Enhanced.PostSettled accepted; seen 1 20000]) in
  let b := Basic.run Basic.init
             [Basic.CameraGranted [Live]; Basic.Tick;
              Basic.BlobReady (Some JpegBlob); Basic.PostSettled accepted;
              Basic.Tick] in
  truthy (qrImage (st (Enhanced.core c))) = true
  /\ truthy (qrImage (st (Basic.core b))) = true
  /\ Enhanced.loop c = None
  /\ Basic.interval b = false.
Proof.
  cbv zeta. destruct result_shown_state as [HE HB].
  specialize (HE (first_capture
                  ++ [Enhanced.BlobReady (Some JpegBlob);
                      Enhanced.PostSettled accepted; seen 1 20000])%list).
  specialize (HB [Basic.CameraGranted [Live]; Basic.Tick;
                  Basic.BlobReady (Some JpegBlob); Basic.PostSettled accepted;
                  Basic.Tick]).
  cbv zeta in HE, HB.
  destruct (HE eq_refl) as (_ & _ & _ & _ & HE1).
  destruct (HB eq_refl) as (_ & _ & _ & _ & HB1).
  split; [reflexivity|]. split; [reflexivity|].
  split; [exact HE1 | exact HB1].
Defined.

(** X4.  No request without a capture: in every reachable state the
    requests sent plus the encodings still running are at most the
    captures made (calls of [scanFace] by [detectFaces], respectively by
    the timer). *)
Theorem requests_bounded_by_captures :
  (forall es,
     let c := Enhanced.run Enhanced.init es in
     (encoding (Enhanced.core c) + requests (Enhanced.core c)
      <= length (Enhanced.triggers c))%nat)
  /\ (forall es,
        let c := Basic.run Basic.init es in
        (encoding (Basic.core c) + requests (Basic.core c)
         <= Basic.ticks c)%nat).
Proof.
  split; intros es c.
  - apply (xinv_counted _ (XInv_reachable es)).
  - apply (yinv_counted _ (YInv_reachable es)).
Qed.






Lemma one_submission_in_flight_witness :
  let k := Enhanced.core (Enhanced.run Enhanced.init first_capture) in
  (0 < pending k)%nat
  /\ (pending k <= 1)%nat
  /\ loading (st k) = true /\ truthy (qrImage (st k)) = false.
Proof.
  cbv zeta. destruct one_submission_in_flight as [HE _].
  specialize (HE first_capture). cbv zeta in HE.
  destruct HE as [H1 H2].
  split; [apply le_n|]. split; [exact H1 | exact (H2 (le_n 1))].
Defined.

(** ** When the models fail to load *)

Lemma model_error_step (c : Enhanced.Component) (e : Enhanced.Event) :
  ModelError c -> ModelError (Enhanced.step c e).
Proof.
  intros (Ek & Eml & Emp & El & Et). unfold Enhanced.step.
  destruct (mounted (Enhanced.core c)) eqn:Hmo;
    [|unfold ModelError; rewrite Hmo; repeat split; assumption].
  assert (ModelError (Enhanced.commit c c)) as Hsame
    by (rewrite commit_self; unfold ModelError; rewrite Hmo;
        repeat split; assumption).
  destruct e; simpl Enhanced.handle; rewrite ?Emp, ?El; try exact Hsame.
  - rewrite Ek. simpl. exact Hsame.
  - rewrite Ek. simpl. exact Hsame.
  - rewrite Ek. simpl. exact Hsame.
  - rewrite Ek. simpl. exact Hsame.
  - rewrite Ek. simpl. exact Hsame.
  - unfold ModelError, Enhanced.unmount. simpl.
    rewrite Eml, Emp, Et. repeat split; auto.
    rewrite Ek. simpl. unfold releaseCamera, stopCamera. simpl.
    repeat case_match; reflexivity.
Qed.

(** X6.  If loading the models fails, the status is "❌ Model Error" in
    class "error" and stays so: whatever happens afterwards, the camera is
    never asked for, no detection loop runs, nothing is captured and no
    request is sent. *)
Theorem model_failure_is_final (es : list Enhanced.Event) :
  let c := Enhanced.run Enhanced.init (Enhanced.ModelsFailed :: es) in
  st (Enhanced.core c) = mkState STATUS_MODEL_ERROR false None None
  /\ render (st (Enhanced.core c))
     = Some (ScannerView false "error" STATUS_MODEL_ERROR)
  /\ heap (Enhanced.core c) = []
  /\ cameraPending (Enhanced.core c) = false
  /\ Enhanced.loop c = None
  /\ Enhanced.triggers c = []
  /\ requests (Enhanced.core c) = 0%nat.
Proof.
  assert (forall c, ModelError c -> ModelError (Enhanced.run c es)) as Hrun.
  { induction es as [|e es' IH]; intros c Hc; simpl; [exact Hc|].
    apply IH, model_error_step, Hc. }
  assert (ModelError (Enhanced.step Enhanced.init Enhanced.ModelsFailed))
    as H0 by (repeat split; reflexivity).
  destruct (Hrun _ H0) as (Ek & _ & _ & El & Et).
  simpl. change (fold_left Enhanced.step es
                   (Enhanced.step Enhanced.init Enhanced.ModelsFailed))
    with (Enhanced.run (Enhanced.step Enhanced.init Enhanced.ModelsFailed) es).
  rewrite Ek. simpl. repeat split; auto.
Qed.

(** ** Stopping the camera *)

Lemma live_tracks_cons (s : Stream) (hp : list Stream) :
  live_tracks (s :: hp)
  = (length (List.filter is_live s) + live_tracks hp)%nat.
Proof.
  unfold live_tracks. simpl. now rewrite List.filter_app, length_app.
Qed.

Lemma stopTracks_twice (s : Stream) : stopTracks (stopTracks s) = stopTracks s.
Proof. unfold stopTracks. now rewrite map_map. Qed.

Lemma alter_stopTracks_live (h : nat) (hp : list Stream) :
  (live_tracks (alter stopTracks h hp) <= live_tracks hp)%nat.
Proof.
  revert h. induction hp as [|s hp IH]; intros h; [reflexivity|].
  destruct h as [|h]; simpl; rewrite !live_tracks_cons.
  - rewrite stopTracks_none_live. simpl. lia.
  - specialize (IH h). unfold alter in IH. lia.
Qed.

Lemma alter_stopTracks_twice (h : nat) (hp : list Stream) :
  alter stopTracks h (alter stopTracks h hp) = alter stopTracks h hp.
Proof.
  revert h. induction hp as [|s hp IH]; intros h; [reflexivity|].
  destruct h as [|h]; simpl.
  - now rewrite stopTracks_twice.
  - f_equal. apply IH.
Qed.

(** X7.  [stopCamera] never leaves more tracks live than it found, keeps
    the number of streams, and stopping twice is stopping once; with a
    stream bound to the video element, no track of that stream is live
    afterwards. *)
Theorem stopCamera_only_stops (r : option Video) (hp : list Stream) :
  (live_tracks (stopCamera r hp) <= live_tracks hp)%nat
  /\ length (stopCamera r hp) = length hp
  /\ stopCamera r (stopCamera r hp) = stopCamera r hp
  /\ (forall v h s,
        r = Some v -> srcObject v = Some h -> hp !! h = Some s ->
        exists s', stopCamera r hp !! h = Some s'
                   /\ length s' = length s
                   /\ List.filter is_live s' = []).
Proof.
  unfold stopCamera. repeat split.
  - repeat case_match; auto. apply alter_stopTracks_live.
  - repeat case_match; auto. apply length_alter.
  - repeat case_match; auto. apply alter_stopTracks_twice.
  - intros v h s -> Hv Hs. rewrite Hv. exists (stopTracks s).
    unfold Stream in *. rewrite list_lookup_alter_eq, Hs. repeat split.
    + unfold stopTracks. apply length_map.
    + apply stopTracks_none_live.
Qed.

Lemma stopCamera_only_stops_witness :
  let hp := [[Live; Ended]; [Live; Live; Live]] in
  let r := Some (mkVideo (Some 1%nat)) in
  live_tracks hp = 4%nat
  /\ live_tracks (stopCamera r hp) = 1%nat
  /\ exists s', stopCamera r hp !! 1%nat = Some s'
                /\ length s' = 3%nat /\ List.filter is_live s' = [].
Proof.
  cbv zeta.
  destruct (stopCamera_only_stops (Some (mkVideo (Some 1%nat)))
              [[Live; Ended]; [Live; Live; Live]]) as (_ & _ & _ & H).
  split; [reflexivity|]. split; [reflexivity|].
  exact (H (mkVideo (Some 1%nat)) 1%nat [Live; Live; Live]
           eq_refl eq_refl eq_refl).
Defined.

(** ** The status badge *)

Lemma includes_prefix (pat s : string) :
  String.prefix pat s = true -> includes pat s = true.
Proof. intros H. destruct s; simpl in *; now rewrite H. Qed.

Lemma prefix_app (pat s : string) :
  String.prefix pat s = true <-> exists b, s = (pat ++ b)%string.
Proof.
  revert s. induction pat as [|p pat IH]; intros s; simpl.
  - split; [intros _; now exists s | now destruct s].
  - destruct s as [|x w]; simpl.
    + split; [intros H | intros (b & H)]; discriminate H.
    + destruct (Ascii.ascii_dec p x) as [->|Hne].
      * rewrite IH. split; intros (b & H); exists b; congruence.
      * split; [intros H; discriminate H | intros (b & H); congruence].
Qed.

Lemma includes_nil (pat : string) :
  includes pat "" = String.prefix pat "".
Proof. simpl. now destruct pat. Qed.

Lemma includes_cons (pat : string) (ch : Ascii.ascii) (s : string) :
  includes pat (String ch s)
  = if String.prefix pat (String ch s) then true else includes pat s.
Proof. reflexivity. Qed.

(** [includes] finds exactly the strings that contain the pattern. *)
Lemma includes_spec (pat s : string) :
  includes pat s = true <-> exists a b, s = (a ++ pat ++ b)%string.
Proof.
  split.
  - induction s as [|ch s IH].
    + rewrite includes_nil. intros E.
      apply prefix_app in E as (b & E). now exists "", b.
    + rewrite includes_cons.
      destruct (String.prefix pat (String ch s)) eqn:E.
      * intros _. apply prefix_app in E as (b & E). now exists "", b.
      * intros H. destruct (IH H) as (a & b & ->).
        now exists (String ch a), b.
  - intros (a & b & ->). induction a as [|ch a IH].
    + apply includes_prefix, prefix_app. now exists b.
    + change ((String ch a ++ pat ++ b)%string)
        with (String ch (a ++ pat ++ b)%string).
      rewrite includes_cons. case_match; [reflexivity | exact IH].
Qed.

(** X8.  [getStatusClass] gives "success" for the success marker and for
    no other text, "scanning" for "Scanning face..." and for no other
    text, "error" exactly for the other texts that contain "❌", and no
    class for the rest. *)
Theorem getStatusClass_exact (text : string) :
  (getStatusClass text = "success" <-> text = STATUS_QR_GENERATED)
  /\ (getStatusClass text = "scanning" <-> text = STATUS_SCANNING)
  /\ (getStatusClass text = "error" <->
      text <> STATUS_QR_GENERATED
      /\ exists a b, text = (a ++ "❌" ++ b)%string)
  /\ (getStatusClass text = "" <->
      text <> STATUS_QR_GENERATED /\ text <> STATUS_SCANNING
      /\ ~ exists a b, text = (a ++ "❌" ++ b)%string).
Proof.
  assert (STATUS_SCANNING <> STATUS_QR_GENERATED) as Hsm by discriminate.
  assert (includes "❌" STATUS_SCANNING = false) as Hsc by reflexivity.
  unfold getStatusClass.
  destruct (String.eqb_spec text STATUS_QR_GENERATED) as [->|Hm].
  { intuition (try discriminate; try congruence). }
  destruct (includes "❌" text) eqn:Hi.
  { pose proof (proj1 (includes_spec _ _) Hi) as Hex.
    intuition (try discriminate; try congruence). }
  assert (~ exists a b, text = (a ++ "❌" ++ b)%string) as Hno.
  { intros Hex. apply includes_spec in Hex. congruence. }
  destruct (String.eqb_spec text STATUS_SCANNING) as [->|Hs];
    intuition (try discriminate; try congruence).
Qed.

(** X9.  The badge after a failed submission: without a message from the
    service (or with an empty one) the fallback text is shown in class
    "error"; a message of the service is shown in class "error" only if it
    contains "❌" itself, and otherwise, unless it is one of the two
    texts with a class of their own, without any class. *)
Theorem failure_badge_class (r : PostResult) (s : State) :
  failed r = true ->
  let text := status (settle_finally r s) in
  (failure_message r = None \/ failure_message r = Some "" ->
   text = STATUS_NOT_RECOGNIZED /\ getStatusClass text = "error")
  /\ (forall m,
        failure_message r = Some m -> m <> "" ->
        text = m
        /\ (m <> STATUS_QR_GENERATED -> m <> STATUS_SCANNING ->
            getStatusClass text
            = if includes "❌" m then "error" else "")).
Proof.
  intros Hf text. subst text. unfold settle_finally.
  rewrite settle_failed by exact Hf. simpl. split.
  - intros [-> | ->]; split; reflexivity.
  - intros m -> Hne. rewrite or_else_some by exact Hne.
    split; [reflexivity|]. intros Hm Hs. unfold getStatusClass.
    apply String.eqb_neq in Hm, Hs. rewrite Hm, Hs.
    now destruct (includes "❌" m).
Qed.

Lemma failure_badge_class_witness :
  let s := mkState STATUS_SCANNING true None None in
  failed unknown_face = true
  /\ status (settle_finally unknown_face s) = "Unknown face"
  /\ getStatusClass (status (settle_finally unknown_face s)) = "".
Proof.
  cbv zeta.
  destruct (failure_badge_class unknown_face
              (mkState STATUS_SCANNING true None None) eq_refl) as [_ H].
  assert ("Unknown face" <> "") as Hne by discriminate.
  destruct (H "Unknown face" eq_refl Hne) as [H1 H2].
  split; [reflexivity|]. split; [exact H1|].
  assert ("Unknown face" <> STATUS_QR_GENERATED) as Hm by discriminate.
  assert ("Unknown face" <> STATUS_SCANNING) as Hs by discriminate.
  exact (H2 Hm Hs).
Defined.

(** ** What is rendered after a successful submission *)

(** X10.  When the request settles with [success] true and a payload, the
    next render of either variant (a) shows the result card with the
    returned image, the three fields of the returned user and the badge in
    class "success", if the payload has a non-empty image and a user;
    (b) throws, if it has a non-empty image and no user; (c) keeps the
    video, with the success badge and without overlay or "Scan Again"
    button, if the image is missing or empty. *)
Theorem render_after_success (p : Payload) (m : option string) :
  let r := Resolved (mkResData true (Some p) m) in
  let expected :=
    match qr_image p with
    | Some q =>
        if String.eqb q "" then
          Some (ScannerView false "success" STATUS_QR_GENERATED)
        else
          match payload_user p with
          | Some u =>
              Some (ResultView "success" STATUS_QR_GENERATED q
                      (name u) (mobile u) (role u))
          | None => None
          end
    | None => Some (ScannerView false "success" STATUS_QR_GENERATED)
    end in
  (forall es,
     let c := Enhanced.run Enhanced.init es in
     mounted (Enhanced.core c) = true ->
     (0 < posting (Enhanced.core c))%nat ->
     render (st (Enhanced.core (Enhanced.step c (Enhanced.PostSettled r))))
     = expected)
  /\ (forall es,
        let c := Basic.run Basic.init es in
        mounted (Basic.core c) = true ->
        (0 < posting (Basic.core c))%nat ->
        render (st (Basic.core (Basic.step c (Basic.PostSettled r))))
        = expected).
Proof.
  intros r expected.
  assert (forall s, render (settle_finally r s) = expected) as H.
  { intros s. subst r expected. unfold settle_finally, settle, render. simpl.
    destruct (qr_image p) as [q|]; simpl; [|reflexivity].
    destruct (String.eqb q ""); simpl; [reflexivity|].
    destruct (payload_user p); reflexivity. }
  split; intros es c Hmo Hpo.
  - destruct (enhanced_settled_step es r Hmo Hpo) as (Es & _).
    fold c in Es. rewrite Es. apply H.
  - destruct (basic_settled_step es r Hmo Hpo) as (Es & _).
    fold c in Es. rewrite Es. apply H.
Qed.

Lemma render_after_success_witness :
  let c := Enhanced.run Enhanced.init
             (first_capture ++ [Enhanced.BlobReady (Some JpegBlob)]) in
  let no_user :=
    Resolved (mkResData true (Some (mkPayload (Some "qr.png") None)) None) in
  (mounted (Enhanced.core c) = true /\ (0 < posting (Enhanced.core c))%nat)
  /\ render (st (Enhanced.core (Enhanced.step c (Enhanced.PostSettled no_user))))
     = None
  /\ render (st (Enhanced.core (Enhanced.step c (Enhanced.PostSettled accepted))))
     = Some (ResultView "success" STATUS_QR_GENERATED
               "data:image/png;base64,iVBOR" "Asha" "5550100" "student").
Proof.
  cbv zeta.
  destruct (render_after_success (mkPayload (Some "qr.png") None) None)
    as [H1 _].
  destruct (render_after_success
              (mkPayload (Some "data:image/png;base64,iVBOR") (Some a_user))
              None) as [H2 _].
  specialize (H1 (first_capture ++ [Enhanced.BlobReady (Some JpegBlob)])%list).
  specialize (H2 (first_capture ++ [Enhanced.BlobReady (Some JpegBlob)])%list).
  cbv zeta in H1, H2.
  split; [split; [reflexivity | apply le_n]|].
  split; [exact (H1 eq_refl (le_n 1)) | exact (H2 eq_refl (le_n 1))].
Defined.

(** ** The overlay label and the capture *)

(** X11.  A frame in which [detectFaces] captures is a frame in which the
    boxes are labelled "Capturing...".  The converse fails at the boundary:
    when the face has been seen for exactly 1000 ms the label already reads
    "Capturing..." and nothing is captured, since the label is drawn from
    [>= 1000] and the capture needs [> 1000]. *)
Theorem capture_under_capturing_label
    (c : Enhanced.Component) (f : Enhanced.Frame) :
  (Enhanced.triggers (Enhanced.step c (Enhanced.AnimationFrame f))
   <> Enhanced.triggers c ->
   exists l, Enhanced.loop c = Some l /\ overlayLabel f l = Some Capturing)
  /\ (forall l,
        Enhanced.loop c = Some l ->
        (0 < Enhanced.faces f)%nat ->
        Enhanced.firstDetectionTime l <> 0%Z ->
        (Enhanced.now f - Enhanced.firstDetectionTime l
         = Enhanced.DETECTION_STABILITY_DELAY)%Z ->
        overlayLabel f l = Some Capturing
        /\ Enhanced.triggers (Enhanced.step c (Enhanced.AnimationFrame f))
           = Enhanced.triggers c).
Proof.
  split.
  - intros Ht.
    assert (0 < Enhanced.faces f)%nat as Hn.
    { revert Ht. unfold Enhanced.step.
      destruct (mounted (Enhanced.core c)); [|congruence].
      rewrite commit_triggers. simpl Enhanced.handle.
      destruct (Enhanced.loop c) as [l0|]; [|congruence].
      unfold Enhanced.detectFaces.
      destruct (negb (attached (videoRef (Enhanced.core c)))
                || negb (attached (canvasRef (Enhanced.core c)))
                || negb (Enhanced.modelLoaded c)
                || truthy (qrImage (st (Enhanced.core c))));
        simpl; [congruence|].
      destruct (Enhanced.playing f && hasStream (videoRef (Enhanced.core c)));
        simpl; [|congruence].
      destruct (0 <? Enhanced.faces f)%nat eqn:En; simpl; [|congruence].
      intros _. now apply Nat.ltb_lt. }
    apply trigger_needs_window in Ht as (_ & l & Hl & Hne & Hgt & _).
    exists l. split; [exact Hl|]. unfold overlayLabel.
    apply Nat.ltb_lt in Hn. rewrite Hn.
    apply Z.eqb_neq in Hne. rewrite Hne.
    replace (_ <? _)%Z with false; [reflexivity|].
    symmetry. apply Z.ltb_ge. lia.
  - intros l Hl Hn Hne Heq. split.
    + unfold overlayLabel. apply Nat.ltb_lt in Hn. rewrite Hn.
      apply Z.eqb_neq in Hne. rewrite Hne, Heq. reflexivity.
    + destruct (decide (Enhanced.triggers
                          (Enhanced.step c (Enhanced.AnimationFrame f))
                        = Enhanced.triggers c)) as [E|E]; [exact E|].
      apply trigger_needs_window in E as (_ & l' & Hl' & _ & Hgt & _).
      rewrite Hl in Hl'. injection Hl' as <-. lia.
Qed.

Lemma capture_under_capturing_label_witness :
  let c := Enhanced.run Enhanced.init
             [Enhanced.ModelsLoaded; Enhanced.CameraGranted [Live];
              seen 1 10000] in
  Enhanced.loop c = Some (Enhanced.mkLoop 0 10000)
  /\ overlayLabel (Enhanced.mkFrame 11000 1 true) (Enhanced.mkLoop 0 10000)
     = Some Capturing
  /\ Enhanced.triggers (Enhanced.step c (seen 1 11000)) = Enhanced.triggers c
  /\ exists l, Enhanced.loop c = Some l
               /\ overlayLabel (Enhanced.mkFrame 11001 1 true) l
                  = Some Capturing.
Proof.
  cbv zeta.
  pose proof (capture_under_capturing_label
                (Enhanced.run Enhanced.init
                   [Enhanced.ModelsLoaded; Enhanced.CameraGranted [Live];
                    seen 1 10000])) as H.
  destruct (H (Enhanced.mkFrame 11000 1 true)) as [_ H1].
  destruct (H (Enhanced.mkFrame 11001 1 true)) as [H2 _].
  assert (10000 <> 0)%Z as Hne by discriminate.
  destruct (H1 (Enhanced.mkLoop 0 10000) eq_refl (le_n 1) Hne eq_refl)
    as [H3 H4].
  split; [reflexivity|]. split; [exact H3|]. split; [exact H4|].
  apply H2. vm_compute. discriminate.
Defined.

(** ** When the loops run *)

(** X12.  In every reachable state of the basic variant the timer runs
    exactly when the component is mounted, shows no result, is not loading
    and its status is not the success marker. *)
Theorem basic_timer_runs_iff (es : list Basic.Event) :
  let c := Basic.run Basic.init es in
  Basic.interval c = true <->
  mounted (Basic.core c) = true
  /\ truthy (qrImage (st (Basic.core c))) = false
  /\ loading (st (Basic.core c)) = false
  /\ status (st (Basic.core c)) <> STATUS_QR_GENERATED.
Proof.
  intros c. pose proof (binv_interval _ (BInv_reachable es)) as Hi.
  fold c in Hi. rewrite Hi. unfold Basic.runEffect.
  rewrite !andb_true_iff, !negb_true_iff.
  destruct (String.eqb_spec (status (st (Basic.core c))) STATUS_QR_GENERATED);
    intuition congruence.
Qed.

(** X13.  In every reachable state of the enhanced variant a detection
    loop exists only while the component is mounted with the models loaded
    and no result stored, and the variable it compares for the cooldown is
    0. *)
Theorem detection_loop_runs_only_when (es : list Enhanced.Event)
    (l : Enhanced.Loop) :
  let c := Enhanced.run Enhanced.init es in
  Enhanced.loop c = Some l ->
  mounted (Enhanced.core c) = true
  /\ Enhanced.modelLoaded c = true
  /\ Enhanced.modelsPending c = false
  /\ truthy (qrImage (st (Enhanced.core c))) = false
  /\ Enhanced.lastScanTime l = 0%Z.
Proof.
  intros c Hl.
  pose proof (EInv_reachable es) as He. fold c in He.
  destruct (xinv_loop _ (XInv_reachable es) l Hl) as [Hmo Hq].
  pose proof (EInv_loop_loaded c l He Hl) as Hml.
  repeat split; auto.
  - now apply EInv_loaded.
  - now apply (lastScanTime_always_zero es).
Qed.

Lemma detection_loop_runs_only_when_witness :
  let c := Enhanced.run Enhanced.init
             [Enhanced.ModelsLoaded; Enhanced.CameraGranted [Live];
              seen 1 10000] in
  Enhanced.loop c = Some (Enhanced.mkLoop 0 10000)
  /\ mounted (Enhanced.core c) = true
  /\ Enhanced.modelLoaded c = true.
Proof.
  cbv zeta.
  pose proof (detection_loop_runs_only_when
                [Enhanced.ModelsLoaded; Enhanced.CameraGranted [Live];
                 seen 1 10000] (Enhanced.mkLoop 0 10000)) as H.
  cbv zeta in H. destruct (H eq_refl) as (H1 & H2 & _).
  split; [reflexivity|]. split; [exact H1 | exact H2].
Defined.

(** ** Frames of a video that does not play *)

Lemma step_unseen (c : Enhanced.Component) (n : nat) (t : Z) :
  detecting c -> Enhanced.step c (unseen n t) = c.
Proof.
  intros Hd. pose proof (detecting_guard c Hd) as Hg.
  unfold Enhanced.step, unseen. destruct (mounted (Enhanced.core c));
    [|reflexivity].
  simpl Enhanced.handle. destruct (Enhanced.loop c); [|apply commit_self].
  unfold Enhanced.detectFaces. rewrite Hg. simpl. apply commit_self.
Qed.

(** X14.  Frames in which the video does not pass the playing test change
    nothing, not even the stability timer: the time they take counts
    towards the stability window, and the first frame with a face after
    them captures if the timer was started more than 1000 ms before. *)
Theorem paused_frames_keep_timer (c : Enhanced.Component)
    (l : Enhanced.Loop) (ps : list (nat * Z)) (n : nat) (t : Z) :
  detecting c ->
  Enhanced.loop c = Some l ->
  let paused := map (fun p => unseen (fst p) (snd p)) ps in
  Enhanced.run c paused = c
  /\ (Enhanced.firstDetectionTime l <> 0%Z ->
      (0 < n)%nat ->
      (t - Enhanced.firstDetectionTime l
       > Enhanced.DETECTION_STABILITY_DELAY)%Z ->
      loading (st (Enhanced.core c)) = false ->
      status (st (Enhanced.core c)) <> STATUS_QR_GENERATED ->
      (t - Enhanced.lastScanTime l > Enhanced.SCAN_COOLDOWN)%Z ->
      Enhanced.triggers (Enhanced.run c (paused ++ [seen n t]))
      = t :: Enhanced.triggers c).
Proof.
  intros Hd Hl paused.
  assert (Enhanced.run c paused = c) as Hrun.
  { subst paused. induction ps as [|p ps IH]; simpl; [reflexivity|].
    rewrite step_unseen by exact Hd. exact IH. }
  split; [exact Hrun|].
  intros Hne Hn Hw Hld Hs Hc.
  unfold Enhanced.run in *. rewrite fold_left_app, Hrun. simpl.
  now destruct (step_frame_trigger c l n t Hd Hl Hn Hne Hw Hld Hs Hc)
    as (_ & _ & _ & Et).
Qed.

Lemma paused_frames_keep_timer_witness :
  let c := Enhanced.run Enhanced.init
             [Enhanced.ModelsLoaded; Enhanced.CameraGranted [Live];
              seen 1 10000] in
  Enhanced.loop c = Some (Enhanced.mkLoop 0 10000)
  /\ Enhanced.triggers
       (Enhanced.run c [unseen 0 10100; unseen 0 15000; seen 1 15016])
     = [15016%Z].
Proof.
  cbv zeta.
  destruct (paused_frames_keep_timer
              (Enhanced.run Enhanced.init
                 [Enhanced.ModelsLoaded; Enhanced.CameraGranted [Live];
                  seen 1 10000])
              (Enhanced.mkLoop 0 10000)
              [(0%nat, 10100%Z); (0%nat, 15000%Z)] 1%nat 15016%Z)
    as [_ H].
  - repeat split; reflexivity.
  - reflexivity.
  - split; [reflexivity|].
    assert (10000 <> 0)%Z as Hne by discriminate.
    assert (STATUS_IDLE <> STATUS_QR_GENERATED) as Hs by discriminate.
    exact (H Hne (le_n 1) eq_refl eq_refl Hs eq_refl).
Defined.

(** ** After a frame that could not be encoded *)

(** X15.  When [toBlob] hands [null] to the callback in a reachable,
    mounted component, nothing is in flight any more and [loading] is
    false, yet the badge keeps reading "Scanning face..." in class
    "scanning"; the loop is armed again (a fresh detection loop,
    respectively a running timer) and no request was sent. *)
Theorem null_blob_rearms :
  (forall es,
     let c := Enhanced.run Enhanced.init es in
     mounted (Enhanced.core c) = true ->
     (0 < encoding (Enhanced.core c))%nat ->
     let c' := Enhanced.step c (Enhanced.BlobReady None) in
     render (st (Enhanced.core c'))
     = Some (ScannerView false "scanning" STATUS_SCANNING)
     /\ pending (Enhanced.core c') = 0%nat
     /\ requests (Enhanced.core c') = requests (Enhanced.core c)
     /\ Enhanced.loop c' = Some (Enhanced.mkLoop 0 0))
  /\ (forall es,
        let c := Basic.run Basic.init es in
        mounted (Basic.core c) = true ->
        (0 < encoding (Basic.core c))%nat ->
        let c' := Basic.step c (Basic.BlobReady None) in
        render (st (Basic.core c'))
        = Some (ScannerView false "scanning" STATUS_SCANNING)
        /\ pending (Basic.core c') = 0%nat
        /\ requests (Basic.core c') = requests (Basic.core c)
        /\ Basic.interval c' = true).
Proof.
  assert (forall k, SInv k -> Shown k -> (0 < encoding k)%nat ->
            st (blobCallback None k)
            = mkState STATUS_SCANNING false (qrImage (st k)) (user (st k))
            /\ truthy (qrImage (st k)) = false
            /\ loading (st k) = true
            /\ pending (blobCallback None k) = 0%nat
            /\ requests (blobCallback None k) = requests k) as H.
  { intros k [Hp Hr] [Hs _] Hen.
    assert (0 < pending k)%nat as Hpos by (unfold pending; lia).
    destruct Hp as [Hp|[Hp Hl]]; [lia|].
    assert (truthy (qrImage (st k)) = false) as Hq.
    { destruct (truthy (qrImage (st k))); [|reflexivity].
      destruct (Hr eq_refl). lia. }
    specialize (Hs Hpos).
    unfold blobCallback, setLoading, pending in *. simpl. rewrite Hs.
    repeat split; auto. lia. }
  split; intros es c Hmo Hen c'.
  - pose proof (EInv_reachable es) as He. fold c in He.
    pose proof (XInv_reachable es) as Hx. fold c in Hx.
    destruct (H _ (einv_state _ He) (xinv_shown _ Hx) Hen)
      as (Es & Hq & Hl & Ep & Er).
    assert (Enhanced.modelLoaded c = true) as Hml
      by (apply EInv_pending_loaded; [exact He | unfold pending; lia]).
    subst c'. unfold Enhanced.step. rewrite Hmo. simpl Enhanced.handle.
    apply Nat.ltb_lt in Hen as ->.
    rewrite commit_core, commit_loop, reconcile_st, reconcile_pending,
      reconcile_requests.
    change (Enhanced.core (Enhanced.with_core (blobCallback None) c))
      with (blobCallback None (Enhanced.core c)).
    change (Enhanced.modelLoaded (Enhanced.with_core (blobCallback None) c))
      with (Enhanced.modelLoaded c).
    rewrite deps_eqb_loading
      by (change (Enhanced.core (Enhanced.with_core (blobCallback None) c))
            with (blobCallback None (Enhanced.core c));
          rewrite Es, Hl; discriminate).
    rewrite Es, Ep, Er, Hml. unfold render. simpl. rewrite Hq.
    simpl. auto.
  - pose proof (BInv_reachable es) as Hb. fold c in Hb.
    pose proof (YInv_reachable es) as Hy. fold c in Hy.
    destruct (H _ (binv_state _ Hb) (yinv_shown _ Hy) Hen)
      as (Es & Hq & Hl & Ep & Er).
    subst c'. unfold Basic.step. rewrite Hmo. simpl Basic.handle.
    apply Nat.ltb_lt in Hen as ->.
    rewrite basic_commit_core, basic_commit_interval, reconcile_st,
      reconcile_pending, reconcile_requests.
    unfold Basic.runEffect.
    change (Basic.core (Basic.with_core (blobCallback None) c))
      with (blobCallback None (Basic.core c)).
    rewrite basic_deps_eqb_loading
      by (change (Basic.core (Basic.with_core (blobCallback None) c))
            with (blobCallback None (Basic.core c));
          rewrite Es, Hl; discriminate).
    rewrite Es, Ep, Er. unfold render. simpl. rewrite Hq. simpl. auto.
Qed.

Lemma null_blob_rearms_witness :
  let c := Enhanced.run Enhanced.init first_capture in
  let b := Basic.run Basic.init [Basic.CameraGranted [Live]; Basic.Tick] in
  (0 < encoding (Enhanced.core c))%nat
  /\ (0 < encoding (Basic.core b))%nat
  /\ Enhanced.loop (Enhanced.step c (Enhanced.BlobReady None))
     = Some (Enhanced.mkLoop 0 0)
  /\ Basic.interval (Basic.step b (Basic.BlobReady None)) = true.
Proof.
  cbv zeta. destruct null_blob_rearms as [HE HB].
  specialize (HE first_capture).
  specialize (HB [Basic.CameraGranted [Live]; Basic.Tick]).
  cbv zeta in HE, HB.
  destruct (HE eq_refl (le_n 1)) as (_ & _ & _ & HE1).
  destruct (HB eq_refl (le_n 1)) as (_ & _ & _ & HB1).
  split; [apply le_n|]. split; [apply le_n|].
  split; [exact HE1 | exact HB1].
Defined.
